(** * Combat tracker of agentic-dm: a shallow embedding and its properties

    The development follows the TypeScript front end:

    - [frontend/src/components/combat/useCombatState.ts]: the hook that owns
      the combat state, the battle-map positions and the combat log
      ([autoPlaceCombatants], [moveCombatant], [applyDamage], [applyHealing],
      [startCombat], [displayNPCTurn], [slowRollNPCTurns]);
    - [frontend/src/components/combat/CombatSetup.tsx]: the setup view that
      offers the start button;
    - the stand-alone [CombatTracker] component (the revision that rolls
      initiative in the browser): [rollInitiative], [applyDamage],
      [applyHealing] by index.

    JavaScript numbers that hold grid cells, hit points, rounds and
    identifiers are integers in every use made of them here; they are [Z].
    A [Map<string, {x, y}>] is a [gmap string GridPosition]; arrays are
    lists.  Replies of the combat server are arguments of the functions that
    await them. *)

From Stdlib Require Import ZArith Lia Sorted Permutation.
From stdpp Require Import base tactics option list strings gmap pretty.

#[local] Open Scope Z_scope.

(** ** Data model ([types.ts], [combat/types.ts]) *)

Record GridPosition := { x : Z; y : Z }.

Record GridSize := { width : Z; height : Z }.

#[global] Instance GridPosition_eq_dec : EqDecision GridPosition.
Proof. solve_decision. Defined.

Definition DEFAULT_GRID : GridSize := {| width := 20; height := 15 |}.

Definition NPC_TURN_DELAY : Z := 2500.

(** [Combatant] of [types.ts]; fields written [f?: T] are options.  The
    optional grid coordinates are [grid_x] and [grid_y] ([x], [y] in the
    source, which name the fields of [GridPosition] here). *)
Record Combatant := {
  name : string;
  initiative : Z;
  initiative_bonus : option Z;
  hp : Z;
  max_hp : Z;
  ac : option Z;
  is_player : bool;
  is_npc : option bool;
  is_friendly : option bool;
  npc_id : option string;
  player_id : option string;
  player_name : option string;
  pc_id : option string;
  character_name : option string;
  conditions : option (list string);
  grid_x : option Z;
  grid_y : option Z
}.

Record CombatState := {
  round : Z;
  initiative_order : list Combatant;
  current_turn_idx : nat;
  active : bool;
  current_turn_type : option string;
  current_is_npc : option bool
}.

(** [SetupCombatant] of [combat/types.ts]. *)
Record SetupCombatant := {
  s_name : string;
  s_initiative_bonus : Z;
  s_hp : Z;
  s_max_hp : Z;
  s_ac : Z;
  s_is_player : bool;
  s_is_npc : bool;
  s_is_friendly : option bool;
  s_npc_id : option string;
  s_player_id : option string;
  s_player_name : option string;
  s_pc_id : option string
}.

Inductive LogType := LogNpc | LogSystem.

Record CombatLogEntry := {
  id : Z;
  type : LogType;
  npcName : option string;
  dialogue : option string;
  movement : option string;
  action : option string;
  target : option string;
  result : option string;
  message : option string
}.

(** The result of one AI turn as the server sends it
    ([npc_turn_results] of [combatAPI.start] and [combatAPI.endTurn]). *)
Record NPCActionDetail := {
  action_type : string;
  action_name : option string;
  target_name : option string;
  combat_dialogue : option string
}.

Record NPCAction := {
  act : option NPCActionDetail;
  hit : option bool;
  damage_dealt : option Z
}.

Record NPCTurn := {
  combatant_name : string;
  narration : string;
  npc_action : option NPCAction
}.

(** Messages handed to the optional [onNPCTurn] callback. *)
Inductive CombatMessageType := round_start | turn_start | action_msg | combat_end.

Record NpcData := {
  nd_name : string;
  nd_dialogue : option string;
  nd_action : string;
  nd_target : option string;
  nd_result : string
}.

Inductive ChatMessage :=
| NpcMessage (content : string) (npcData : NpcData)
| CombatMessage (content : string) (kind : CombatMessageType) (round_no : option Z).

(** JavaScript truthiness of the optional values the code tests. *)
Definition truthy (b : option bool) : bool := default false b.

Definition truthy_string (s : option string) : bool :=
  match s with
  | Some s => negb (String.eqb s "")
  | None => false
  end.

(** [a || b] on strings: the empty string is falsy. *)
Definition or_string (a b : string) : string :=
  if String.eqb a "" then b else a.

(** [n || 0] on an optional number. *)
Definition or_zero (n : option Z) : Z := default 0 n.

(** ** Battle map: automatic placement ([autoPlaceCombatants]) *)

Definition playerSideOf (c : Combatant) : bool :=
  is_player c || truthy (is_friendly c).

Definition enemySideOf (c : Combatant) : bool :=
  negb (is_player c) && negb (truthy (is_friendly c)).

(** [group.forEach((c, i) => positions.set(c.name, {x: col, y: startRow + i}))],
    the index of the next element being [i]. *)
Fixpoint placeFrom (group : list Combatant) (col startRow : Z) (i : nat)
    (positions : gmap string GridPosition) : gmap string GridPosition :=
  match group with
  | [] => positions
  | c :: rest =>
      placeFrom rest col startRow (S i)
        (<[name c := {| x := col; y := startRow + Z.of_nat i |}]> positions)
  end.

Definition startRowOf (grid : GridSize) (group : list Combatant) : Z :=
  Z.max 0 ((height grid - Z.of_nat (length group)) / 2).

Definition placeGroup (grid : GridSize) (group : list Combatant) (col : Z)
    (positions : gmap string GridPosition) : gmap string GridPosition :=
  placeFrom group col (startRowOf grid group) 0 positions.

Definition playerCol : Z := 3.

Definition enemyCol (grid : GridSize) : Z := width grid - 4.

Definition autoPlaceCombatants (combatants : list Combatant) (grid : GridSize)
    : gmap string GridPosition :=
  let playerSide := filter (λ c, playerSideOf c = true) combatants in
  let enemySide := filter (λ c, enemySideOf c = true) combatants in
  placeGroup grid enemySide (enemyCol grid)
    (placeGroup grid playerSide playerCol ∅).

(** ** The state owned by the [useCombatState] hook *)

(** Start request payload: the three filtered lists of the set-up roster. *)
Record StartRequest := {
  req_players : list SetupCombatant;
  req_npcs : list SetupCombatant;
  req_monsters : list SetupCombatant;
  auto_npc_turns : bool
}.

Inductive Request :=
| ReqStart (r : StartRequest)
| ReqGetStatus
| ReqApplyDamage (target_nm : string) (damage : Z)
| ReqApplyHealing (target_nm : string) (healing : Z)
| ReqMoveCombatant (nm : string) (tx ty : Z).

(** What the hook does to the outside world and to the log, in program
    order: timer waits, requests to the combat server, entries appended to
    the combat log and messages handed to [onNPCTurn]. *)
Inductive Effect :=
| Sleep (ms : Z)
| Api (r : Request)
| Appended (e : CombatLogEntry)
| Notified (m : ChatMessage).

Record State := {
  combatState : option CombatState;
  setupCombatants : list SetupCombatant;
  showAddCombatant : bool;
  isLoading : bool;
  error : option string;
  activeTurnName : option string;
  combatLog : list CombatLogEntry;
  logIdRef : Z;
  pendingNPCTurnsRef : option (list NPCTurn);
  gridSize : GridSize;
  positions : gmap string GridPosition;
  selectedToken : option string;
  effects : list Effect
}.

(** The state of a freshly mounted hook. *)
Definition initialState : State :=
  {| combatState := None; setupCombatants := []; showAddCombatant := false;
     isLoading := false; error := None; activeTurnName := None;
     combatLog := []; logIdRef := 0; pendingNPCTurnsRef := None;
     gridSize := DEFAULT_GRID; positions := ∅; selectedToken := None;
     effects := [] |}.

Definition setCombatState (f : option CombatState → option CombatState) (st : State) : State :=
  {| combatState := f (combatState st); setupCombatants := setupCombatants st;
     showAddCombatant := showAddCombatant st; isLoading := isLoading st;
     error := error st; activeTurnName := activeTurnName st;
     combatLog := combatLog st; logIdRef := logIdRef st;
     pendingNPCTurnsRef := pendingNPCTurnsRef st; gridSize := gridSize st;
     positions := positions st; selectedToken := selectedToken st;
     effects := effects st |}.

Definition setSetupCombatants (f : list SetupCombatant → list SetupCombatant) (st : State) : State :=
  {| combatState := combatState st; setupCombatants := f (setupCombatants st);
     showAddCombatant := showAddCombatant st; isLoading := isLoading st;
     error := error st; activeTurnName := activeTurnName st;
     combatLog := combatLog st; logIdRef := logIdRef st;
     pendingNPCTurnsRef := pendingNPCTurnsRef st; gridSize := gridSize st;
     positions := positions st; selectedToken := selectedToken st;
     effects := effects st |}.

Definition setIsLoading (b : bool) (st : State) : State :=
  {| combatState := combatState st; setupCombatants := setupCombatants st;
     showAddCombatant := showAddCombatant st; isLoading := b;
     error := error st; activeTurnName := activeTurnName st;
     combatLog := combatLog st; logIdRef := logIdRef st;
     pendingNPCTurnsRef := pendingNPCTurnsRef st; gridSize := gridSize st;
     positions := positions st; selectedToken := selectedToken st;
     effects := effects st |}.

Definition setError (e : option string) (st : State) : State :=
  {| combatState := combatState st; setupCombatants := setupCombatants st;
     showAddCombatant := showAddCombatant st; isLoading := isLoading st;
     error := e; activeTurnName := activeTurnName st;
     combatLog := combatLog st; logIdRef := logIdRef st;
     pendingNPCTurnsRef := pendingNPCTurnsRef st; gridSize := gridSize st;
     positions := positions st; selectedToken := selectedToken st;
     effects := effects st |}.

Definition setActiveTurnName (n : option string) (st : State) : State :=
  {| combatState := combatState st; setupCombatants := setupCombatants st;
     showAddCombatant := showAddCombatant st; isLoading := isLoading st;
     error := error st; activeTurnName := n;
     combatLog := combatLog st; logIdRef := logIdRef st;
     pendingNPCTurnsRef := pendingNPCTurnsRef st; gridSize := gridSize st;
     positions := positions st; selectedToken := selectedToken st;
     effects := effects st |}.

Definition setCombatLog (f : list CombatLogEntry → list CombatLogEntry) (st : State) : State :=
  {| combatState := combatState st; setupCombatants := setupCombatants st;
     showAddCombatant := showAddCombatant st; isLoading := isLoading st;
     error := error st; activeTurnName := activeTurnName st;
     combatLog := f (combatLog st); logIdRef := logIdRef st;
     pendingNPCTurnsRef := pendingNPCTurnsRef st; gridSize := gridSize st;
     positions := positions st; selectedToken := selectedToken st;
     effects := effects st |}.

Definition setLogIdRef (n : Z) (st : State) : State :=
  {| combatState := combatState st; setupCombatants := setupCombatants st;
     showAddCombatant := showAddCombatant st; isLoading := isLoading st;
     error := error st; activeTurnName := activeTurnName st;
     combatLog := combatLog st; logIdRef := n;
     pendingNPCTurnsRef := pendingNPCTurnsRef st; gridSize := gridSize st;
     positions := positions st; selectedToken := selectedToken st;
     effects := effects st |}.

Definition setPendingNPCTurnsRef (p : option (list NPCTurn)) (st : State) : State :=
  {| combatState := combatState st; setupCombatants := setupCombatants st;
     showAddCombatant := showAddCombatant st; isLoading := isLoading st;
     error := error st; activeTurnName := activeTurnName st;
     combatLog := combatLog st; logIdRef := logIdRef st;
     pendingNPCTurnsRef := p; gridSize := gridSize st;
     positions := positions st; selectedToken := selectedToken st;
     effects := effects st |}.

Definition setPositions (f : gmap string GridPosition → gmap string GridPosition) (st : State) : State :=
  {| combatState := combatState st; setupCombatants := setupCombatants st;
     showAddCombatant := showAddCombatant st; isLoading := isLoading st;
     error := error st; activeTurnName := activeTurnName st;
     combatLog := combatLog st; logIdRef := logIdRef st;
     pendingNPCTurnsRef := pendingNPCTurnsRef st; gridSize := gridSize st;
     positions := f (positions st); selectedToken := selectedToken st;
     effects := effects st |}.

Definition setSelectedToken (t : option string) (st : State) : State :=
  {| combatState := combatState st; setupCombatants := setupCombatants st;
     showAddCombatant := showAddCombatant st; isLoading := isLoading st;
     error := error st; activeTurnName := activeTurnName st;
     combatLog := combatLog st; logIdRef := logIdRef st;
     pendingNPCTurnsRef := pendingNPCTurnsRef st; gridSize := gridSize st;
     positions := positions st; selectedToken := t;
     effects := effects st |}.

Definition emit (e : Effect) (st : State) : State :=
  {| combatState := combatState st; setupCombatants := setupCombatants st;
     showAddCombatant := showAddCombatant st; isLoading := isLoading st;
     error := error st; activeTurnName := activeTurnName st;
     combatLog := combatLog st; logIdRef := logIdRef st;
     pendingNPCTurnsRef := pendingNPCTurnsRef st; gridSize := gridSize st;
     positions := positions st; selectedToken := selectedToken st;
     effects := effects st ++ [e] |}.

(** ** Battle map: moving a token ([moveCombatant]) *)

(** [x < 0 || x >= gridSize.width || y < 0 || y >= gridSize.height] *)
Definition outOfBounds (grid : GridSize) (tx ty : Z) : bool :=
  (tx <? 0) || (width grid <=? tx) || (ty <? 0) || (height grid <=? ty).

(** The collision loop over the entries of [positions]: some other name
    already stands on the target cell. *)
Definition occupiedByOther (positions : gmap string GridPosition)
    (nm : string) (tx ty : Z) : bool :=
  existsb
    (λ entry : string * GridPosition,
       negb (String.eqb (fst entry) nm)
       && (x (snd entry) =? tx) && (y (snd entry) =? ty))
    (map_to_list positions).

(** What the pending server request keeps for its [catch] handler. *)
Record PendingMove := {
  pm_name : string;
  prevPos : option GridPosition
}.

(** The synchronous part of [moveCombatant]: the two guards return early;
    otherwise the position is written at once and the request is sent. *)
Definition moveCombatant (nm : string) (tx ty : Z) (st : State)
    : State * option PendingMove :=
  if outOfBounds (gridSize st) tx ty then (st, None)
  else if occupiedByOther (positions st) nm tx ty then (st, None)
  else
    let prevPos := positions st !! nm in
    let st1 := setPositions (λ prev, <[nm := {| x := tx; y := ty |}]> prev) st in
    let st2 := setSelectedToken None st1 in
    (emit (Api (ReqMoveCombatant nm tx ty)) st2,
     Some {| pm_name := nm; prevPos := prevPos |}).

(** The [catch] handler of the request: put the saved position back, or
    drop the entry when there was none. *)
Definition revertMove (pm : PendingMove) (st : State) : State :=
  setPositions
    (λ prev,
       match prevPos pm with
       | Some p => <[pm_name pm := p]> prev
       | None => delete (pm_name pm) prev
       end) st.

Inductive MoveReply := MoveConfirmed | MoveRejected.

(** One move request from the click to the server's answer. *)
Definition moveRequest (nm : string) (tx ty : Z) (reply : MoveReply) (st : State) : State :=
  match moveCombatant nm tx ty st with
  | (st', None) => st'
  | (st', Some pm) =>
      match reply with
      | MoveConfirmed => st'
      | MoveRejected => revertMove pm st'
      end
  end.

(** ** Replies of the combat server *)

(** An awaited request resolves with a value or rejects; [message] is the
    text of the rejection when it is an [Error]. *)
Inductive Reply (A : Type) :=
| Resolved (a : A)
| Rejected (message : option string).
Arguments Resolved {A} a.
Arguments Rejected {A} message.

(** [err instanceof Error ? err.message : fallback] *)
Definition errorText (message : option string) (fallback : string) : string :=
  default fallback message.

(** A combatant as the server lists it in [initiative_order]. *)
Record WireCombatant := {
  w_name : string;
  w_initiative : Z;
  w_hp : Z;
  w_max_hp : Z;
  w_is_player : bool;
  w_is_npc : option bool;
  w_is_friendly : option bool;
  w_conditions : option (list string);
  w_x : option Z;
  w_y : option Z
}.

Record StartResult := {
  r_round : Z;
  r_initiative_order : list WireCombatant;
  r_current_turn : string;
  r_current_is_npc : bool;
  r_npc_turn_results : option (list NPCTurn)
}.

Record CombatStatus := {
  cs_active : bool;
  cs_round : Z;
  cs_current_name : string;
  cs_current_turn_type : string;
  cs_current_is_npc : bool;
  cs_initiative_order : list WireCombatant
}.

(** [CombatStatus | { active: false; message: string }] *)
Inductive StatusReply :=
| StatusNone (message : string)
| StatusOf (s : CombatStatus).

Record DamageResult := {
  d_current_hp : Z;
  d_combat_ended : option bool
}.

Record HealingResult := {
  h_current_hp : Z
}.

(** ** Log and chat helpers ([emitCombatMessage], [displayNPCTurn]) *)

(** [emitCombatMessage(type, content, round)]; [onNPCTurn] tells whether the
    caller of the hook passed the callback. *)
Definition emitCombatMessage (onNPCTurn : bool) (kind : CombatMessageType)
    (content : string) (round_no : option Z) (st : State) : State :=
  let newId := logIdRef st + 1 in
  let entry :=
    {| id := newId; type := LogSystem; npcName := None; dialogue := None;
       movement := None; action := None; target := None; result := None;
       message := Some content |} in
  let st1 := setLogIdRef newId st in
  let st2 := setCombatLog (λ prev, prev ++ [entry]) st1 in
  let st3 := emit (Appended entry) st2 in
  if onNPCTurn then emit (Notified (CombatMessage content kind round_no)) st3
  else st3.

(** [action?.action_name ? `${action.action_type} - ${action.action_name}`
     : action?.action_type || ''] *)
Definition actionDescOf (t : NPCTurn) : string :=
  match npc_action t with
  | None => ""
  | Some a =>
      match act a with
      | None => ""
      | Some d =>
          if truthy_string (action_name d)
          then action_type d +:+ " - " +:+ default "" (action_name d)
          else action_type d
      end
  end.

(** [hit ? `Hit! ${damage_dealt || 0} damage` : 'Miss'] when [hit] is defined. *)
Definition resultDescOf (t : NPCTurn) : string :=
  match npc_action t with
  | None => ""
  | Some a =>
      match hit a with
      | None => ""
      | Some true => "Hit! " +:+ pretty (or_zero (damage_dealt a)) +:+ " damage"
      | Some false => "Miss"
      end
  end.

(** [npcTurn.npc_action?.action?.f] *)
Definition actionField (f : NPCActionDetail → option string) (t : NPCTurn)
    : option string :=
  a ← npc_action t; d ← act a; f d.

(** The log entry [displayNPCTurn] builds for one turn result. *)
Definition npcLogEntry (newId : Z) (t : NPCTurn) : CombatLogEntry :=
  {| id := newId; type := LogNpc;
     npcName := Some (combatant_name t);
     dialogue := actionField combat_dialogue t;
     movement := None;
     action := Some (or_string (actionDescOf t) (narration t));
     target := actionField target_name t;
     result := Some (resultDescOf t);
     message := None |}.

Definition npcChatMessage (t : NPCTurn) : ChatMessage :=
  NpcMessage (or_string (narration t) "")
    {| nd_name := combatant_name t;
       nd_dialogue := actionField combat_dialogue t;
       nd_action := or_string (actionDescOf t) (narration t);
       nd_target := actionField target_name t;
       nd_result := resultDescOf t |}.

Definition displayNPCTurn (onNPCTurn : bool) (npcTurn : NPCTurn) (st : State) : State :=
  let newId := logIdRef st + 1 in
  let entry := npcLogEntry newId npcTurn in
  let st1 := setLogIdRef newId st in
  let st2 := setCombatLog (λ prev, prev ++ [entry]) st1 in
  let st3 := emit (Appended entry) st2 in
  if onNPCTurn then emit (Notified (npcChatMessage npcTurn)) st3 else st3.

(** ** Revealing a batch of AI turns ([slowRollNPCTurns]) *)

(** [initiativeOrder.findIndex(c => c.name === n)] with [-1] as [None]. *)
Definition findIndexByName (n : string) (l : list Combatant) : option nat :=
  fst <$> list_find (λ c, name c = n) l.

(** The combatant the status refresh of [slowRollNPCTurns] builds from a
    listed one. *)
Definition combatantOfStatus (c : WireCombatant) : Combatant :=
  {| name := w_name c; initiative := w_initiative c; initiative_bonus := None;
     hp := w_hp c; max_hp := w_max_hp c; ac := None;
     is_player := w_is_player c; is_npc := w_is_npc c; is_friendly := None;
     npc_id := None; player_id := None; player_name := None; pc_id := None;
     character_name := None;
     conditions := Some (default [] (w_conditions c));
     grid_x := None; grid_y := None |}.

(** The [try] block after each revealed turn: a rejected request and a reply
    without [initiative_order] change nothing. *)
Definition refreshStatus (reply : Reply StatusReply) (st : State) : State :=
  match reply with
  | Resolved (StatusOf status) =>
      let initiativeOrder := combatantOfStatus <$> cs_initiative_order status in
      let currentIdx := findIndexByName (cs_current_name status) initiativeOrder in
      setCombatState
        (λ _, Some {| round := cs_round status;
                      initiative_order := initiativeOrder;
                      current_turn_idx := default 0%nat currentIdx;
                      active := cs_active status;
                      current_turn_type := Some (cs_current_turn_type status);
                      current_is_npc := Some (cs_current_is_npc status) |}) st
  | Resolved (StatusNone _) => st
  | Rejected _ => st
  end.

(** The body of the [for] loop from index [i] on; [getStatus k] is the
    server's answer to the status request of iteration [k]. *)
Fixpoint slowRollFrom (onNPCTurn : bool) (getStatus : nat → Reply StatusReply)
    (i : nat) (npcTurns : list NPCTurn) (st : State) : State :=
  match npcTurns with
  | [] => st
  | npcTurn :: rest =>
      let st1 := setActiveTurnName (Some (combatant_name npcTurn)) st in
      let st2 := if (0 <? i)%nat then emit (Sleep NPC_TURN_DELAY) st1 else st1 in
      let st3 := displayNPCTurn onNPCTurn npcTurn st2 in
      let st4 := refreshStatus (getStatus i) (emit (Api ReqGetStatus) st3) in
      slowRollFrom onNPCTurn getStatus (S i) rest st4
  end.

Definition slowRollNPCTurns (onNPCTurn : bool) (getStatus : nat → Reply StatusReply)
    (npcTurns : list NPCTurn) (st : State) : State :=
  setActiveTurnName None (slowRollFrom onNPCTurn getStatus 0 npcTurns st).

(** ** Starting combat ([CombatSetup], [startCombat]) *)

(** [CombatSetup] renders the start button under
    [setupCombatants.length >= 2]; nothing else can call [onStartCombat]. *)
Definition startButtonShown (setupCombatants : list SetupCombatant) : bool :=
  bool_decide (2 ≤ length setupCombatants)%nat.

(** The three lists of the start request. *)
Definition startRequestOf (setupCombatants : list SetupCombatant) : StartRequest :=
  {| req_players := filter (λ c, s_is_player c = true) setupCombatants;
     req_npcs :=
       filter (λ c, s_is_npc c && truthy_string (s_npc_id c) = true)
              setupCombatants;
     req_monsters :=
       filter (λ c, negb (s_is_player c) && negb (s_is_npc c) = true)
              setupCombatants;
     auto_npc_turns := true |}.

(** The combatant [startCombat] builds from a listed one. *)
Definition combatantOfStart (c : WireCombatant) : Combatant :=
  {| name := w_name c; initiative := w_initiative c; initiative_bonus := None;
     hp := w_hp c; max_hp := w_max_hp c; ac := None;
     is_player := w_is_player c; is_npc := w_is_npc c;
     is_friendly := w_is_friendly c;
     npc_id := None; player_id := None; player_name := None; pc_id := None;
     character_name := None; conditions := Some [];
     grid_x := w_x c; grid_y := w_y c |}.

(** [if (c.x != null && c.y != null) backendPositions.set(c.name, ...)] over
    the listed combatants, in order. *)
Fixpoint backendPositionsFrom (l : list WireCombatant)
    (acc : gmap string GridPosition) : gmap string GridPosition :=
  match l with
  | [] => acc
  | c :: rest =>
      match w_x c, w_y c with
      | Some cx, Some cy =>
          backendPositionsFrom rest (<[w_name c := {| x := cx; y := cy |}]> acc)
      | _, _ => backendPositionsFrom rest acc
      end
  end.

Definition hasBackendPositions (l : list WireCombatant) : bool :=
  existsb (λ c, bool_decide (is_Some (w_x c)) && bool_decide (is_Some (w_y c))) l.

Definition startCombat (onNPCTurn : bool) (reply : Reply StartResult) (st : State)
    : State :=
  let st1 := setCombatLog (λ _, []) (setError None (setIsLoading true st)) in
  let st2 := emit (Api (ReqStart (startRequestOf (setupCombatants st)))) st1 in
  let st3 :=
    match reply with
    | Resolved res =>
        let initiativeOrder := combatantOfStart <$> r_initiative_order res in
        let currentIdx := findIndexByName (r_current_turn res) initiativeOrder in
        let sa :=
          setCombatState
            (λ _, Some {| round := r_round res;
                          initiative_order := initiativeOrder;
                          current_turn_idx := default 0%nat currentIdx;
                          active := true;
                          current_turn_type := None;
                          current_is_npc := Some (r_current_is_npc res) |}) st2 in
        let sb :=
          setPositions
            (λ _, if hasBackendPositions (r_initiative_order res)
                  then backendPositionsFrom (r_initiative_order res) ∅
                  else autoPlaceCombatants initiativeOrder (gridSize st)) sa in
        let sc := setSelectedToken None sb in
        let sd :=
          emitCombatMessage onNPCTurn round_start
            ("Combat begins! Round " +:+ pretty (r_round res))
            (Some (r_round res)) sc in
        match r_npc_turn_results res with
        | Some (t :: ts) => setPendingNPCTurnsRef (Some (t :: ts)) sd
        | _ => sd
        end
    | Rejected msg =>
        setError (Some (errorText msg "Failed to start combat")) st2
    end in
  match pendingNPCTurnsRef st3 with
  | None => setIsLoading false st3
  | Some _ => st3
  end.

(** A click on the start button: there is a button to click only when
    [CombatSetup] shows it. *)
Definition clickStartCombat (onNPCTurn : bool) (reply : Reply StartResult)
    (st : State) : option State :=
  if startButtonShown (setupCombatants st)
  then Some (startCombat onNPCTurn reply st)
  else None.

(** ** Damage and healing through the server ([applyDamage], [applyHealing]) *)

Definition set_hp (v : Z) (c : Combatant) : Combatant :=
  {| name := name c; initiative := initiative c;
     initiative_bonus := initiative_bonus c; hp := v; max_hp := max_hp c;
     ac := ac c; is_player := is_player c; is_npc := is_npc c;
     is_friendly := is_friendly c; npc_id := npc_id c;
     player_id := player_id c; player_name := player_name c;
     pc_id := pc_id c; character_name := character_name c;
     conditions := conditions c; grid_x := grid_x c; grid_y := grid_y c |}.

Definition set_initiative_order (l : list Combatant) (s : CombatState) : CombatState :=
  {| round := round s; initiative_order := l;
     current_turn_idx := current_turn_idx s; active := active s;
     current_turn_type := current_turn_type s;
     current_is_npc := current_is_npc s |}.

(** [prev.initiative_order.map(c => c.name === targetName
      ? { ...c, hp: current_hp } : c)] inside [{ ...prev, initiative_order }],
    with [if (!prev) return prev]. *)
Definition withTargetHp (targetName : string) (current_hp : Z)
    (prev : option CombatState) : option CombatState :=
  match prev with
  | None => None
  | Some s =>
      Some (set_initiative_order
              ((λ c, if String.eqb (name c) targetName
                     then set_hp current_hp c else c) <$> initiative_order s) s)
  end.

Definition applyDamage (targetName : string) (damage : Z)
    (reply : Reply DamageResult) (st : State) : State :=
  match combatState st with
  | None => st
  | Some _ =>
      let st1 := emit (Api (ReqApplyDamage targetName damage)) st in
      match reply with
      | Resolved res =>
          let st2 := setCombatState (withTargetHp targetName (d_current_hp res)) st1 in
          if truthy (d_combat_ended res)
          then setSetupCombatants (λ _, []) (setCombatState (λ _, None) st2)
          else st2
      | Rejected msg =>
          setError (Some (errorText msg "Failed to apply damage")) st1
      end
  end.

Definition applyHealing (targetName : string) (healing : Z)
    (reply : Reply HealingResult) (st : State) : State :=
  match combatState st with
  | None => st
  | Some _ =>
      let st1 := emit (Api (ReqApplyHealing targetName healing)) st in
      match reply with
      | Resolved res =>
          setCombatState (withTargetHp targetName (h_current_hp res)) st1
      | Rejected msg =>
          setError (Some (errorText msg "Failed to apply healing")) st1
      end
  end.

(** ** The stand-alone [CombatTracker] component

    The revision of [CombatTracker.tsx] that keeps the whole encounter in the
    browser: initiative is rolled and sorted locally and hit points are
    changed by index. *)
Module Legacy.

Record TrackerState := {
  t_combatState : option CombatState;
  t_combatants : list Combatant;
  t_showAddCombatant : bool
}.

Definition set_initiative (v : Z) (c : Combatant) : Combatant :=
  {| name := name c; initiative := v;
     initiative_bonus := initiative_bonus c; hp := hp c; max_hp := max_hp c;
     ac := ac c; is_player := is_player c; is_npc := is_npc c;
     is_friendly := is_friendly c; npc_id := npc_id c;
     player_id := player_id c; player_name := player_name c;
     pc_id := pc_id c; character_name := character_name c;
     conditions := conditions c; grid_x := grid_x c; grid_y := grid_y c |}.

(** [Array.prototype.sort(compare)].  The sort is stable (ECMAScript 2019)
    and [compare] is a total preorder here, which fixes the result: an
    element is placed before the first element it does not compare
    greater than, so elements that compare equal keep their order. *)
Section sort.
Context {A : Type} (compare : A → A → Z).

Fixpoint insertSorted (a : A) (l : list A) : list A :=
  match l with
  | [] => [a]
  | b :: rest =>
      if compare a b <=? 0 then a :: b :: rest
      else b :: insertSorted a rest
  end.

Definition sort (l : list A) : list A := foldr insertSorted [] l.
End sort.

(** [(a, b) => b.initiative - a.initiative] *)
Definition byInitiativeDesc (a b : Combatant) : Z := initiative b - initiative a.

(** [random20 i] is [Math.floor(Math.random() * 20)] of the [i]-th call, a
    number from 0 to 19. *)
Definition withInitiative (random20 : nat → Z) (combatants : list Combatant)
    : list Combatant :=
  imap (λ i c, set_initiative (random20 i + 1 + or_zero (initiative_bonus c)) c)
       combatants.

Definition rollInitiative (random20 : nat → Z) (st : TrackerState) : TrackerState :=
  let sorted := sort byInitiativeDesc (withInitiative random20 (t_combatants st)) in
  {| t_combatState :=
       Some {| round := 1; initiative_order := sorted; current_turn_idx := 0;
               active := true; current_turn_type := None;
               current_is_npc := None |};
     t_combatants := t_combatants st;
     t_showAddCombatant := t_showAddCombatant st |}.

(** The start button is rendered under [combatants.length >= 2]. *)
Definition startButtonShown (combatants : list Combatant) : bool :=
  bool_decide (2 ≤ length combatants)%nat.

Definition clickRollInitiative (random20 : nat → Z) (st : TrackerState)
    : option TrackerState :=
  if startButtonShown (t_combatants st)
  then Some (rollInitiative random20 st)
  else None.

Definition set_combatState (cs : option CombatState) (st : TrackerState) : TrackerState :=
  {| t_combatState := cs; t_combatants := t_combatants st;
     t_showAddCombatant := t_showAddCombatant st |}.

(** [updated[index] = { ...updated[index], hp: f(updated[index]) }]; reading
    [hp] of a missing element throws, which is [None]. *)
Definition updateHpAt (f : Combatant → Z) (index : nat) (st : TrackerState)
    : option TrackerState :=
  match t_combatState st with
  | None => Some st
  | Some cs =>
      match initiative_order cs !! index with
      | None => None
      | Some c =>
          Some (set_combatState
                  (Some (set_initiative_order
                           (<[index := set_hp (f c) c]> (initiative_order cs)) cs))
                  st)
      end
  end.

(** [hp: Math.max(0, updated[index].hp - damage)] *)
Definition damagedHp (damage : Z) (c : Combatant) : Z := Z.max 0 (hp c - damage).

(** [hp: Math.min(updated[index].max_hp, updated[index].hp + healing)] *)
Definition healedHp (healing : Z) (c : Combatant) : Z :=
  Z.min (max_hp c) (hp c + healing).

Definition applyDamage (index : nat) (damage : Z) (st : TrackerState)
    : option TrackerState :=
  updateHpAt (damagedHp damage) index st.

Definition applyHealing (index : nat) (healing : Z) (st : TrackerState)
    : option TrackerState :=
  updateHpAt (healedHp healing) index st.

(** [handleDamage] and [handleHeal] of the combatant card pass an amount on
    only when it is positive. *)
Definition handleDamage (index : nat) (dmg : Z) (st : TrackerState)
    : option TrackerState :=
  if 0 <? dmg then applyDamage index dmg st else Some st.

Definition handleHeal (index : nat) (heal : Z) (st : TrackerState)
    : option TrackerState :=
  if 0 <? heal then applyHealing index heal st else Some st.

End Legacy.

(** ** The combat engine behind the API

    The engine itself (combatant registry, initiative roller, turn resolver)
    runs on the server; the repository's front end only talks to it. *)
Module Engine.

(** Modelled from the spec: the [team] of a combatant (data model, 3). *)
Inductive Team := player | hostile | friendly_npc | dm_monster.

(** Modelled from the spec: the attributes of a combatant in the registry
    (data model, 3); the registry maps the combatant's [id] to them. *)
Record EngineCombatant := {
  display_name : string;
  team : Team;
  hit_points : Z;
  max_hit_points : Z;
  armor_class : Z;
  e_initiative_bonus : Z;
  initiative_score : Z;
  position : option GridPosition;
  e_conditions : gset string
}.

(** Modelled from the spec: [is_incapacitated] is derived, true iff
    [hit_points == 0]. *)
Definition is_incapacitated (c : EngineCombatant) : bool := hit_points c =? 0.

Definition set_hit_points (v : Z) (c : EngineCombatant) : EngineCombatant :=
  {| display_name := display_name c; team := team c; hit_points := v;
     max_hit_points := max_hit_points c; armor_class := armor_class c;
     e_initiative_bonus := e_initiative_bonus c;
     initiative_score := initiative_score c; position := position c;
     e_conditions := e_conditions c |}.

(** Modelled from the spec: [NotFound], the error for an unknown combatant
    id (error taxonomy, 7). *)
Inductive EngineError := NotFound.

(** Modelled from the spec: [update_hit_points(id, delta)] of the combatant
    registry (4.3), which is server code outside the front end.  The new
    value is the old one plus [delta] clamped to [[0, max_hit_points]]; the
    result carries the new value and [became_incapacitated], the flag of a
    nonzero-to-zero transition; an unknown id is [NotFound]. *)
Definition update_hit_points (target_id : string) (delta : Z)
    (registry : gmap string EngineCombatant)
    : EngineError + (gmap string EngineCombatant * Z * bool) :=
  match registry !! target_id with
  | None => inl NotFound
  | Some c =>
      let v := Z.max 0 (Z.min (max_hit_points c) (hit_points c + delta)) in
      let became_incapacitated := negb (hit_points c =? 0) && (v =? 0) in
      inr (<[target_id := set_hit_points v c]> registry, v, became_incapacitated)
  end.

(** The NPC turn resolver (4.5) over the operations of the session, which
    are those of the engine: [resolve_one] gives the result of the current
    turn and the session with its effects applied, [advance] moves to the
    next turn, [current_is_ai] and [is_active] read the session. *)
Section resolver.
Context {Session TurnResult : Type}.
Variable resolve_one : Session → TurnResult * Session.
Variable advance : Session → Session.
Variable current_is_ai : Session → bool.
Variable is_active : Session → bool.

(** Modelled from the spec: one pass of the loop, [resolve_one] followed by
    [advance()]. *)
Definition turn_step (s : Session) : Session := advance (snd (resolve_one s)).

(** Modelled from the spec: the condition of the loop, "the new
    [current_turn()] is still AI-controlled and the session remains
    active". *)
Definition keeps_going (s : Session) : bool := is_active s && current_is_ai s.

(** Modelled from the spec: [resolve_until_player_or_end(session)], which is
    server code outside the front end.  It calls [resolve_one] and
    [advance()] and goes on as long as the new current turn is AI-controlled
    and the session is active, collecting the turn results in order.
    [fuel] bounds the number of turns resolved. *)
Fixpoint resolve_until_player_or_end (fuel : nat) (s : Session)
    : list TurnResult * Session :=
  match fuel with
  | O => ([], s)
  | S fuel' =>
      let r := fst (resolve_one s) in
      let s' := turn_step s in
      if keeps_going s'
      then let rest := resolve_until_player_or_end fuel' s' in
           (r :: fst rest, snd rest)
      else ([r], s')
  end.
End resolver.

End Engine.


(** * Vocabulary of the properties *)

(** ** Battle map *)

Definition inBounds (grid : GridSize) (p : GridPosition) : Prop :=
  0 ≤ x p < width grid ∧ 0 ≤ y p < height grid.

(** No two names on one cell. *)
Definition cellsExclusive (m : gmap string GridPosition) : Prop :=
  ∀ n1 n2 p, m !! n1 = Some p → m !! n2 = Some p → n1 = n2.

Definition positionsValid (grid : GridSize) (m : gmap string GridPosition) : Prop :=
  (∀ n p, m !! n = Some p → inBounds grid p) ∧ cellsExclusive m.

(** The side of the roster a combatant is placed with. *)
Definition sideOf (roster : list Combatant) (c : Combatant) : list Combatant :=
  if playerSideOf c
  then filter (λ c, playerSideOf c = true) roster
  else filter (λ c, enemySideOf c = true) roster.

Definition columnOf (grid : GridSize) (c : Combatant) : Z :=
  if playerSideOf c then playerCol else enemyCol grid.

(** A group stands vertically centred in the grid: its members fill
    consecutive rows from [top] on, in order, and the free rows above and
    below the group differ by at most one. *)
Definition groupCentred (grid : GridSize) (m : gmap string GridPosition)
    (group : list Combatant) : Prop :=
  ∃ top : Z,
    (∀ (k : nat) c, group !! k = Some c →
       ∃ p, m !! name c = Some p ∧ y p = top + Z.of_nat k)
    ∧ 0 ≤ top
    ∧ top ≤ height grid - (top + Z.of_nat (length group)) ≤ top + 1.

(** ** Initiative *)

(** [a] may stand before [b] under the comparison function of a sort. *)
Definition inOrder {A : Type} (compare : A → A → Z) (a b : A) : Prop :=
  compare a b ≤ 0.

Definition orderOf (st : Legacy.TrackerState) : list Combatant :=
  from_option initiative_order [] (Legacy.t_combatState st).

(** The order the specification's tie-break asks for: higher score first,
    and among equal scores the higher bonus first. *)
Definition specBefore (a b : Combatant) : Prop :=
  initiative b < initiative a
  ∨ (initiative a = initiative b
     ∧ or_zero (initiative_bonus b) ≤ or_zero (initiative_bonus a)).

(** ** Hit points *)

Definition clampHp (c : Combatant) (delta : Z) : Z :=
  Z.max 0 (Z.min (max_hp c) (hp c + delta)).

Definition hpInRange (c : Combatant) : Prop := 0 ≤ hp c ≤ max_hp c.

Definition trackerHpInRange (st : Legacy.TrackerState) : Prop :=
  ∀ cs, Legacy.t_combatState st = Some cs → Forall hpInRange (initiative_order cs).

(** [c'] is [c] with possibly another [hp]. *)
Definition sameButHp (c c' : Combatant) : Prop :=
  name c' = name c ∧ initiative c' = initiative c
  ∧ initiative_bonus c' = initiative_bonus c ∧ max_hp c' = max_hp c
  ∧ ac c' = ac c ∧ is_player c' = is_player c ∧ is_npc c' = is_npc c
  ∧ is_friendly c' = is_friendly c ∧ npc_id c' = npc_id c
  ∧ player_id c' = player_id c ∧ player_name c' = player_name c
  ∧ pc_id c' = pc_id c ∧ character_name c' = character_name c
  ∧ conditions c' = conditions c
  ∧ grid_x c' = grid_x c ∧ grid_y c' = grid_y c.

(** [cs'] is [cs] with the hit points of the combatants called [targetName]
    set to [v] and nothing else changed. *)
Definition onlyTargetHp (targetName : string) (v : Z) (cs cs' : CombatState) : Prop :=
  round cs' = round cs
  ∧ current_turn_idx cs' = current_turn_idx cs
  ∧ active cs' = active cs
  ∧ current_turn_type cs' = current_turn_type cs
  ∧ current_is_npc cs' = current_is_npc cs
  ∧ length (initiative_order cs') = length (initiative_order cs)
  ∧ ∀ i c, initiative_order cs !! i = Some c →
      ∃ c', initiative_order cs' !! i = Some c'
            ∧ (name c ≠ targetName → c' = c)
            ∧ (name c = targetName → hp c' = v ∧ sameButHp c c').

(** Everything the hook owns besides the combat state, the roster of the
    set-up phase, the error text and the record of requests. *)
Definition sameElsewhere (st st' : State) : Prop :=
  positions st' = positions st ∧ gridSize st' = gridSize st
  ∧ selectedToken st' = selectedToken st ∧ combatLog st' = combatLog st
  ∧ logIdRef st' = logIdRef st ∧ activeTurnName st' = activeTurnName st
  ∧ isLoading st' = isLoading st
  ∧ showAddCombatant st' = showAddCombatant st
  ∧ pendingNPCTurnsRef st' = pendingNPCTurnsRef st.

(** ** Revealing a batch *)

(** What one iteration of the loop of [slowRollNPCTurns] does, in order;
    [first] tells whether it is the iteration of index 0. *)
Definition revealEffects (onNPCTurn first : bool) (newId : Z) (t : NPCTurn)
    : list Effect :=
  (if first then [] else [Sleep NPC_TURN_DELAY])
  ++ [Appended (npcLogEntry newId t)]
  ++ (if onNPCTurn then [Notified (npcChatMessage t)] else [])
  ++ [Api ReqGetStatus].

(** The entries a batch adds to a log whose last identifier is [lastId]. *)
Definition batchEntries (lastId : Z) (npcTurns : list NPCTurn) : list CombatLogEntry :=
  imap (λ k t, npcLogEntry (lastId + 1 + Z.of_nat k) t) npcTurns.

Definition batchEffects (onNPCTurn : bool) (i : nat) (lastId : Z)
    (npcTurns : list NPCTurn) : list Effect :=
  mjoin (imap (λ k t, revealEffects onNPCTurn (bool_decide (i + k = 0)%nat)
                        (lastId + 1 + Z.of_nat k) t) npcTurns).

(** The waits and the log entries among the effects. *)
Definition isPacing (e : Effect) : bool :=
  match e with
  | Sleep _ | Appended _ => true
  | Api _ | Notified _ => false
  end.

Definition isSleep (e : Effect) : bool :=
  match e with
  | Sleep _ => true
  | _ => false
  end.

(** [d] between any two consecutive elements of [l], and nowhere else. *)
Definition paced (d : Effect) (l : list Effect) : list Effect :=
  match l with
  | [] => []
  | e :: rest => e :: (rest ≫= λ e', [d; e'])
  end.

(** * Sample encounters *)

Definition sampleCombatant (nm : string) (isPlayer : bool) (friendly : option bool)
    : Combatant :=
  {| name := nm; initiative := 0; initiative_bonus := None; hp := 10; max_hp := 10;
     ac := None; is_player := isPlayer; is_npc := None; is_friendly := friendly;
     npc_id := None; player_id := None; player_name := None; pc_id := None;
     character_name := None; conditions := Some []; grid_x := None; grid_y := None |}.

(** A player character, a friendly NPC and two goblins. *)
Definition skirmish : list Combatant :=
  [ sampleCombatant "Aria" true None; sampleCombatant "Goblin 1" false None;
    sampleCombatant "Bran" false (Some true); sampleCombatant "Goblin 2" false None ].

(** Seventeen player characters, more than the fifteen rows of the grid. *)
Definition crowd : list Combatant :=
  (λ i : nat, sampleCombatant ("PC " +:+ pretty i) true None) <$> seq 1 17.

(** Two tokens on the default grid. *)
Definition twoTokens : State :=
  setPositions
    (λ _, <["Aria" := {| x := 3; y := 7 |}]>
            (<["Goblin" := {| x := 16; y := 7 |}]> ∅))
    initialState.

(** Two player characters of which the second has the higher bonus. *)
Definition tiedPair : Legacy.TrackerState :=
  {| Legacy.t_combatState := None;
     Legacy.t_combatants :=
       [ sampleCombatant "Aria" true None;
         {| name := "Bran"; initiative := 0; initiative_bonus := Some 2;
            hp := 12; max_hp := 12; ac := None; is_player := true;
            is_npc := None; is_friendly := None; npc_id := None;
            player_id := None; player_name := None; pc_id := None;
            character_name := None; conditions := Some [];
            grid_x := None; grid_y := None |} ];
     Legacy.t_showAddCombatant := false |}.

(** [Math.random] makes Aria roll 12 and Bran roll 10. *)
Definition tiedRolls (i : nat) : Z := if (i =? 0)%nat then 11 else 9.

(** Two player characters and nobody else. *)
Definition partyOnly : Legacy.TrackerState :=
  {| Legacy.t_combatState := None;
     Legacy.t_combatants :=
       [sampleCombatant "Aria" true None; sampleCombatant "Bran" true None];
     Legacy.t_showAddCombatant := false |}.

Definition goblin : Engine.EngineCombatant :=
  {| Engine.display_name := "Goblin1"; Engine.team := Engine.hostile;
     Engine.hit_points := 10; Engine.max_hit_points := 10;
     Engine.armor_class := 13; Engine.e_initiative_bonus := 0;
     Engine.initiative_score := 10; Engine.position := None;
     Engine.e_conditions := ∅ |}.

(** A start result that lists no coordinates. *)
Definition plainStart : StartResult :=
  {| r_round := 1;
     r_initiative_order :=
       [ {| w_name := "Aria"; w_initiative := 17; w_hp := 20; w_max_hp := 20;
            w_is_player := true; w_is_npc := Some false;
            w_is_friendly := None; w_conditions := None;
            w_x := None; w_y := None |};
         {| w_name := "Goblin"; w_initiative := 9; w_hp := 7; w_max_hp := 7;
            w_is_player := false; w_is_npc := Some true;
            w_is_friendly := None; w_conditions := None;
            w_x := None; w_y := None |} ];
     r_current_turn := "Aria"; r_current_is_npc := false;
     r_npc_turn_results := None |}.

(** A combat under way on the default grid. *)
Definition skirmishState : CombatState :=
  {| round := 2; initiative_order := skirmish; current_turn_idx := 1;
     active := true; current_turn_type := Some "monster";
     current_is_npc := Some false |}.

Definition inCombat : State :=
  setCombatState (λ _, Some skirmishState)
    (setPositions (λ _, autoPlaceCombatants skirmish DEFAULT_GRID) initialState).

(** Two turn results: a hit for 7 and a turn without action detail. *)
Definition goblinHits : NPCTurn :=
  {| combatant_name := "Goblin 1"; narration := "Goblin 1 slashes at Aria.";
     npc_action :=
       Some {| act := Some {| action_type := "attack";
                              action_name := Some "Scimitar";
                              target_name := Some "Aria";
                              combat_dialogue := Some "Mine!" |};
               hit := Some true; damage_dealt := Some 7 |} |}.

Definition goblinHolds : NPCTurn :=
  {| combatant_name := "Goblin 2"; narration := "Goblin 2 holds its ground.";
     npc_action := None |}.

(** The roster of the specification's scenario: a player with bonus +2 and
    two goblins with bonus 0, rolling 15, 10 and 10. *)
Definition scenarioRoster : Legacy.TrackerState :=
  {| Legacy.t_combatState := None;
     Legacy.t_combatants :=
       [ {| name := "A"; initiative := 0; initiative_bonus := Some 2;
            hp := 20; max_hp := 20; ac := None; is_player := true;
            is_npc := None; is_friendly := None; npc_id := None;
            player_id := None; player_name := None; pc_id := None;
            character_name := None; conditions := Some [];
            grid_x := None; grid_y := None |};
         sampleCombatant "Goblin1" false None;
         sampleCombatant "Goblin2" false None ];
     Legacy.t_showAddCombatant := false |}.

Definition scenarioRolls (i : nat) : Z := if (i =? 0)%nat then 14 else 9.


(** * The rest of the hook and of the components around it *)

(** ** The set-up roster ([addFromPlayers], [addCombatant], [removeCombatant]) *)

(** [PC] and [Player] of [types.ts], with the fields the hook reads. *)
Record PC := {
  pc_ident : string;
  pc_name : string;
  pc_hp : option Z;
  pc_max_hp : option Z;
  pc_initiative_bonus : option Z
}.

Record Player := {
  p_id : string;
  p_name : string;
  active_pc : option PC
}.

(** [n || d] on an optional number: missing and 0 both give [d]. *)
Definition or_number (n : option Z) (d : Z) : Z :=
  match n with
  | Some v => if v =? 0 then d else v
  | None => d
  end.

Definition setShowAddCombatant (b : bool) (st : State) : State :=
  {| combatState := combatState st; setupCombatants := setupCombatants st;
     showAddCombatant := b; isLoading := isLoading st;
     error := error st; activeTurnName := activeTurnName st;
     combatLog := combatLog st; logIdRef := logIdRef st;
     pendingNPCTurnsRef := pendingNPCTurnsRef st; gridSize := gridSize st;
     positions := positions st; selectedToken := selectedToken st;
     effects := effects st |}.

(** The set-up entry [addFromPlayers] builds for a player's active
    character. *)
Definition playerCombatantOf (p : Player) (pc : PC) : SetupCombatant :=
  {| s_name := pc_name pc;
     s_initiative_bonus := or_number (pc_initiative_bonus pc) 0;
     s_hp := or_number (pc_hp pc) 10;
     s_max_hp := or_number (pc_max_hp pc) 10;
     s_ac := 15;
     s_is_player := true;
     s_is_npc := false;
     s_is_friendly := None;
     s_npc_id := None;
     s_player_id := Some (p_id p);
     s_player_name := Some (p_name p);
     s_pc_id := Some (pc_ident pc) |}.

(** [players.filter(p => p.active_pc).map(p => ...)] appended to the roster. *)
Definition addFromPlayers (players : list Player) (st : State) : State :=
  setSetupCombatants
    (λ prev, prev ++ omap (λ p, playerCombatantOf p <$> active_pc p) players) st.

Definition addCombatant (combatant : SetupCombatant) (st : State) : State :=
  setShowAddCombatant false (setSetupCombatants (λ prev, prev ++ [combatant]) st).

(** [l.filter((_, i) => keep(i))], [i] being the index of the next element. *)
Fixpoint filterIndexFrom {A : Type} (keep : nat → bool) (i : nat) (l : list A)
    : list A :=
  match l with
  | [] => []
  | a :: rest =>
      if keep i then a :: filterIndexFrom keep (S i) rest
      else filterIndexFrom keep (S i) rest
  end.

(** [prev.filter((_, i) => i !== index)] *)
Definition removeCombatant (index : nat) (st : State) : State :=
  setSetupCombatants
    (λ prev, filterIndexFrom (λ i, negb (i =? index)%nat) 0 prev) st.

(** ** The form of [AddCombatantPanel] ([handleSubmit]) *)

Record AddForm := {
  f_trimmedName : string;
  f_hp : Z;
  f_ac : Z;
  f_initiativeBonus : Z;
  f_count : Z;
  f_selectedNPC : option string;
  f_isFriendly : bool
}.

(** The combatant passed to [onAdd] in iteration [i] of the loop;
    [f_trimmedName] is [name.trim()] and [f_selectedNPC] the [entity_id] of
    the selected NPC. *)
Definition submittedCombatant (f : AddForm) (i : nat) : SetupCombatant :=
  let suffix := if 1 <? f_count f then " " +:+ pretty (Z.of_nat i + 1) else "" in
  {| s_name := f_trimmedName f +:+ suffix;
     s_initiative_bonus := f_initiativeBonus f;
     s_hp := f_hp f;
     s_max_hp := f_hp f;
     s_ac := f_ac f;
     s_is_player := false;
     s_is_npc := bool_decide (is_Some (f_selectedNPC f));
     s_is_friendly :=
       match f_selectedNPC f with
       | Some _ => Some (f_isFriendly f)
       | None => None
       end;
     s_npc_id := f_selectedNPC f;
     s_player_id := None;
     s_player_name := None;
     s_pc_id := None |}.

(** The calls of [onAdd] made by [handleSubmit], in order: none when the
    trimmed name is empty, else one per [i] from 0 to [count - 1]. *)
Definition handleSubmit (f : AddForm) : list SetupCombatant :=
  if String.eqb (f_trimmedName f) "" then []
  else submittedCombatant f <$> seq 0 (Z.to_nat (f_count f)).

(** [handleSubmit] in the set-up phase, where [onAdd] is [addCombatant]. *)
Definition submitToSetup (f : AddForm) (st : State) : State :=
  foldl (λ s c, addCombatant c s) st (handleSubmit f).

(** ** Ending combat ([endCombat]) *)

(** The fields of the end summary the hook reads: the number of rounds and
    the names of the survivors. *)
Record EndSummary := {
  sum_rounds : Z;
  sum_survivors : list string
}.

(** [`Combat ended after ${summary.rounds} rounds. Survivors:
     ${survivorNames || 'None'}`] with [survivorNames] the names joined by
    [', ']. *)
Definition endMessage (summary : EndSummary) : string :=
  "Combat ended after " +:+ pretty (sum_rounds summary)
  +:+ " rounds. Survivors: "
  +:+ or_string (String.concat ", " (sum_survivors summary)) "None".

(** The requests of the handlers of this part are not listed in [effects];
    their replies are arguments. *)
Definition endCombat (onNPCTurn : bool) (reply : Reply EndSummary) (st : State)
    : State :=
  let st1 := setIsLoading true st in
  let st2 :=
    match reply with
    | Resolved summary =>
        emitCombatMessage onNPCTurn combat_end (endMessage summary) None st1
    | Rejected _ =>
        emitCombatMessage onNPCTurn combat_end "Combat ended" None st1
    end in
  setIsLoading false
    (setSelectedToken None
       (setPositions (λ _, ∅)
          (setSetupCombatants (λ _, []) (setCombatState (λ _, None) st2)))).

(** ** Adding and removing combatants during combat *)

(** The combatant the status refresh of [addCombatantMidCombat] and
    [removeCombatantMidCombat] builds from a listed one. *)
Definition combatantOfRoster (c : WireCombatant) : Combatant :=
  {| name := w_name c; initiative := w_initiative c; initiative_bonus := None;
     hp := w_hp c; max_hp := w_max_hp c; ac := None;
     is_player := w_is_player c; is_npc := w_is_npc c;
     is_friendly := w_is_friendly c;
     npc_id := None; player_id := None; player_name := None; pc_id := None;
     character_name := None;
     conditions := Some (default [] (w_conditions c));
     grid_x := None; grid_y := None |}.

(** [if ('initiative_order' in status) { ... setCombatState(...) }] after an
    awaited status request that resolved. *)
Definition refreshRoster (status : StatusReply) (st : State) : State :=
  match status with
  | StatusOf s =>
      let initiativeOrder := combatantOfRoster <$> cs_initiative_order s in
      let currentIdx := findIndexByName (cs_current_name s) initiativeOrder in
      setCombatState
        (λ _, Some {| round := cs_round s;
                      initiative_order := initiativeOrder;
                      current_turn_idx := default 0%nat currentIdx;
                      active := cs_active s;
                      current_turn_type := Some (cs_current_turn_type s);
                      current_is_npc := Some (cs_current_is_npc s) |}) st
  | StatusNone _ => st
  end.

Definition removeCombatantMidCombat (nm : string) (removeReply : Reply unit)
    (statusReply : Reply StatusReply) (st : State) : State :=
  match combatState st with
  | None => st
  | Some _ =>
      match removeReply with
      | Rejected msg =>
          setError (Some (errorText msg "Failed to remove combatant")) st
      | Resolved _ =>
          let st1 := setPositions (λ prev, delete nm prev) st in
          match statusReply with
          | Rejected msg =>
              setError (Some (errorText msg "Failed to remove combatant")) st1
          | Resolved status => refreshRoster status st1
          end
      end
  end.

(** The answer of the server to [addMidCombat], with the fields the hook
    reads. *)
Record AddResult := {
  a_name : string;
  a_x : option Z;
  a_y : option Z
}.

(** The position written after a combatant was added: the one of the
    server's answer when it has both coordinates, else the requested one,
    else none. *)
Definition placeAdded (result : AddResult) (combatant : SetupCombatant)
    (cx cy : option Z) (prev : gmap string GridPosition)
    : gmap string GridPosition :=
  match a_x result, a_y result with
  | Some rx, Some ry => <[a_name result := {| x := rx; y := ry |}]> prev
  | _, _ =>
      match cx, cy with
      | Some qx, Some qy => <[s_name combatant := {| x := qx; y := qy |}]> prev
      | _, _ => prev
      end
  end.

(** [combatant] with the optional cell [cx], [cy] is the argument of the
    handler. *)
Definition addCombatantMidCombat (combatant : SetupCombatant) (cx cy : option Z)
    (addReply : Reply AddResult) (statusReply : Reply StatusReply) (st : State)
    : State :=
  match combatState st with
  | None => st
  | Some _ =>
      match addReply with
      | Rejected msg =>
          setError (Some (errorText msg "Failed to add combatant")) st
      | Resolved result =>
          match statusReply with
          | Rejected msg =>
              setError (Some (errorText msg "Failed to add combatant")) st
          | Resolved status =>
              setShowAddCombatant false
                (setPositions (placeAdded result combatant cx cy)
                   (refreshRoster status st))
          end
      end
  end.

(** ** Advancing the turn ([nextTurn]) *)

(** The answer of the server to [endTurn], with the fields the hook reads. *)
Record TurnResult := {
  tr_combat_active : bool;
  tr_combat_ended_reason : option string;
  tr_npc_turn_results : option (list NPCTurn)
}.

(** The combatant [nextTurn] builds from a listed one. *)
Definition combatantOfTurn (c : WireCombatant) : Combatant :=
  {| name := w_name c; initiative := w_initiative c; initiative_bonus := None;
     hp := w_hp c; max_hp := w_max_hp c; ac := None;
     is_player := w_is_player c; is_npc := None; is_friendly := None;
     npc_id := None; player_id := None; player_name := None; pc_id := None;
     character_name := None;
     conditions := Some (default [] (w_conditions c));
     grid_x := None; grid_y := None |}.

(** ['active' in status && status.active === false] *)
Definition statusInactive (status : StatusReply) : bool :=
  match status with
  | StatusNone _ => true
  | StatusOf s => negb (cs_active s)
  end.

(** The part of [nextTurn] that follows the two awaited requests, for a
    status that is not inactive; [previousRound] is [combatState.round] at
    the time of the call. *)
Definition afterTurn (onNPCTurn : bool) (getStatus : nat → Reply StatusReply)
    (previousRound : Z) (res : TurnResult) (status : StatusReply) (st : State)
    : State :=
  let sa :=
    match status with
    | StatusOf s =>
        let initiativeOrder := combatantOfTurn <$> cs_initiative_order s in
        let currentIdx := findIndexByName (cs_current_name s) initiativeOrder in
        setCombatState
          (λ _, Some {| round := cs_round s;
                        initiative_order := initiativeOrder;
                        current_turn_idx := default 0%nat currentIdx;
                        active := cs_active s;
                        current_turn_type := Some (cs_current_turn_type s);
                        current_is_npc := Some (cs_current_is_npc s) |}) st
    | StatusNone _ => st
    end in
  let sb :=
    match tr_npc_turn_results res with
    | Some (t :: ts) => slowRollNPCTurns onNPCTurn getStatus (t :: ts) sa
    | _ => sa
    end in
  let sc :=
    match status with
    | StatusOf s =>
        if or_number (Some previousRound) 1 <? cs_round s
        then emitCombatMessage onNPCTurn round_start
               ("Round " +:+ pretty (cs_round s)) (Some (cs_round s)) sb
        else sb
    | StatusNone _ => sb
    end in
  if negb (tr_combat_active res) && truthy_string (tr_combat_ended_reason res)
  then emitCombatMessage onNPCTurn combat_end
         ("Combat ended: " +:+ default "" (tr_combat_ended_reason res)) None sc
  else sc.

Definition nextTurn (onNPCTurn : bool) (endTurnReply : Reply TurnResult)
    (statusReply : Reply StatusReply) (getStatus : nat → Reply StatusReply)
    (st : State) : State :=
  match combatState st with
  | None => st
  | Some cs =>
      let st1 := setError None (setIsLoading true st) in
      let st2 :=
        match endTurnReply with
        | Rejected msg =>
            setError (Some (errorText msg "Failed to advance turn")) st1
        | Resolved res =>
            match statusReply with
            | Rejected msg =>
                setError (Some (errorText msg "Failed to advance turn")) st1
            | Resolved status =>
                if statusInactive status
                then setSetupCombatants (λ _, []) (setCombatState (λ _, None) st1)
                else afterTurn onNPCTurn getStatus (round cs) res status st1
            end
        end in
      setIsLoading false st2
  end.

(** ** The effect that reveals the turns queued by [startCombat] *)

(** The body of the [useEffect] on [combatState]: with a combat state and
    queued turns, it empties the queue, waits 500 ms, reveals the turns and
    clears the loading flag. *)
Definition revealPending (onNPCTurn : bool) (getStatus : nat → Reply StatusReply)
    (st : State) : State :=
  match combatState st, pendingNPCTurnsRef st with
  | Some _, Some turns =>
      setIsLoading false
        (slowRollNPCTurns onNPCTurn getStatus turns
           (emit (Sleep 500) (setPendingNPCTurnsRef None st)))
  | _, _ => st
  end.

(** ** Advancing the turn in the stand-alone [CombatTracker] ([nextTurn]) *)

Module Tracker.

(** How a handler with a loop ends: with a result, with an exception, or
    not within the number of loop tests allotted. *)
Inductive Outcome (A : Type) :=
| Finished (a : A)
| Threw
| OutOfFuel.
Arguments Finished {A} a.
Arguments Threw {A}.
Arguments OutOfFuel {A}.

(** [while (order[nextIdx].hp <= 0) { nextIdx += 1; if (nextIdx >=
    order.length) { nextIdx = 0; newRound += 1; } }]; reading [hp] of a
    missing element throws.  [fuel] bounds the number of tests of the loop
    condition. *)
Fixpoint skipDead (fuel : nat) (order : list Combatant) (nextIdx : nat)
    (newRound : Z) : Outcome (nat * Z) :=
  match fuel with
  | O => OutOfFuel
  | S fuel' =>
      match order !! nextIdx with
      | None => Threw
      | Some c =>
          if hp c <=? 0
          then if (length order <=? S nextIdx)%nat
               then skipDead fuel' order 0 (newRound + 1)
               else skipDead fuel' order (S nextIdx) newRound
          else Finished (nextIdx, newRound)
      end
  end.

Definition set_turn (idx : nat) (r : Z) (cs : CombatState) : CombatState :=
  {| round := r; initiative_order := initiative_order cs;
     current_turn_idx := idx; active := active cs;
     current_turn_type := current_turn_type cs;
     current_is_npc := current_is_npc cs |}.

Definition nextTurn (fuel : nat) (st : Legacy.TrackerState)
    : Outcome Legacy.TrackerState :=
  match Legacy.t_combatState st with
  | None => Finished st
  | Some cs =>
      let order := initiative_order cs in
      let wrapped := (length order <=? S (current_turn_idx cs))%nat in
      let nextIdx := if wrapped then 0%nat else S (current_turn_idx cs) in
      let newRound := if wrapped then round cs + 1 else round cs in
      match skipDead fuel order nextIdx newRound with
      | Finished (idx, r) =>
          Finished (Legacy.set_combatState (Some (set_turn idx r cs)) st)
      | Threw => Threw
      | OutOfFuel => OutOfFuel
      end
  end.

End Tracker.

(** ** A running combat in the stand-alone tracker *)

(** The buttons of the combat phase: [Damage] and [Heal] on the card of the
    combatant at [index], with the number typed into the card, and
    [Next Turn]. *)
Inductive TrackerClick :=
| ClickDamage (index : nat) (dmg : Z)
| ClickHeal (index : nat) (heal : Z)
| ClickNext.

(** An exception of a handler without a loop. *)
Definition orThrew {A : Type} (o : option A) : Tracker.Outcome A :=
  match o with
  | Some a => Tracker.Finished a
  | None => Tracker.Threw
  end.

Definition trackerClick (fuel : nat) (k : TrackerClick) (st : Legacy.TrackerState)
    : Tracker.Outcome Legacy.TrackerState :=
  match k with
  | ClickDamage index dmg => orThrew (Legacy.handleDamage index dmg st)
  | ClickHeal index heal => orThrew (Legacy.handleHeal index heal st)
  | ClickNext => Tracker.nextTurn fuel st
  end.

(** The clicks of [ks] one after the other, as long as none throws or fails
    to return; [fuel] bounds the loop of each [Next Turn]. *)
Fixpoint trackerClicks (fuel : nat) (ks : list TrackerClick)
    (st : Legacy.TrackerState) : Tracker.Outcome Legacy.TrackerState :=
  match ks with
  | [] => Tracker.Finished st
  | k :: rest =>
      match trackerClick fuel k st with
      | Tracker.Finished st' => trackerClicks fuel rest st'
      | Tracker.Threw => Tracker.Threw
      | Tracker.OutOfFuel => Tracker.OutOfFuel
      end
  end.

(** ** Token colours ([getCombatantFaction] of [combat/types.ts]) *)

Inductive TokenFaction :=
| faction_player
| faction_friendly
| faction_hostile
| faction_monster
| faction_dead.

Definition getCombatantFaction (c : Combatant) : TokenFaction :=
  if hp c <=? 0 then faction_dead
  else if is_player c then faction_player
  else if truthy (is_npc c) && truthy (is_friendly c) then faction_friendly
  else if truthy (is_npc c) then faction_hostile
  else faction_monster.

(** ** The battle map ([BattleMap.tsx]) *)

(** The key [`${x},${y}`] of a cell. *)
Definition cellKey (cx cy : Z) : string := pretty cx +:+ "," +:+ pretty cy.

(** The lookup from cell keys to combatants: each combatant with a position
    is written under the key of its cell, in the order of the list. *)
Definition positionMap (combatants : list Combatant)
    (positions : gmap string GridPosition) : gmap string Combatant :=
  foldl
    (λ m c,
       match positions !! name c with
       | Some pos => <[cellKey (x pos) (y pos) := c]> m
       | None => m
       end) ∅ combatants.

(** [handleCellClick(x, y)] with [onSelectToken] the hook's
    [setSelectedToken] and [onCellClick] the dashboard's
    [if (selectedToken) moveCombatant(selectedToken, x, y)].  An empty
    string as selection is falsy. *)
Definition handleCellClick (combatants : list Combatant) (cx cy : Z) (st : State)
    : State * option PendingMove :=
  match positionMap combatants (positions st) !! cellKey cx cy with
  | Some occupant =>
      if bool_decide (selectedToken st = Some (name occupant))
      then (setSelectedToken None st, None)
      else (setSelectedToken (Some (name occupant)) st, None)
  | None =>
      match selectedToken st with
      | Some tok =>
          if String.eqb tok "" then (st, None) else moveCombatant tok cx cy st
      | None => (st, None)
      end
  end.

(** ** The combat phase of the dashboard ([CombatDashboard]) *)

(** A click on a cell of the map followed to the answer of the server.  The
    map is rendered with [combatants={combatState.initiative_order}], and
    only while there is a combat state. *)
Definition boardClick (cx cy : Z) (reply : MoveReply) (st : State) : State :=
  match combatState st with
  | None => st
  | Some cs =>
      match handleCellClick (initiative_order cs) cx cy st with
      | (st', None) => st'
      | (st', Some pm) =>
          match reply with
          | MoveConfirmed => st'
          | MoveRejected => revertMove pm st'
          end
      end
  end.

(** What the user and React do during the combat phase, each with the
    answers of the server to the requests it makes. *)
Inductive DashboardEvent :=
| BoardClick (cx cy : Z) (reply : MoveReply)
| PressEscape
| ClickNextTurn (endTurnReply : Reply TurnResult)
    (statusReply : Reply StatusReply) (getStatus : nat → Reply StatusReply)
| RevealQueued (getStatus : nat → Reply StatusReply)
| CardDamage (targetName : string) (amount : Z) (reply : Reply DamageResult)
| CardHeal (targetName : string) (amount : Z) (reply : Reply HealingResult)
| ClickRemove (nm : string) (removeReply : Reply unit)
    (statusReply : Reply StatusReply)
| ClickEndCombat (reply : Reply EndSummary).

Definition dashboardEvent (onNPCTurn : bool) (e : DashboardEvent) (st : State)
    : State :=
  match e with
  | BoardClick cx cy reply => boardClick cx cy reply st
  | PressEscape => setSelectedToken None st
  | ClickNextTurn endTurnReply statusReply getStatus =>
      nextTurn onNPCTurn endTurnReply statusReply getStatus st
  | RevealQueued getStatus => revealPending onNPCTurn getStatus st
  | CardDamage targetName amount reply => applyDamage targetName amount reply st
  | CardHeal targetName amount reply => applyHealing targetName amount reply st
  | ClickRemove nm removeReply statusReply =>
      removeCombatantMidCombat nm removeReply statusReply st
  | ClickEndCombat reply => endCombat onNPCTurn reply st
  end.

(** The events one after the other, each followed to the answers of its
    requests before the next one starts. *)
Definition dashboardEvents (onNPCTurn : bool) (es : list DashboardEvent)
    (st : State) : State :=
  foldl (λ s e, dashboardEvent onNPCTurn e s) st es.

(** * Vocabulary of the further properties *)

(** The identifiers of the log entries increase along the log and none
    exceeds the counter [logIdRef]. *)
Definition logIdsOk (st : State) : Prop :=
  StronglySorted Z.lt (id <$> combatLog st)
  ∧ Forall (λ e, id e ≤ logIdRef st) (combatLog st).

(** [st'] has the log of [st] followed by [new], numbered from the counter
    of [st] on. *)
Definition logGrowsBy (new : list CombatLogEntry) (st st' : State) : Prop :=
  combatLog st' = combatLog st ++ new
  ∧ logIdRef st' = logIdRef st + Z.of_nat (length new)
  ∧ ∀ k e, new !! k = Some e → id e = logIdRef st + 1 + Z.of_nat k.

(** The system entry [emitCombatMessage] writes. *)
Definition systemEntry (newId : Z) (content : string) : CombatLogEntry :=
  {| id := newId; type := LogSystem; npcName := None; dialogue := None;
     movement := None; action := None; target := None; result := None;
     message := Some content |}.

(** The index the hook computes for the combatant on turn:
    [findIndex(c => c.name === n)], with 0 for [-1]. *)
Definition turnIndex (n : string) (l : list Combatant) : nat :=
  default 0%nat (findIndexByName n l).

(** The entries [nextTurn] adds to a log whose counter is [lastId], for an
    answer [res] of the server followed by an active status [s]: the turns
    of the batch, then the message of a new round, then the message of the
    end of the combat. *)
Definition nextTurnEntries (lastId previousRound : Z) (res : TurnResult)
    (s : CombatStatus) : list CombatLogEntry :=
  let revealed := batchEntries lastId (default [] (tr_npc_turn_results res)) in
  let afterReveal := lastId + Z.of_nat (length revealed) in
  let newRound :=
    if or_number (Some previousRound) 1 <? cs_round s
    then [systemEntry (afterReveal + 1) ("Round " +:+ pretty (cs_round s))]
    else [] in
  let afterRound := afterReveal + Z.of_nat (length newRound) in
  let ended :=
    if negb (tr_combat_active res) && truthy_string (tr_combat_ended_reason res)
    then [systemEntry (afterRound + 1)
            ("Combat ended: " +:+ default "" (tr_combat_ended_reason res))]
    else [] in
  revealed ++ newRound ++ ended.

(** What the reveal of AI turns and the log helpers leave alone. *)
Definition sameOutsideLog (st st' : State) : Prop :=
  positions st' = positions st ∧ gridSize st' = gridSize st
  ∧ selectedToken st' = selectedToken st
  ∧ setupCombatants st' = setupCombatants st
  ∧ error st' = error st ∧ isLoading st' = isLoading st
  ∧ showAddCombatant st' = showAddCombatant st
  ∧ pendingNPCTurnsRef st' = pendingNPCTurnsRef st.

(** The combatant at index [i] of the order is alive, resp. down. *)
Definition aliveAt (order : list Combatant) (i : nat) : Prop :=
  ∃ c, order !! i = Some c ∧ 0 < hp c.

Definition downAt (order : list Combatant) (i : nat) : Prop :=
  ∃ c, order !! i = Some c ∧ hp c ≤ 0.

(** The character [,] (code 44). *)
Definition comma : Ascii.ascii := Ascii.ascii_of_nat 44.

(** The string holds no comma. *)
Fixpoint commaFree (s : string) : bool :=
  match s with
  | EmptyString => true
  | String a rest => negb (Ascii.eqb a comma) && commaFree rest
  end.

(** A card is rendered for each index of the order, so the index of a click
    on a card is below [n], the length of the order. *)
Definition clickInRange (n : nat) (k : TrackerClick) : Prop :=
  match k with
  | ClickDamage index _ | ClickHeal index _ => (index < n)%nat
  | ClickNext => True
  end.

(** What a running combat of the tracker keeps: the names and the maximum
    hit points along the order, hit points between 0 and the maximum, the
    turn pointer inside the order and a round of at least 1. *)
Definition trackerInv (names : list string) (maxes : list Z)
    (st : Legacy.TrackerState) : Prop :=
  ∃ cs, Legacy.t_combatState st = Some cs
        ∧ name <$> initiative_order cs = names
        ∧ max_hp <$> initiative_order cs = maxes
        ∧ Forall hpInRange (initiative_order cs)
        ∧ (current_turn_idx cs < length (initiative_order cs))%nat
        ∧ 1 ≤ round cs.

(** * Sample inputs of the further properties *)

(** A form for three goblins. *)
Definition threeGoblins : AddForm :=
  {| f_trimmedName := "Goblin"; f_hp := 7; f_ac := 13; f_initiativeBonus := 2;
     f_count := 3; f_selectedNPC := None; f_isFriendly := false |}.

(** Aria and a goblin, in combat on the cells of [twoTokens]. *)
Definition duel : list Combatant :=
  [ sampleCombatant "Aria" true None; sampleCombatant "Goblin" false None ].

Definition duelState : State :=
  setCombatState
    (λ _, Some {| round := 1; initiative_order := duel; current_turn_idx := 0;
                  active := true; current_turn_type := None;
                  current_is_npc := Some false |})
    twoTokens.

(** A start result that lists coordinates for two of three combatants. *)
Definition placedStart : StartResult :=
  {| r_round := 1;
     r_initiative_order :=
       [ {| w_name := "Aria"; w_initiative := 17; w_hp := 20; w_max_hp := 20;
            w_is_player := true; w_is_npc := Some false;
            w_is_friendly := None; w_conditions := None;
            w_x := Some 2; w_y := Some 3 |};
         {| w_name := "Goblin"; w_initiative := 9; w_hp := 7; w_max_hp := 7;
            w_is_player := false; w_is_npc := Some true;
            w_is_friendly := None; w_conditions := None;
            w_x := Some 10; w_y := Some 4 |};
         {| w_name := "Wolf"; w_initiative := 5; w_hp := 11; w_max_hp := 11;
            w_is_player := false; w_is_npc := None;
            w_is_friendly := None; w_conditions := None;
            w_x := None; w_y := None |} ];
     r_current_turn := "Aria"; r_current_is_npc := false;
     r_npc_turn_results := None |}.

(** The stand-alone tracker in combat: Aria on turn, a fallen goblin, Bran. *)
Definition fightState : CombatState :=
  {| round := 1;
     initiative_order :=
       [ sampleCombatant "Aria" true None;
         set_hp 0 (sampleCombatant "Goblin" false None);
         sampleCombatant "Bran" true None ];
     current_turn_idx := 0; active := true; current_turn_type := None;
     current_is_npc := None |}.

Definition trackerFight : Legacy.TrackerState :=
  {| Legacy.t_combatState := Some fightState;
     Legacy.t_combatants := [];
     Legacy.t_showAddCombatant := false |}.

(** The same with everybody down. *)
Definition fallenState : CombatState :=
  set_initiative_order (set_hp 0 <$> initiative_order fightState) fightState.

Definition trackerFallen : Legacy.TrackerState :=
  {| Legacy.t_combatState := Some fallenState;
     Legacy.t_combatants := [];
     Legacy.t_showAddCombatant := false |}.

(** Clicks of a running combat of two. *)
Definition sampleClicks : list TrackerClick :=
  [ ClickDamage 0 5; ClickNext; ClickHeal 1 3; ClickDamage 1 100 ].

(** Events of the combat phase. *)
Definition sampleEvents : list DashboardEvent :=
  [ BoardClick 16 7 MoveConfirmed; BoardClick 5 5 MoveRejected; PressEscape;
    BoardClick 3 7 MoveConfirmed; BoardClick 4 4 MoveConfirmed;
    ClickRemove "Goblin" (Resolved ()) (Rejected None);
    ClickEndCombat (Rejected None) ].

(** * Properties *)

(** ** Battle map: the position invariant *)

Section grid_moves.
Implicit Types (st : State) (m : gmap string GridPosition) (nm : string).

Lemma outOfBounds_false grid tx ty :
  outOfBounds grid tx ty = false ↔ inBounds grid {| x := tx; y := ty |}.
Proof. unfold outOfBounds, inBounds; simpl. lia. Qed.

Lemma outOfBounds_true grid tx ty :
  outOfBounds grid tx ty = true ↔ ¬ inBounds grid {| x := tx; y := ty |}.
Proof. unfold outOfBounds, inBounds; simpl. lia. Qed.

Lemma occupiedByOther_true m nm tx ty :
  occupiedByOther m nm tx ty = true ↔
  ∃ other, other ≠ nm ∧ m !! other = Some {| x := tx; y := ty |}.
Proof.
  unfold occupiedByOther. rewrite existsb_exists. split.
  - intros [[n [px py]] [Hin Hc]]. simpl in Hc.
    apply list_elem_of_In, elem_of_map_to_list in Hin.
    apply andb_true_iff in Hc as [Hc Hy]. apply andb_true_iff in Hc as [Hn Hx].
    apply negb_true_iff, String.eqb_neq in Hn.
    apply Z.eqb_eq in Hx, Hy. subst. eauto.
  - intros (other & Hne & Hl). exists (other, {| x := tx; y := ty |}). split.
    + by apply list_elem_of_In, elem_of_map_to_list.
    + simpl. rewrite !Z.eqb_refl, !andb_true_r.
      by apply negb_true_iff, String.eqb_neq.
Qed.

Lemma occupiedByOther_false m nm tx ty :
  occupiedByOther m nm tx ty = false ↔
  ∀ other, m !! other = Some {| x := tx; y := ty |} → other = nm.
Proof.
  rewrite <- not_true_iff_false, occupiedByOther_true. split.
  - intros Hno other Hl. destruct (decide (other = nm)); [done|].
    exfalso. apply Hno. eauto.
  - intros Hall (other & Hne & Hl). auto.
Qed.

(** Writing a free, in-bounds cell keeps the invariant. *)
Lemma positionsValid_insert grid m nm p :
  positionsValid grid m → inBounds grid p →
  (∀ other, m !! other = Some p → other = nm) →
  positionsValid grid (<[nm := p]> m).
Proof.
  intros [Hb Hx] Hp Hfree. split.
  - intros n q. rewrite lookup_insert. case_decide; [naive_solver|eauto].
  - intros n1 n2 q. rewrite !lookup_insert.
    repeat case_decide; subst; naive_solver.
Qed.

Lemma positionsValid_empty grid : positionsValid grid ∅.
Proof. split; intros ?; intros; simplify_map_eq. Qed.

Lemma moveCombatant_rejected nm tx ty st st' :
  moveCombatant nm tx ty st = (st', None) → st' = st.
Proof.
  unfold moveCombatant.
  destruct (outOfBounds _ _ _); [congruence|].
  destruct (occupiedByOther _ _ _ _); congruence.
Qed.

Lemma moveCombatant_sent nm tx ty st st' pm :
  moveCombatant nm tx ty st = (st', Some pm) →
  outOfBounds (gridSize st) tx ty = false ∧
  occupiedByOther (positions st) nm tx ty = false ∧
  pm = {| pm_name := nm; prevPos := positions st !! nm |} ∧
  positions st' = <[nm := {| x := tx; y := ty |}]> (positions st) ∧
  gridSize st' = gridSize st.
Proof.
  unfold moveCombatant. repeat case_match; try congruence.
  intros [= <- <-]. done.
Qed.

(** Undoing a move right away gives back the map it started from. *)
Lemma revert_after_insert m nm p :
  match m !! nm with
  | Some q => <[nm := q]> (<[nm := p]> m)
  | None => delete nm (<[nm := p]> m)
  end = m.
Proof.
  destruct (m !! nm) as [q|] eqn:Hq.
  - rewrite insert_insert_eq. by apply insert_id.
  - by rewrite delete_insert_eq, delete_id.
Qed.

Lemma positionsValid_delete grid m nm :
  positionsValid grid m → positionsValid grid (delete nm m).
Proof.
  intros [Hb Hx]. split.
  - intros n q Hl. apply lookup_delete_Some in Hl as [_ Hl]. eauto.
  - intros n1 n2 q H1 H2.
    apply lookup_delete_Some in H1 as [_ H1], H2 as [_ H2]. eauto.
Qed.

(** A rejection may arrive after other updates of the map.  Putting the saved
    position back then keeps the invariant as long as the saved cell has
    stayed free of other names. *)
Lemma revertMove_keeps_valid grid pm st :
  positionsValid grid (positions st) →
  (∀ p, prevPos pm = Some p →
        inBounds grid p
        ∧ ∀ other, positions st !! other = Some p → other = pm_name pm) →
  positionsValid grid (positions (revertMove pm st)).
Proof.
  intros Hv Hfree. unfold revertMove. simpl.
  destruct (prevPos pm) as [p|].
  - destruct (Hfree p eq_refl). by apply positionsValid_insert.
  - by apply positionsValid_delete.
Qed.
End grid_moves.

Section move_requests.
Implicit Types (st : State) (nm : string).

Lemma moveCombatant_validation nm tx ty st :
  snd (moveCombatant nm tx ty st) = None ↔
  outOfBounds (gridSize st) tx ty = true
  ∨ occupiedByOther (positions st) nm tx ty = true.
Proof.
  unfold moveCombatant.
  destruct (outOfBounds _ _ _); simpl; [intuition congruence|].
  destruct (occupiedByOther _ _ _ _); simpl; intuition congruence.
Qed.

Lemma moveRequest_cases nm tx ty reply st :
  (moveRequest nm tx ty reply st = st
   ∧ (outOfBounds (gridSize st) tx ty = true
      ∨ occupiedByOther (positions st) nm tx ty = true))
  ∨ (outOfBounds (gridSize st) tx ty = false
     ∧ occupiedByOther (positions st) nm tx ty = false
     ∧ gridSize (moveRequest nm tx ty reply st) = gridSize st
     ∧ positions (moveRequest nm tx ty reply st) =
         match reply with
         | MoveConfirmed => <[nm := {| x := tx; y := ty |}]> (positions st)
         | MoveRejected => positions st
         end).
Proof.
  unfold moveRequest, moveCombatant.
  destruct (outOfBounds _ _ _) eqn:Hb; [left; auto|].
  destruct (occupiedByOther _ _ _ _) eqn:Ho; [left; auto|].
  right. repeat split; try done.
  - by destruct reply.
  - destruct reply; [done|]. simpl. apply revert_after_insert.
Qed.


(** C2. A move that passes the local checks is applied at once, before the
    server answers; when the server rejects it, the handler restores exactly
    the position saved before the move (or removes the entry when there was
    none), so that the positions are those before the move. *)
Theorem moveCombatant_optimistic_with_rollback nm tx ty st st' pm :
  moveCombatant nm tx ty st = (st', Some pm) →
  positions st' !! nm = Some {| x := tx; y := ty |}
  ∧ effects st' = effects st ++ [Api (ReqMoveCombatant nm tx ty)]
  ∧ prevPos pm = positions st !! nm
  ∧ positions (moveRequest nm tx ty MoveConfirmed st) = positions st'
  ∧ positions (moveRequest nm tx ty MoveRejected st) = positions st
  ∧ positions (revertMove pm st') = positions st
  ∧ (∀ st'', positions (revertMove pm st'') !! nm = positions st !! nm)
  ∧ (∀ st'' other, other ≠ nm →
       positions (revertMove pm st'') !! other = positions st'' !! other).
Proof.
  intros Hmv. unfold moveRequest. rewrite Hmv.
  pose proof (moveCombatant_sent _ _ _ _ _ _ Hmv) as (Hb & Ho & -> & Hp & Hg).
  unfold moveCombatant in Hmv. rewrite Hb, Ho in Hmv.
  injection Hmv as <-. simpl.
  repeat split.
  - apply lookup_insert_eq.
  - apply revert_after_insert.
  - apply revert_after_insert.
  - intros st''. destruct (positions st !! nm) eqn:Hq.
    + apply lookup_insert_eq.
    + apply lookup_delete_eq.
  - intros st'' other Hne. destruct (positions st !! nm).
    + by apply lookup_insert_ne.
    + by apply lookup_delete_ne.
Qed.

(** C8. Asking to move a combatant onto the cell it already stands on goes
    through the usual bounds and occupancy checks and leaves the positions
    as they were, whatever the server answers. *)
Theorem move_to_current_cell_keeps_positions nm tx ty reply st :
  positions st !! nm = Some {| x := tx; y := ty |} →
  positions (moveRequest nm tx ty reply st) = positions st
  ∧ positions (fst (moveCombatant nm tx ty st)) = positions st
  ∧ (snd (moveCombatant nm tx ty st) = None ↔
     outOfBounds (gridSize st) tx ty = true
     ∨ occupiedByOther (positions st) nm tx ty = true).
Proof.
  intros Hcur. split; [|split].
  - destruct (moveRequest_cases nm tx ty reply st)
      as [[-> _] | (_ & _ & _ & ->)]; [done|].
    destruct reply; [|done]. by apply insert_id.
  - unfold moveCombatant. repeat case_match; try done.
    simpl. by apply insert_id.
  - apply moveCombatant_validation.
Qed.

(** The request for the current cell is not short-cut: when the cell lies in
    the grid and nobody else stands on it, the request still goes to the
    server and the selection is cleared. *)
Lemma move_to_current_cell_still_sent nm tx ty st :
  positions st !! nm = Some {| x := tx; y := ty |} →
  inBounds (gridSize st) {| x := tx; y := ty |} →
  cellsExclusive (positions st) →
  ∃ st' pm,
    moveCombatant nm tx ty st = (st', Some pm)
    ∧ effects st' = effects st ++ [Api (ReqMoveCombatant nm tx ty)]
    ∧ selectedToken st' = None.
Proof.
  intros Hcur Hin Hx. unfold moveCombatant.
  apply outOfBounds_false in Hin. rewrite Hin.
  assert (occupiedByOther (positions st) nm tx ty = false) as ->.
  { apply occupiedByOther_false. intros other Hl. by apply (Hx _ _ _ Hl). }
  by do 2 eexists.
Qed.
End move_requests.

Lemma twoTokens_valid : positionsValid (gridSize twoTokens) (positions twoTokens).
Proof.
  simpl. apply positionsValid_insert.
  - apply positionsValid_insert; [apply positionsValid_empty| |].
    + unfold inBounds; simpl; lia.
    + intros other Hl. by rewrite lookup_empty in Hl.
  - unfold inBounds; simpl; lia.
  - intros other Hl. rewrite lookup_insert in Hl.
    case_decide; [congruence | by rewrite lookup_empty in Hl].
Qed.


Lemma moveCombatant_optimistic_with_rollback_witness :
  positions (fst (moveCombatant "Aria" 4 8 twoTokens)) !! "Aria"
    = Some {| x := 4; y := 8 |}
  ∧ positions (moveRequest "Aria" 4 8 MoveRejected twoTokens) !! "Aria"
    = Some {| x := 3; y := 7 |}.
Proof.
  destruct (moveCombatant_optimistic_with_rollback "Aria" 4 8 twoTokens
              (fst (moveCombatant "Aria" 4 8 twoTokens))
              {| pm_name := "Aria"; prevPos := Some {| x := 3; y := 7 |} |})
    as (Hopt & _ & _ & _ & Hrej & _).
  - vm_compute. reflexivity.
  - split; [exact Hopt|]. rewrite Hrej. vm_compute. reflexivity.
Defined.

Lemma move_to_current_cell_keeps_positions_witness :
  positions (moveRequest "Aria" 3 7 MoveConfirmed twoTokens) = positions twoTokens.
Proof.
  apply (move_to_current_cell_keeps_positions "Aria" 3 7 MoveConfirmed twoTokens).
  vm_compute. reflexivity.
Defined.

(** ** Battle map: automatic placement *)

Section auto_place.
Implicit Types (c : Combatant) (group roster : list Combatant)
  (m : gmap string GridPosition) (grid : GridSize).

Lemma enemySideOf_negb c : enemySideOf c = negb (playerSideOf c).
Proof. unfold enemySideOf, playerSideOf. by rewrite negb_orb. Qed.

Lemma placeFrom_lookup_other group col row i m n :
  n ∉ name <$> group →
  placeFrom group col row i m !! n = m !! n.
Proof.
  revert i m. induction group as [|c group IH]; intros i m Hn; [done|].
  simpl in *. apply not_elem_of_cons in Hn as [Hne Hn].
  rewrite IH by done. by apply lookup_insert_ne.
Qed.

Lemma placeFrom_lookup group col row i m k c :
  NoDup (name <$> group) →
  group !! k = Some c →
  placeFrom group col row i m !! name c
    = Some {| x := col; y := row + Z.of_nat (i + k) |}.
Proof.
  revert i m k. induction group as [|d group IH]; intros i m k Hnd Hk; [done|].
  simpl in Hnd. apply NoDup_cons in Hnd as [Hd Hnd].
  destruct k as [|k]; simpl in *.
  - injection Hk as ->.
    rewrite placeFrom_lookup_other by done.
    rewrite lookup_insert_eq. do 3 f_equal. lia.
  - rewrite (IH (S i) _ k) by done. do 3 f_equal. lia.
Qed.

Lemma placeFrom_lookup_inv group col row i m n p :
  placeFrom group col row i m !! n = Some p →
  m !! n = Some p ∨ n ∈ name <$> group.
Proof.
  intros Hl. destruct (decide (n ∈ name <$> group)); [by right|].
  left. by rewrite placeFrom_lookup_other in Hl.
Qed.

Lemma NoDup_names_filter (P : Combatant → Prop) `{∀ c, Decision (P c)} roster :
  NoDup (name <$> roster) → NoDup (name <$> filter P roster).
Proof.
  induction roster as [|c roster IH]; [done|].
  simpl. rewrite NoDup_cons. intros [Hc Hnd].
  rewrite filter_cons. case_decide; [|auto].
  simpl. apply NoDup_cons. split; [|auto].
  intros Hin. apply Hc.
  apply list_elem_of_fmap in Hin as (d & -> & Hd).
  apply list_elem_of_filter in Hd as [_ Hd].
  by apply list_elem_of_fmap_2.
Qed.

Lemma NoDup_names_inj roster c d :
  NoDup (name <$> roster) → c ∈ roster → d ∈ roster → name c = name d → c = d.
Proof.
  intros Hnd Hc Hd Heq.
  apply list_elem_of_lookup in Hc as [i Hi], Hd as [j Hj].
  assert (i = j) as ->; [|congruence].
  eapply NoDup_lookup; [exact Hnd| |].
  - rewrite list_lookup_fmap, Hi. reflexivity.
  - rewrite list_lookup_fmap, Hj. simpl. by rewrite Heq.
Qed.

(** Where a player-side combatant ends up. *)
Lemma autoPlace_lookup_player roster grid k c :
  NoDup (name <$> roster) →
  filter (λ c, playerSideOf c = true) roster !! k = Some c →
  autoPlaceCombatants roster grid !! name c
    = Some {| x := playerCol;
              y := startRowOf grid (filter (λ c, playerSideOf c = true) roster)
                   + Z.of_nat k |}.
Proof.
  intros Hnd Hk. unfold autoPlaceCombatants, placeGroup.
  assert (c ∈ filter (λ c, playerSideOf c = true) roster) as Hc
    by (apply list_elem_of_lookup; eauto).
  apply list_elem_of_filter in Hc as [Hside Hc].
  rewrite placeFrom_lookup_other.
  - by rewrite (placeFrom_lookup _ _ _ 0%nat _ k c)
      by auto using NoDup_names_filter.
  - intros Hin. apply list_elem_of_fmap in Hin as (d & Heq & Hd).
    apply list_elem_of_filter in Hd as [Hds Hd].
    assert (c = d) as <- by eauto using NoDup_names_inj.
    rewrite enemySideOf_negb, Hside in Hds. done.
Qed.

(** Where an enemy-side combatant ends up. *)
Lemma autoPlace_lookup_enemy roster grid k c :
  NoDup (name <$> roster) →
  filter (λ c, enemySideOf c = true) roster !! k = Some c →
  autoPlaceCombatants roster grid !! name c
    = Some {| x := enemyCol grid;
              y := startRowOf grid (filter (λ c, enemySideOf c = true) roster)
                   + Z.of_nat k |}.
Proof.
  intros Hnd Hk. unfold autoPlaceCombatants, placeGroup.
  by rewrite (placeFrom_lookup _ _ _ 0%nat _ k c)
    by auto using NoDup_names_filter.
Qed.

(** Every entry of the result belongs to a combatant of the roster. *)
Lemma autoPlace_lookup_inv roster grid n p :
  autoPlaceCombatants roster grid !! n = Some p → n ∈ name <$> roster.
Proof.
  unfold autoPlaceCombatants, placeGroup. intros Hl.
  assert (∀ (P : Combatant → Prop) `{∀ c, Decision (P c)},
            n ∈ name <$> filter P roster → n ∈ name <$> roster) as Hsub.
  { intros P ? Hin. apply list_elem_of_fmap in Hin as (d & -> & Hd).
    apply list_elem_of_filter in Hd as [_ Hd]. by apply list_elem_of_fmap_2. }
  apply placeFrom_lookup_inv in Hl as [Hl|Hin]; [|eauto].
  apply placeFrom_lookup_inv in Hl as [Hl|Hin]; [|eauto].
  by rewrite lookup_empty in Hl.
Qed.

(** Each combatant is on exactly one of the two sides. *)
Lemma side_index roster c :
  c ∈ roster →
  if playerSideOf c
  then ∃ k, filter (λ c, playerSideOf c = true) roster !! k = Some c
  else ∃ k, filter (λ c, enemySideOf c = true) roster !! k = Some c.
Proof.
  intros Hc. destruct (playerSideOf c) eqn:Hs.
  - apply list_elem_of_lookup, list_elem_of_filter. done.
  - apply list_elem_of_lookup, list_elem_of_filter.
    by rewrite enemySideOf_negb, Hs.
Qed.

(** The margin above a group and the margin below it differ by at most one
    row when the group fits in the grid. *)
Lemma startRowOf_centred grid group :
  Z.of_nat (length group) ≤ height grid →
  let top := startRowOf grid group in
  let bottom := height grid - (top + Z.of_nat (length group)) in
  0 ≤ top ∧ top ≤ bottom ≤ top + 1.
Proof.
  intros Hfit. unfold startRowOf. simpl.
  pose proof (Z.div_mod (height grid - Z.of_nat (length group)) 2 ltac:(lia)).
  pose proof (Z.mod_pos_bound (height grid - Z.of_nat (length group)) 2 ltac:(lia)).
  lia.
Qed.
End auto_place.

Section auto_place_cells.
Implicit Types (c : Combatant) (roster : list Combatant) (grid : GridSize).

Lemma autoPlace_cell roster grid c :
  NoDup (name <$> roster) → c ∈ roster →
  ∃ k, sideOf roster c !! k = Some c
       ∧ autoPlaceCombatants roster grid !! name c
         = Some {| x := columnOf grid c;
                   y := startRowOf grid (sideOf roster c) + Z.of_nat k |}.
Proof.
  intros Hnd Hc. pose proof (side_index roster c Hc) as Hk.
  unfold sideOf, columnOf. destruct (playerSideOf c); destruct Hk as [k Hk];
    exists k; split; auto using autoPlace_lookup_player, autoPlace_lookup_enemy.
Qed.

Lemma row_in_grid grid (group : list Combatant) k c :
  Z.of_nat (length group) ≤ height grid →
  group !! k = Some c →
  0 ≤ startRowOf grid group + Z.of_nat k < height grid.
Proof.
  intros Hfit Hk. apply lookup_lt_Some in Hk.
  pose proof (startRowOf_centred grid group Hfit). simpl in *. lia.
Qed.

(** C10. With pairwise distinct names, a grid at least 8 columns wide and
    each side no larger than the number of rows, every combatant of the
    roster gets exactly one cell; the cells lie inside the grid and are
    pairwise distinct, the player side in column 3 and the enemy side in
    column [width - 4]. *)
Theorem autoPlace_distinct_cells_in_grid roster grid :
  NoDup (name <$> roster) →
  8 ≤ width grid →
  Z.of_nat (length (filter (λ c, playerSideOf c = true) roster)) ≤ height grid →
  Z.of_nat (length (filter (λ c, enemySideOf c = true) roster)) ≤ height grid →
  (∀ c, c ∈ roster →
     ∃ p, autoPlaceCombatants roster grid !! name c = Some p
          ∧ inBounds grid p
          ∧ x p = (if playerSideOf c then 3 else width grid - 4))
  ∧ (∀ c1 c2 p, c1 ∈ roster → c2 ∈ roster →
       autoPlaceCombatants roster grid !! name c1 = Some p →
       autoPlaceCombatants roster grid !! name c2 = Some p → c1 = c2)
  ∧ (∀ n, is_Some (autoPlaceCombatants roster grid !! n) ↔ n ∈ name <$> roster)
  ∧ positionsValid grid (autoPlaceCombatants roster grid).
Proof.
  intros Hnd Hw Hp He.
  assert (∀ c, c ∈ roster → Z.of_nat (length (sideOf roster c)) ≤ height grid)
    as Hfit by (intros c _; unfold sideOf; by destruct (playerSideOf c)).
  assert (∀ c, c ∈ roster →
     ∃ p, autoPlaceCombatants roster grid !! name c = Some p
          ∧ inBounds grid p
          ∧ x p = (if playerSideOf c then 3 else width grid - 4)) as Hcell.
  { intros c Hc. destruct (autoPlace_cell roster grid c Hnd Hc) as (k & Hk & Hl).
    eexists; split; [exact Hl|]. split.
    - split; simpl; [|eauto using row_in_grid].
      unfold columnOf, playerCol, enemyCol. destruct (playerSideOf c); lia.
    - simpl. unfold columnOf, playerCol, enemyCol. by destruct (playerSideOf c). }
  assert (∀ c1 c2 p, c1 ∈ roster → c2 ∈ roster →
       autoPlaceCombatants roster grid !! name c1 = Some p →
       autoPlaceCombatants roster grid !! name c2 = Some p → c1 = c2) as Hdist.
  { intros c1 c2 p H1 H2 Hl1 Hl2.
    destruct (autoPlace_cell roster grid c1 Hnd H1) as (k1 & Hk1 & Hc1).
    destruct (autoPlace_cell roster grid c2 Hnd H2) as (k2 & Hk2 & Hc2).
    rewrite Hc1 in Hl1. rewrite Hc2, <- Hl1 in Hl2.
    injection Hl2 as Hx Hy. revert Hx Hy Hk1 Hk2.
    unfold sideOf, columnOf, playerCol, enemyCol.
    destruct (playerSideOf c1), (playerSideOf c2); intros Hx Hy Hk1 Hk2;
      try lia; assert (k1 = k2) by lia; congruence. }
  split; [exact Hcell|]. split; [exact Hdist|]. split; [|split].
  - intros n. split.
    + intros [p Hl]. eauto using autoPlace_lookup_inv.
    + intros Hin. apply list_elem_of_fmap in Hin as (c & -> & Hc).
      destruct (Hcell c Hc) as (p & Hl & _). eauto.
  - intros n p Hl. pose proof (autoPlace_lookup_inv _ _ _ _ Hl) as Hin.
    apply list_elem_of_fmap in Hin as (c & -> & Hc).
    destruct (Hcell c Hc) as (q & Hq & Hb & _). congruence.
  - intros n1 n2 p Hl1 Hl2.
    pose proof (autoPlace_lookup_inv _ _ _ _ Hl1) as Hin1.
    pose proof (autoPlace_lookup_inv _ _ _ _ Hl2) as Hin2.
    apply list_elem_of_fmap in Hin1 as (c1 & -> & Hc1).
    apply list_elem_of_fmap in Hin2 as (c2 & -> & Hc2).
    f_equal. eauto.
Qed.
End auto_place_cells.

Lemma autoPlace_distinct_cells_in_grid_witness :
  (∀ c, c ∈ skirmish →
     ∃ p, autoPlaceCombatants skirmish DEFAULT_GRID !! name c = Some p
          ∧ inBounds DEFAULT_GRID p
          ∧ x p = (if playerSideOf c then 3 else width DEFAULT_GRID - 4))
  ∧ (∀ c1 c2 p, c1 ∈ skirmish → c2 ∈ skirmish →
       autoPlaceCombatants skirmish DEFAULT_GRID !! name c1 = Some p →
       autoPlaceCombatants skirmish DEFAULT_GRID !! name c2 = Some p → c1 = c2)
  ∧ (∀ n, is_Some (autoPlaceCombatants skirmish DEFAULT_GRID !! n)
          ↔ n ∈ name <$> skirmish)
  ∧ positionsValid DEFAULT_GRID (autoPlaceCombatants skirmish DEFAULT_GRID).
Proof.
  apply (autoPlace_distinct_cells_in_grid skirmish DEFAULT_GRID).
  - apply (bool_decide_unpack (NoDup (name <$> skirmish))). vm_compute. reflexivity.
  - vm_compute. discriminate.
  - vm_compute. discriminate.
  - vm_compute. discriminate.
Defined.

Lemma emitCombatMessage_positions onNPCTurn kind content round_no st :
  positions (emitCombatMessage onNPCTurn kind content round_no st) = positions st.
Proof. unfold emitCombatMessage. by destruct onNPCTurn. Qed.

Lemma emitCombatMessage_pendingNPCTurnsRef onNPCTurn kind content round_no st :
  pendingNPCTurnsRef (emitCombatMessage onNPCTurn kind content round_no st)
  = pendingNPCTurnsRef st.
Proof. unfold emitCombatMessage. by destruct onNPCTurn. Qed.

Lemma emitCombatMessage_combatState onNPCTurn kind content round_no st :
  combatState (emitCombatMessage onNPCTurn kind content round_no st)
  = combatState st.
Proof. unfold emitCombatMessage. by destruct onNPCTurn. Qed.

(** The positions after a start the server accepted. *)
Lemma startCombat_positions onNPCTurn res st :
  positions (startCombat onNPCTurn (Resolved res) st)
  = if hasBackendPositions (r_initiative_order res)
    then backendPositionsFrom (r_initiative_order res) ∅
    else autoPlaceCombatants (combatantOfStart <$> r_initiative_order res)
                             (gridSize st).
Proof.
  unfold startCombat.
  set (sd := emitCombatMessage _ _ _ _ _).
  assert (positions sd
          = if hasBackendPositions (r_initiative_order res)
            then backendPositionsFrom (r_initiative_order res) ∅
            else autoPlaceCombatants (combatantOfStart <$> r_initiative_order res)
                                     (gridSize st)) as Hsd
    by (unfold sd; by rewrite emitCombatMessage_positions).
  destruct (r_npc_turn_results res) as [[|t ts]|]; simpl;
    try (destruct (pendingNPCTurnsRef sd); exact Hsd); exact Hsd.
Qed.

Section auto_place_centring.
Implicit Types (roster group : list Combatant) (grid : GridSize)
  (m : gmap string GridPosition).

(** C6, as stated, fails: a side with more members than the grid has rows
    starts in row 0 and runs past the last row. *)
Lemma autoPlace_oversized_group_not_centred :
  let m := autoPlaceCombatants crowd DEFAULT_GRID in
  m !! "PC 17" = Some {| x := 3; y := 16 |}
  ∧ ¬ inBounds DEFAULT_GRID {| x := 3; y := 16 |}
  ∧ ¬ groupCentred DEFAULT_GRID m (filter (λ c, playerSideOf c = true) crowd).
Proof.
  split; [vm_compute; reflexivity|]. split.
  - unfold inBounds; simpl. lia.
  - intros (top & Hrows & Htop & Hmargin).
    replace (length (filter (λ c, playerSideOf c = true) crowd)) with 17%nat
      in Hmargin by (vm_compute; reflexivity).
    simpl in Hmargin. lia.
Qed.

(** Two more inputs on which the two sides are not put on opposite edges: a
    name used on both sides keeps the cell written last, and on a grid of
    7 columns both sides stand in column 3. *)
Example autoPlace_shared_name_overwritten :
  autoPlaceCombatants
    [sampleCombatant "Twin" true None; sampleCombatant "Twin" false None]
    DEFAULT_GRID
  = {["Twin" := {| x := 16; y := 7 |}]}.
Proof.
  apply map_eq. intros n. unfold autoPlaceCombatants, placeGroup. simpl.
  rewrite insert_insert_eq. done.
Qed.

Example autoPlace_narrow_grid_same_cell :
  let m := autoPlaceCombatants
             [sampleCombatant "Aria" true None; sampleCombatant "Goblin" false None]
             {| width := 7; height := 15 |} in
  m !! "Aria" = Some {| x := 3; y := 7 |}
  ∧ m !! "Goblin" = Some {| x := 3; y := 7 |}.
Proof. split; vm_compute; reflexivity. Qed.

(** C6, amended.  When the server lists no coordinates, [startCombat] takes
    the positions from [autoPlaceCombatants] on the initiative order.  With
    pairwise distinct names the [k]-th combatant of the player side stands
    in column 3 and the [k]-th of the enemy side in column [width - 4], in
    row [startRow + k], which depends on the order of the roster only; a
    side that has no more members than the grid has rows is vertically
    centred; from width 8 on the two columns are distinct, inside the grid
    and equally far from the left and the right border. *)
Theorem startCombat_auto_placement onNPCTurn res st :
  let roster := combatantOfStart <$> r_initiative_order res in
  let grid := gridSize st in
  let m := autoPlaceCombatants roster grid in
  let players := filter (λ c, playerSideOf c = true) roster in
  let enemies := filter (λ c, enemySideOf c = true) roster in
  hasBackendPositions (r_initiative_order res) = false →
  NoDup (name <$> roster) →
  positions (startCombat onNPCTurn (Resolved res) st) = m
  ∧ (∀ (k : nat) c, players !! k = Some c →
       m !! name c = Some {| x := 3; y := startRowOf grid players + Z.of_nat k |})
  ∧ (∀ (k : nat) c, enemies !! k = Some c →
       m !! name c
       = Some {| x := width grid - 4; y := startRowOf grid enemies + Z.of_nat k |})
  ∧ (Z.of_nat (length players) ≤ height grid → groupCentred grid m players)
  ∧ (Z.of_nat (length enemies) ≤ height grid → groupCentred grid m enemies)
  ∧ (8 ≤ width grid →
       0 ≤ playerCol < enemyCol grid ∧ enemyCol grid < width grid
       ∧ playerCol - 0 = (width grid - 1) - enemyCol grid).
Proof.
  intros roster grid m players enemies Hnone Hnd.
  assert (∀ (k : nat) c, players !! k = Some c →
       m !! name c = Some {| x := 3; y := startRowOf grid players + Z.of_nat k |})
    as Hp by (intros; by apply autoPlace_lookup_player).
  assert (∀ (k : nat) c, enemies !! k = Some c →
       m !! name c
       = Some {| x := width grid - 4; y := startRowOf grid enemies + Z.of_nat k |})
    as He by (intros; by apply autoPlace_lookup_enemy).
  split; [|split; [exact Hp|split; [exact He|split; [|split]]]].
  - rewrite startCombat_positions, Hnone. done.
  - intros Hfit. exists (startRowOf grid players). split.
    + intros k c Hk. eexists. split; [by apply Hp|done].
    + by apply startRowOf_centred.
  - intros Hfit. exists (startRowOf grid enemies). split.
    + intros k c Hk. eexists. split; [by apply He|done].
    + by apply startRowOf_centred.
  - unfold playerCol, enemyCol. lia.
Qed.
End auto_place_centring.

Lemma startCombat_auto_placement_witness :
  positions (startCombat true (Resolved plainStart) initialState) !! "Aria"
    = Some {| x := 3; y := 7 |}
  ∧ positions (startCombat true (Resolved plainStart) initialState) !! "Goblin"
    = Some {| x := 16; y := 7 |}.
Proof.
destruct (startCombat_auto_placement true plainStart initialState) as (Hpos & _).
- vm_compute. reflexivity.
- apply (bool_decide_unpack
           (NoDup (name <$> (combatantOfStart <$> r_initiative_order plainStart)))).
  vm_compute. reflexivity.
- rewrite Hpos. split; vm_compute; reflexivity.
Defined.

(** ** Rolling initiative in the stand-alone tracker *)

Section stable_sort.
Context {A : Type} (compare : A → A → Z).
Implicit Types (a b : A) (l : list A).

Hypothesis compare_total : ∀ a b, 0 < compare a b → compare b a ≤ 0.
Hypothesis compare_trans :
  ∀ a b c, compare a b ≤ 0 → compare b c ≤ 0 → compare a c ≤ 0.

Lemma insertSorted_Permutation a l : Legacy.insertSorted compare a l ≡ₚ a :: l.
Proof.
  induction l as [|b l IH]; simpl; [done|].
  case_match; [done|]. rewrite IH. apply Permutation_swap.
Qed.

Lemma sort_Permutation l : Legacy.sort compare l ≡ₚ l.
Proof.
  induction l as [|a l IH]; simpl; [done|].
  by rewrite insertSorted_Permutation, IH.
Qed.

Lemma insertSorted_sorted a l :
  StronglySorted (inOrder compare) l →
  StronglySorted (inOrder compare) (Legacy.insertSorted compare a l).
Proof.
  induction l as [|b l IH]; simpl; intros Hs.
  - repeat constructor.
  - apply StronglySorted_inv in Hs as [Hl Hb].
    destruct (compare a b <=? 0) eqn:Hab.
    + apply Z.leb_le in Hab. constructor; [by constructor|].
      constructor; [done|].
      eapply Forall_impl; [exact Hb|]. intros c Hbc. by eapply compare_trans.
    + apply Z.leb_gt in Hab. constructor; [auto|].
      rewrite insertSorted_Permutation. constructor; [|done].
      by apply compare_total.
Qed.

Lemma sort_sorted l : StronglySorted (inOrder compare) (Legacy.sort compare l).
Proof.
  induction l as [|a l IH]; simpl; [constructor|].
  by apply insertSorted_sorted.
Qed.

(** Stability: within a class of elements that do not compare greater than
    one another, sorting keeps the order of the input. *)
Section classes.
Context (P : A → Prop) `{∀ a, Decision (P a)}.
Hypothesis same_class : ∀ a b, P a → P b → compare a b ≤ 0.

Lemma insertSorted_filter a l :
  filter P (Legacy.insertSorted compare a l) = filter P (a :: l).
Proof.
  induction l as [|b l IH]; simpl; [done|].
  destruct (compare a b <=? 0) eqn:Hab; [done|].
  apply Z.leb_gt in Hab.
  rewrite (filter_cons _ b), IH, !filter_cons.
  destruct (decide (P a)) as [Ha|], (decide (P b)) as [Hb|]; try done.
  pose proof (same_class a b Ha Hb). lia.
Qed.

Lemma sort_filter l : filter P (Legacy.sort compare l) = filter P l.
Proof.
  induction l as [|a l IH]; simpl; [done|].
  by rewrite insertSorted_filter, !filter_cons, IH.
Qed.
End classes.
End stable_sort.

(** A stable sort by descending key has one possible result: two lists in
descending order in which the elements of each key appear in the same order
are equal.  Whatever algorithm [Array.prototype.sort] runs, its result is
that of [Legacy.sort]. *)
Section stable_unique.
Context {A : Type} (key : A → Z).
Implicit Types (l : list A).

#[local] Abbreviation descending := (StronglySorted (λ a b : A, key b ≤ key a)).

Lemma descending_head_max a l b : descending (a :: l) → b ∈ a :: l → key b ≤ key a.
Proof.
intros Hs Hb. apply StronglySorted_inv in Hs as [_ Hall].
apply elem_of_cons in Hb as [->|Hb]; [lia|].
rewrite Forall_forall in Hall. auto.
Qed.

Lemma stable_descending_unique l1 l2 :
  descending l1 → descending l2 →
  (∀ k, filter (λ a, key a = k) l1 = filter (λ a, key a = k) l2) →
  l1 = l2.
Proof.
revert l2. induction l1 as [|a l1 IH]; intros [|b l2] Hs1 Hs2 Hsame.
- done.
- specialize (Hsame (key b)). by rewrite filter_cons_True in Hsame.
- specialize (Hsame (key a)). by rewrite filter_cons_True in Hsame.
- assert (key a = key b) as Hab.
  { assert (key b ≤ key a).
    { apply (descending_head_max a l1); [done|].
      eapply (list_elem_of_filter (λ c, key c = key b)).
      rewrite (Hsame (key b)), filter_cons_True by done. left. }
    assert (key a ≤ key b); [|lia].
    apply (descending_head_max b l2); [done|].
    eapply (list_elem_of_filter (λ c, key c = key a)).
    rewrite <- (Hsame (key a)), filter_cons_True by done. left. }
  pose proof (Hsame (key a)) as Hhead.
  rewrite filter_cons_True in Hhead by done.
  rewrite filter_cons_True in Hhead by done.
  injection Hhead as <- Hhead. f_equal.
  apply StronglySorted_inv in Hs1 as [Hs1 _], Hs2 as [Hs2 _].
  apply IH; [done..|]. intros k.
  destruct (decide (key a = k)) as [<-|Hne]; [done|].
  specialize (Hsame k). by rewrite !filter_cons_False in Hsame.
Qed.
End stable_unique.

Section roll_initiative.
Import Legacy.
Implicit Types (c : Combatant) (st : TrackerState).

Lemma byInitiativeDesc_total a b :
  0 < byInitiativeDesc a b → byInitiativeDesc b a ≤ 0.
Proof. unfold byInitiativeDesc. lia. Qed.

Lemma byInitiativeDesc_trans a b c :
  byInitiativeDesc a b ≤ 0 → byInitiativeDesc b c ≤ 0 → byInitiativeDesc a c ≤ 0.
Proof. unfold byInitiativeDesc. lia. Qed.

Lemma withInitiative_lookup (random20 : nat → Z) (combatants : list Combatant) i c :
  combatants !! i = Some c →
  withInitiative random20 combatants !! i
  = Some (set_initiative (random20 i + 1 + or_zero (initiative_bonus c)) c).
Proof. intros Hi. unfold withInitiative. by rewrite list_lookup_imap, Hi. Qed.

Lemma withInitiative_ext (random20 random20' : nat → Z) (combatants : list Combatant) :
  (∀ i, (i < length combatants)%nat → random20' i = random20 i) →
  withInitiative random20' combatants = withInitiative random20 combatants.
Proof.
  intros Hsame. unfold withInitiative. apply imap_ext.
  intros i c Hi. rewrite Hsame; [done|]. by eapply lookup_lt_Some.
Qed.

(** The scenario of the specification: A scores 17 and acts first, the two
    goblins tie at 10 and keep the order of the roster. *)
Example rollInitiative_scenario :
  (λ c, (name c, initiative c)) <$> orderOf (rollInitiative scenarioRolls scenarioRoster)
  = [("A", 17); ("Goblin1", 10); ("Goblin2", 10)].
Proof. vm_compute. reflexivity. Qed.

(** C3, as stated, fails: on equal scores the combatant with the higher
    bonus is not moved to the front. *)
Lemma rollInitiative_tie_ignores_bonus :
  let order := orderOf (rollInitiative tiedRolls tiedPair) in
  name <$> order = ["Aria"; "Bran"]
  ∧ initiative <$> order = [12; 12]
  ∧ initiative_bonus <$> order = [None; Some 2]
  ∧ ¬ Sorted specBefore order.
Proof.
  repeat split; try (vm_compute; reflexivity).
  intros Hs.
  assert (∃ a b, orderOf (rollInitiative tiedRolls tiedPair) = [a; b]
                 ∧ initiative a = 12 ∧ initiative b = 12
                 ∧ initiative_bonus a = None ∧ initiative_bonus b = Some 2)
    as (a & b & Heq & Ha & Hb & Hba & Hbb)
    by (do 2 eexists; split; [vm_compute; reflexivity|done]).
  rewrite Heq in Hs. apply Sorted_inv in Hs as [_ Hab].
  apply HdRel_inv in Hab. unfold specBefore in Hab.
  rewrite Ha, Hb, Hba, Hbb in Hab. simpl in Hab. lia.
Qed.

Lemma StronglySorted_weaken {A} (R S : A → A → Prop) (l : list A) :
  (∀ a b, R a b → S a b) → StronglySorted R l → StronglySorted S l.
Proof.
  intros HRS. induction 1 as [|a l Hl IH Ha]; constructor; [done|].
  eapply Forall_impl; eauto.
Qed.

(** C3, amended.  Each combatant's score is its die roll (1 to 20 when the
    random source yields 0 to 19) plus its bonus, a missing bonus counting
    as 0; the order is the roster with these scores, sorted by descending
    score, combatants of equal score staying in the order of the roster,
    whatever their bonuses.  No other arrangement has these properties, and
    the same rolls give the same order. *)
Theorem rollInitiative_sorted_stable (random20 : nat → Z) st :
  let scored := withInitiative random20 (t_combatants st) in
  let order := orderOf (rollInitiative random20 st) in
  t_combatState (rollInitiative random20 st)
    = Some {| round := 1; initiative_order := order; current_turn_idx := 0;
              active := true; current_turn_type := None;
              current_is_npc := None |}
  ∧ (∀ i c, t_combatants st !! i = Some c →
       scored !! i
       = Some (set_initiative (random20 i + 1 + or_zero (initiative_bonus c)) c)
       ∧ (0 ≤ random20 i < 20 → 1 ≤ random20 i + 1 ≤ 20))
  ∧ order ≡ₚ scored
  ∧ StronglySorted (λ a b, initiative b ≤ initiative a) order
  ∧ (∀ s, filter (λ c, initiative c = s) order
          = filter (λ c, initiative c = s) scored)
  ∧ (∀ l',
       StronglySorted (λ a b, initiative b ≤ initiative a) l' →
       (∀ s, filter (λ c, initiative c = s) l'
             = filter (λ c, initiative c = s) scored) →
       l' = order)
  ∧ (∀ random20',
       (∀ i, (i < length (t_combatants st))%nat → random20' i = random20 i) →
       rollInitiative random20' st = rollInitiative random20 st).
Proof.
  intros scored order.
  assert (StronglySorted (λ a b, initiative b ≤ initiative a) order) as Hsorted.
  { eapply StronglySorted_weaken;
      [|apply (sort_sorted byInitiativeDesc);
        [apply byInitiativeDesc_total | apply byInitiativeDesc_trans]].
    unfold inOrder, byInitiativeDesc. intros a b. lia. }
  assert (∀ s, filter (λ c, initiative c = s) order
               = filter (λ c, initiative c = s) scored) as Hstable.
  { intros s. apply sort_filter.
    unfold byInitiativeDesc. intros a b -> ->. lia. }
  split; [done|]. split; [|split; [|split; [|split; [|split]]]].
  - intros i c Hi. split; [by apply withInitiative_lookup|lia].
  - apply sort_Permutation.
  - exact Hsorted.
  - exact Hstable.
  - intros l' Hl' Hsame.
    apply (stable_descending_unique initiative); [done..|].
    intros s. by rewrite Hsame, Hstable.
  - intros random20' Hsame. unfold rollInitiative.
    by rewrite (withInitiative_ext random20 random20').
Qed.
End roll_initiative.

(** ** Hit points *)

Section hit_points.
Import Engine.
Implicit Types (c : EngineCombatant) (registry : gmap string EngineCombatant).

(** C4. For a registered combatant with [0 <= hit_points <= max_hit_points]
    and any [delta], [update_hit_points] returns a value between 0 and the
    maximum (0 when the damage exceeds the hit points, the maximum when the
    healing exceeds what is missing) and stores it; [became_incapacitated]
    is true exactly when the hit points were not 0 before and are 0 after. *)
Theorem update_hit_points_clamped target_id delta registry c :
  registry !! target_id = Some c →
  0 ≤ hit_points c ≤ max_hit_points c →
  ∃ registry' v became_incapacitated,
    update_hit_points target_id delta registry
      = inr (registry', v, became_incapacitated)
    ∧ 0 ≤ v ≤ max_hit_points c
    ∧ (hit_points c + delta ≤ 0 → v = 0)
    ∧ (max_hit_points c ≤ hit_points c + delta → v = max_hit_points c)
    ∧ (0 ≤ hit_points c + delta ≤ max_hit_points c → v = hit_points c + delta)
    ∧ (became_incapacitated = true ↔ hit_points c ≠ 0 ∧ v = 0)
    ∧ registry' !! target_id = Some (set_hit_points v c)
    ∧ (∀ other, other ≠ target_id → registry' !! other = registry !! other).
Proof.
  intros Hc Hinv. unfold update_hit_points. rewrite Hc.
  do 3 eexists. split; [reflexivity|].
  split; [lia|]. split; [lia|]. split; [lia|]. split; [lia|].
  split; [|split].
  - rewrite andb_true_iff, negb_true_iff, Z.eqb_neq, Z.eqb_eq. done.
  - apply lookup_insert_eq.
  - intros other Hne. by apply lookup_insert_ne.
Qed.

Lemma update_hit_points_unknown target_id delta registry :
  registry !! target_id = None →
  update_hit_points target_id delta registry = inl NotFound.
Proof. intros Hc. unfold update_hit_points. by rewrite Hc. Qed.

End hit_points.

Lemma update_hit_points_clamped_witness :
  ∃ registry',
    Engine.update_hit_points "g1" (-100) {["g1" := goblin]} = inr (registry', 0, true).
Proof.
  destruct (update_hit_points_clamped "g1" (-100) {["g1" := goblin]} goblin)
    as (registry' & v & b & Heq & _ & Hzero & _ & _ & Hb & _).
  - vm_compute. reflexivity.
  - vm_compute. split; discriminate.
  - exists registry'. rewrite Heq.
    assert (v = 0) as -> by (apply Hzero; vm_compute; discriminate).
    assert (b = true) as ->; [|done].
    apply Hb. split; [vm_compute; discriminate|done].
Defined.

(** The browser-side tracker changes hit points through [handleDamage] and
    [handleHeal]; on combatants within [0, max_hp] it computes the clamped
    value of the engine's rule, with [delta] the negated damage or the
    healing. *)
Section legacy_hit_points.
Import Legacy.
Implicit Types (c : Combatant).

Lemma damagedHp_clamped c damage :
  0 ≤ hp c ≤ max_hp c → 0 ≤ damage →
  damagedHp damage c = clampHp c (- damage) ∧ 0 ≤ damagedHp damage c ≤ max_hp c.
Proof. unfold damagedHp, clampHp. lia. Qed.

Lemma healedHp_clamped c healing :
  0 ≤ hp c ≤ max_hp c → 0 ≤ healing →
  healedHp healing c = clampHp c healing ∧ 0 ≤ healedHp healing c ≤ max_hp c.
Proof. unfold healedHp, clampHp. lia. Qed.

Lemma updateHpAt_in_range f index st st' :
  trackerHpInRange st →
  (∀ c, hpInRange c → 0 ≤ f c ≤ max_hp c) →
  updateHpAt f index st = Some st' → trackerHpInRange st'.
Proof.
  intros Hst Hf. unfold updateHpAt.
  destruct (t_combatState st) as [cs|] eqn:Hcs; [|by intros [= <-]].
  destruct (initiative_order cs !! index) as [c|] eqn:Hc; [|done].
  intros [= <-] cs' [= <-]. simpl.
  pose proof (Hst cs Hcs) as Hall.
  apply Forall_insert; [done|].
  rewrite Forall_lookup in Hall. specialize (Hall _ _ Hc).
  unfold hpInRange. simpl. auto.
Qed.

Lemma handleDamage_in_range index dmg st st' :
  trackerHpInRange st → handleDamage index dmg st = Some st' →
  trackerHpInRange st'.
Proof.
  unfold handleDamage. intros Hst. destruct (0 <? dmg) eqn:Hpos.
  - apply Z.ltb_lt in Hpos. apply updateHpAt_in_range; [done|].
    intros c Hc. apply damagedHp_clamped; [done|lia].
  - by intros [= <-].
Qed.

Lemma handleHeal_in_range index heal st st' :
  trackerHpInRange st → handleHeal index heal st = Some st' →
  trackerHpInRange st'.
Proof.
  unfold handleHeal. intros Hst. destruct (0 <? heal) eqn:Hpos.
  - apply Z.ltb_lt in Hpos. apply updateHpAt_in_range; [done|].
    intros c Hc. apply healedHp_clamped; [done|lia].
  - by intros [= <-].
Qed.
End legacy_hit_points.

(** ** Starting combat *)

Section start_combat.
Implicit Types (st : State) (res : StartResult).

Lemma startCombat_resolved_combatState onNPCTurn res st :
  ∃ cs, combatState (startCombat onNPCTurn (Resolved res) st) = Some cs
        ∧ active cs = true
        ∧ round cs = r_round res
        ∧ initiative_order cs = combatantOfStart <$> r_initiative_order res.
Proof.
  exists {| round := r_round res;
            initiative_order := combatantOfStart <$> r_initiative_order res;
            current_turn_idx :=
              default 0%nat
                (findIndexByName (r_current_turn res)
                   (combatantOfStart <$> r_initiative_order res));
            active := true; current_turn_type := None;
            current_is_npc := Some (r_current_is_npc res) |}.
  split; [|done].
  unfold startCombat.
  set (sd := emitCombatMessage _ _ _ _ _).
  assert (combatState sd = Some
            {| round := r_round res;
               initiative_order := combatantOfStart <$> r_initiative_order res;
               current_turn_idx :=
                 default 0%nat
                   (findIndexByName (r_current_turn res)
                      (combatantOfStart <$> r_initiative_order res));
               active := true; current_turn_type := None;
               current_is_npc := Some (r_current_is_npc res) |}) as Hsd
    by (unfold sd; by rewrite emitCombatMessage_combatState).
  destruct (r_npc_turn_results res) as [[|t ts]|]; simpl;
    try (destruct (pendingNPCTurnsRef sd); exact Hsd); exact Hsd.
Qed.

Lemma startCombat_rejected onNPCTurn msg st :
  combatState (startCombat onNPCTurn (Rejected msg) st) = combatState st
  ∧ error (startCombat onNPCTurn (Rejected msg) st)
    = Some (errorText msg "Failed to start combat")
  ∧ positions (startCombat onNPCTurn (Rejected msg) st) = positions st.
Proof.
  unfold startCombat. simpl. by destruct (pendingNPCTurnsRef st).
Qed.

(** C5, as stated, fails: a roster of two combatants of the same team is
    offered the start button, and rolling initiative makes the combat
    active. *)
Lemma start_accepts_single_team_roster :
  Forall (λ c, is_player c = true) (Legacy.t_combatants partyOnly)
  ∧ ∃ (st' : Legacy.TrackerState) cs,
      Legacy.clickRollInitiative (λ _, 9) partyOnly = Some st'
      ∧ Legacy.t_combatState st' = Some cs
      ∧ active cs = true
      ∧ name <$> initiative_order cs = ["Aria"; "Bran"].
Proof.
  split; [repeat constructor|].
  do 2 eexists. split; [vm_compute; reflexivity|].
  split; [reflexivity|]. split; vm_compute; reflexivity.
Qed.

(** C5, amended.  Combat can be started only from a roster of at least two
    combatants: below that there is no start button and the state stays as
    it is.  The teams of the roster are not looked at.  From two combatants
    on, the stand-alone tracker starts an active combat in round 1, and the
    hook starts one whenever the server accepts the request; when the
    server rejects it, the combat state is left as it was and the text of
    the rejection is kept as the error. *)
Theorem start_needs_two_combatants :
  (∀ random20 (st : Legacy.TrackerState),
     (length (Legacy.t_combatants st) < 2)%nat →
     Legacy.clickRollInitiative random20 st = None)
  ∧ (∀ random20 (st : Legacy.TrackerState),
       (2 ≤ length (Legacy.t_combatants st))%nat →
       ∃ (st' : Legacy.TrackerState) cs,
         Legacy.clickRollInitiative random20 st = Some st'
         ∧ Legacy.t_combatState st' = Some cs
         ∧ active cs = true ∧ round cs = 1)
  ∧ (∀ onNPCTurn reply st,
       (length (setupCombatants st) < 2)%nat →
       clickStartCombat onNPCTurn reply st = None)
  ∧ (∀ onNPCTurn res st,
       (2 ≤ length (setupCombatants st))%nat →
       ∃ st' cs,
         clickStartCombat onNPCTurn (Resolved res) st = Some st'
         ∧ combatState st' = Some cs ∧ active cs = true)
  ∧ (∀ onNPCTurn msg st,
       (2 ≤ length (setupCombatants st))%nat →
       ∃ st',
         clickStartCombat onNPCTurn (Rejected msg) st = Some st'
         ∧ combatState st' = combatState st
         ∧ error st' = Some (errorText msg "Failed to start combat")).
Proof.
  split; [|split; [|split; [|split]]].
  - intros random20 st Hlen. unfold Legacy.clickRollInitiative, Legacy.startButtonShown.
    rewrite bool_decide_eq_false_2; [done|lia].
  - intros random20 st Hlen. unfold Legacy.clickRollInitiative, Legacy.startButtonShown.
    rewrite bool_decide_eq_true_2 by done. do 2 eexists. by repeat split.
  - intros onNPCTurn reply st Hlen. unfold clickStartCombat, startButtonShown.
    rewrite bool_decide_eq_false_2; [done|lia].
  - intros onNPCTurn res st Hlen. unfold clickStartCombat, startButtonShown.
    rewrite bool_decide_eq_true_2 by done.
    destruct (startCombat_resolved_combatState onNPCTurn res st)
      as (cs & Hcs & Hact & _).
    eauto.
  - intros onNPCTurn msg st Hlen. unfold clickStartCombat, startButtonShown.
    rewrite bool_decide_eq_true_2 by done.
    destruct (startCombat_rejected onNPCTurn msg st) as (Hcs & Herr & _).
    eauto.
Qed.
End start_combat.

(** ** Damage and healing through the server *)

Section damage_frame.
Implicit Types (st : State) (cs : CombatState) (c : Combatant).

Lemma withTargetHp_onlyTargetHp targetName v cs :
  ∃ cs', withTargetHp targetName v (Some cs) = Some cs'
         ∧ onlyTargetHp targetName v cs cs'.
Proof.
  eexists. split; [reflexivity|].
  unfold onlyTargetHp. simpl. repeat split; try done.
  - by rewrite length_fmap.
  - intros i c Hi. rewrite list_lookup_fmap, Hi. simpl.
    eexists. split; [reflexivity|].
    destruct (String.eqb_spec (name c) targetName) as [Heq|Hne].
    + split; [done|]. intros _. split; [done|]. by repeat split.
    + split; [done|]. intros Heq. done.
Qed.

(** C9. With a combat going on, a damage or healing result of the server
    changes the [hp] of the combatants of the initiative order whose name
    is the target and nothing else: the other combatants, the other fields
    of the target, the round, the turn index and the positions stay as they
    are.  Only a damage result that reports the end of the combat clears
    the combat state (and the set-up roster). *)
Theorem applyDamage_applyHealing_frame targetName amount st cs :
  combatState st = Some cs →
  (∀ res,
     let st' := applyDamage targetName amount (Resolved res) st in
     sameElsewhere st st' ∧ error st' = error st
     ∧ if truthy (d_combat_ended res)
       then combatState st' = None ∧ setupCombatants st' = []
       else setupCombatants st' = setupCombatants st
            ∧ ∃ cs', combatState st' = Some cs'
                     ∧ onlyTargetHp targetName (d_current_hp res) cs cs')
  ∧ (∀ res,
       let st' := applyHealing targetName amount (Resolved res) st in
       sameElsewhere st st' ∧ error st' = error st
       ∧ setupCombatants st' = setupCombatants st
       ∧ ∃ cs', combatState st' = Some cs'
                ∧ onlyTargetHp targetName (h_current_hp res) cs cs')
  ∧ (∀ msg,
       combatState (applyDamage targetName amount (Rejected msg) st) = Some cs
       ∧ combatState (applyHealing targetName amount (Rejected msg) st) = Some cs
       ∧ sameElsewhere st (applyDamage targetName amount (Rejected msg) st)
       ∧ sameElsewhere st (applyHealing targetName amount (Rejected msg) st)).
Proof.
  intros Hcs.
  split; [|split].
  - intros res st'. subst st'. unfold applyDamage. rewrite Hcs.
    destruct (truthy (d_combat_ended res)); simpl.
    + by repeat split.
    + split; [by repeat split|]. split; [done|]. split; [done|].
      rewrite Hcs. apply withTargetHp_onlyTargetHp.
  - intros res st'. subst st'. unfold applyHealing. rewrite Hcs. simpl.
    split; [by repeat split|]. split; [done|]. split; [done|].
    rewrite Hcs. apply withTargetHp_onlyTargetHp.
  - intros msg. unfold applyDamage, applyHealing. rewrite Hcs. simpl.
    by repeat split.
Qed.
End damage_frame.

(** ** Revealing a batch of AI turns *)

Section reveal.
Implicit Types (st : State) (t : NPCTurn) (npcTurns : list NPCTurn)
  (getStatus : nat → Reply StatusReply).

Lemma displayNPCTurn_log onNPCTurn t st :
  combatLog (displayNPCTurn onNPCTurn t st)
    = combatLog st ++ [npcLogEntry (logIdRef st + 1) t]
  ∧ logIdRef (displayNPCTurn onNPCTurn t st) = logIdRef st + 1
  ∧ effects (displayNPCTurn onNPCTurn t st)
    = effects st ++ [Appended (npcLogEntry (logIdRef st + 1) t)]
      ++ (if onNPCTurn then [Notified (npcChatMessage t)] else []).
Proof.
  unfold displayNPCTurn. destruct onNPCTurn; simpl; repeat split;
    by rewrite <- ?app_assoc.
Qed.

Lemma refreshStatus_log reply st :
  combatLog (refreshStatus reply st) = combatLog st
  ∧ logIdRef (refreshStatus reply st) = logIdRef st
  ∧ effects (refreshStatus reply st) = effects st.
Proof. destruct reply as [[msg|status]|msg]; done. Qed.

Lemma slowRollFrom_log onNPCTurn getStatus i npcTurns st :
  combatLog (slowRollFrom onNPCTurn getStatus i npcTurns st)
    = combatLog st ++ batchEntries (logIdRef st) npcTurns
  ∧ logIdRef (slowRollFrom onNPCTurn getStatus i npcTurns st)
    = logIdRef st + Z.of_nat (length npcTurns)
  ∧ effects (slowRollFrom onNPCTurn getStatus i npcTurns st)
    = effects st ++ batchEffects onNPCTurn i (logIdRef st) npcTurns.
Proof.
  revert i st. induction npcTurns as [|t rest IH]; intros i st.
  - simpl. unfold batchEntries, batchEffects. simpl.
    rewrite !app_nil_r. split; [done|split; [lia|done]].
  - cbn [slowRollFrom].
    set (st2 := if (0 <? i)%nat then _ else _).
    set (st4 := refreshStatus _ _).
    destruct (IH (S i) st4) as (Hlog & Hid & Heff).
    destruct (displayNPCTurn_log onNPCTurn t st2) as (Hlog3 & Hid3 & Heff3).
    assert (combatLog st2 = combatLog st ∧ logIdRef st2 = logIdRef st
            ∧ effects st2
              = effects st ++ (if bool_decide (i + 0 = 0)%nat then []
                               else [Sleep NPC_TURN_DELAY]))
      as (Hlog2 & Hid2 & Heff2).
    { unfold st2. destruct i as [|i]; simpl.
      - by rewrite app_nil_r.
      - done. }
    assert (combatLog st4 = combatLog (displayNPCTurn onNPCTurn t st2)
            ∧ logIdRef st4 = logIdRef (displayNPCTurn onNPCTurn t st2)
            ∧ effects st4
              = effects (displayNPCTurn onNPCTurn t st2) ++ [Api ReqGetStatus])
      as (Hlog4 & Hid4 & Heff4).
    { unfold st4.
      by destruct (refreshStatus_log (getStatus i)
                     (emit (Api ReqGetStatus) (displayNPCTurn onNPCTurn t st2)))
        as (-> & -> & ->). }
    rewrite Hlog, Hid, Heff, Hlog4, Hid4, Heff4, Hlog3, Hid3, Heff3,
      Hlog2, Hid2, Heff2.
    unfold batchEntries, batchEffects, revealEffects.
    rewrite !imap_cons. cbn [mjoin list_join]. simpl length.
    rewrite Z.add_0_r, <- !app_assoc.
    split; [|split; [lia|]].
    + do 2 f_equal. apply imap_ext. intros k u _. simpl. f_equal. lia.
    + simpl. do 4 f_equal. f_equal.
      f_equal. apply imap_ext. intros k u _. simpl.
      rewrite bool_decide_eq_false_2 by lia. simpl.
      do 4 f_equal. lia.
Qed.
End reveal.

(** A batch of two: the entry of the first turn comes at once, the wait
    comes before the entry of the second. *)
Example slowRoll_two_turns :
  let st' := slowRollNPCTurns false (λ _, Rejected None) [goblinHits; goblinHolds]
               initialState in
  effects st'
  = [ Appended (npcLogEntry 1 goblinHits); Api ReqGetStatus;
      Sleep 2500;
      Appended (npcLogEntry 2 goblinHolds); Api ReqGetStatus ]
  ∧ (λ e, (id e, npcName e, action e, result e)) <$> combatLog st'
    = [ (1, Some "Goblin 1", Some "attack - Scimitar", Some "Hit! 7 damage");
        (2, Some "Goblin 2", Some "Goblin 2 holds its ground.", Some "") ].
Proof. split; vm_compute; reflexivity. Qed.

Section pacing.
Implicit Types (t : NPCTurn) (npcTurns : list NPCTurn).

Lemma batchEntries_cons lastId t npcTurns :
  batchEntries lastId (t :: npcTurns)
  = npcLogEntry (lastId + 1) t :: batchEntries (lastId + 1) npcTurns.
Proof.
  unfold batchEntries. rewrite imap_cons. simpl. rewrite Z.add_0_r. f_equal.
  apply imap_ext. intros k u _. simpl. f_equal. lia.
Qed.

Lemma batchEffects_cons onNPCTurn i lastId t npcTurns :
  batchEffects onNPCTurn i lastId (t :: npcTurns)
  = revealEffects onNPCTurn (bool_decide (i = 0)%nat) (lastId + 1) t
    ++ batchEffects onNPCTurn (S i) (lastId + 1) npcTurns.
Proof.
  unfold batchEffects. rewrite imap_cons. cbn [mjoin list_join].
  rewrite Z.add_0_r, Nat.add_0_r. do 2 f_equal.
  apply imap_ext. intros k u _. simpl.
  rewrite !bool_decide_eq_false_2 by lia.
  by replace (lastId + 1 + Z.of_nat (S k)) with (lastId + 1 + 1 + Z.of_nat k)
    by lia.
Qed.

Lemma revealEffects_pacing onNPCTurn first newId t :
  filter (λ e, isPacing e = true) (revealEffects onNPCTurn first newId t)
  = (if first then [] else [Sleep NPC_TURN_DELAY])
    ++ [Appended (npcLogEntry newId t)].
Proof. by destruct onNPCTurn, first. Qed.

Lemma batchEffects_pacing_later onNPCTurn i lastId npcTurns :
  filter (λ e, isPacing e = true) (batchEffects onNPCTurn (S i) lastId npcTurns)
  = (Appended <$> batchEntries lastId npcTurns)
      ≫= λ e, [Sleep NPC_TURN_DELAY; e].
Proof.
  revert i lastId. induction npcTurns as [|t rest IH]; intros i lastId; [done|].
  rewrite batchEffects_cons, batchEntries_cons, filter_app,
    revealEffects_pacing, IH.
  by rewrite bool_decide_eq_false_2 by lia.
Qed.

Lemma batchEffects_pacing onNPCTurn lastId npcTurns :
  filter (λ e, isPacing e = true) (batchEffects onNPCTurn 0 lastId npcTurns)
  = paced (Sleep NPC_TURN_DELAY) (Appended <$> batchEntries lastId npcTurns).
Proof.
  destruct npcTurns as [|t rest]; [done|].
  rewrite batchEffects_cons, batchEntries_cons, filter_app,
    revealEffects_pacing, batchEffects_pacing_later.
  done.
Qed.

Lemma waits_before_each (entries : list CombatLogEntry) :
  filter (λ e, isSleep e = true)
         ((Appended <$> entries) ≫= λ e, [Sleep NPC_TURN_DELAY; e])
  = replicate (length entries) (Sleep NPC_TURN_DELAY).
Proof.
  induction entries as [|e rest IH]; [done|].
  rewrite fmap_cons, bind_cons, filter_app, IH. done.
Qed.

(** Between [n] entries there are [n - 1] waits. *)
Lemma paced_waits (entries : list CombatLogEntry) :
  filter (λ e, isSleep e = true)
         (paced (Sleep NPC_TURN_DELAY) (Appended <$> entries))
  = replicate (pred (length entries)) (Sleep NPC_TURN_DELAY).
Proof.
  destruct entries as [|e rest]; [done|].
  rewrite fmap_cons. unfold paced.
  rewrite filter_cons_False by done. apply waits_before_each.
Qed.
End pacing.

(** ** The engine's batch of AI turns *)

Section resolver.
Import Engine.
Context {Session TurnResult : Type}.
Variable resolve_one : Session → TurnResult * Session.
Variable advance : Session → Session.
Variable current_is_ai : Session → bool.
Variable is_active : Session → bool.

#[local] Abbreviation step := (turn_step resolve_one advance).
#[local] Abbreviation going := (keeps_going current_is_ai is_active).
#[local] Abbreviation run :=
  (resolve_until_player_or_end resolve_one advance current_is_ai is_active).

(** The [k]-th result of the batch is that of the [k]-th resolved turn. *)
Lemma batch_lookup fuel s k r :
  fst (run fuel s) !! k = Some r →
  r = fst (resolve_one (Nat.iter k step s))
  ∧ (0 < k → going (Nat.iter k step s) = true)%nat.
Proof.
  revert s k r. induction fuel as [|fuel IH]; intros s k r; [done|].
  cbn [resolve_until_player_or_end].
  destruct (going (step s)) eqn:Hgo; cbn [fst].
  - destruct k as [|k].
    + intros [= <-]. split; [done|lia].
    + intros Hk. change (fst (run fuel (step s)) !! k = Some r) in Hk.
      rewrite Nat.iter_succ_r. apply IH in Hk as [-> Hk].
      split; [done|]. intros _.
      destruct k as [|k]; [exact Hgo|]. apply Hk. lia.
  - destruct k as [|k]; [|done].
    intros [= <-]. split; [done|lia].
Qed.

(** The session handed back is the one after the last resolved turn. *)
Lemma batch_session fuel s :
  snd (run fuel s) = Nat.iter (length (fst (run fuel s))) step s.
Proof.
  revert s. induction fuel as [|fuel IH]; intros s; [done|].
  simpl. destruct (going (step s)) eqn:Hgo; simpl; [|done].
  by rewrite IH, <- Nat.iter_succ_r.
Qed.

Lemma batch_length fuel s : (length (fst (run fuel s)) ≤ fuel)%nat.
Proof.
  revert s. induction fuel as [|fuel IH]; intros s; [done|].
  simpl. destruct (going (step s)); simpl; [|lia].
  specialize (IH (step s)). lia.
Qed.

(** A batch shorter than the bound is complete: the loop stopped because
    the turn that follows is not AI-controlled or the session has ended. *)
Lemma batch_complete fuel s :
  (length (fst (run fuel s)) < fuel)%nat → going (snd (run fuel s)) = false.
Proof.
  revert s. induction fuel as [|fuel IH]; intros s; [simpl; lia|].
  simpl. destruct (going (step s)) eqn:Hgo; simpl; [|done].
  intros Hlen. apply IH. lia.
Qed.

(** More fuel does not change a complete batch. *)
Lemma batch_fuel_irrelevant fuel fuel' s :
  (length (fst (run fuel s)) < fuel)%nat → (fuel ≤ fuel')%nat →
  run fuel' s = run fuel s.
Proof.
  revert fuel' s. induction fuel as [|fuel IH]; intros fuel' s; [simpl; lia|].
  destruct fuel' as [|fuel']; [lia|].
  simpl. destruct (going (step s)) eqn:Hgo; simpl; [|done].
  intros Hlen Hle. rewrite (IH fuel'); [done|lia..].
Qed.
End resolver.

Section npc_batch.
Import Engine.
Context {Session : Type}.
Variable resolve_one : Session → NPCTurn * Session.
Variable advance : Session → Session.
Variable current_is_ai : Session → bool.
Variable is_active : Session → bool.

(** C7. The engine hands the caller the results of the AI turns it resolved
    as one list, in the order of resolution and up to the first turn that
    is not AI-controlled or the end of the session (a batch shorter than the
    bound on the number of turns is complete and does not depend on the
    bound); computing it involves no waiting.  [slowRollNPCTurns] then appends exactly one log entry per
    result, in the order of the batch, and waits [NPC_TURN_DELAY] between
    two consecutive entries and at no other time. *)
Theorem npc_batch_revealed_in_order (fuel : nat) (s : Session)
    (onNPCTurn : bool) (getStatus : nat → Reply StatusReply) (st : State) :
  let run :=
    resolve_until_player_or_end resolve_one advance current_is_ai is_active
      fuel s in
  let step := turn_step resolve_one advance in
  let batch := fst run in
  let st' := slowRollNPCTurns onNPCTurn getStatus batch st in
  let entries := batchEntries (logIdRef st) batch in
  (∀ k t, batch !! k = Some t → t = fst (resolve_one (Nat.iter k step s)))
  ∧ (∀ k, (0 < k < length batch)%nat →
       keeps_going current_is_ai is_active (Nat.iter k step s) = true)
  ∧ snd run = Nat.iter (length batch) step s
  ∧ ((length batch < fuel)%nat →
       keeps_going current_is_ai is_active (snd run) = false
       ∧ ∀ fuel', (fuel ≤ fuel')%nat →
           resolve_until_player_or_end resolve_one advance current_is_ai
             is_active fuel' s = run)
  ∧ combatLog st' = combatLog st ++ entries
  ∧ (∀ k t, batch !! k = Some t →
       entries !! k = Some (npcLogEntry (logIdRef st + 1 + Z.of_nat k) t))
  ∧ length entries = length batch
  ∧ ∃ new,
      effects st' = effects st ++ new
      ∧ filter (λ e, isPacing e = true) new
        = paced (Sleep NPC_TURN_DELAY) (Appended <$> entries)
      ∧ filter (λ e, isSleep e = true) new
        = replicate (pred (length batch)) (Sleep NPC_TURN_DELAY).
Proof.
  intros run step batch st' entries.
  split; [|split; [|split; [|split; [|split; [|split; [|split]]]]]].
  - intros k t Hk. by apply (batch_lookup _ _ _ _ _ _ _ _ Hk).
  - intros k [Hpos Hlt]. apply lookup_lt_is_Some_2 in Hlt as [t Hk].
    by apply (batch_lookup _ _ _ _ _ _ _ _ Hk).
  - apply batch_session.
  - intros Hlen. split; [by apply batch_complete|].
    intros fuel' Hle. by apply batch_fuel_irrelevant.
  - unfold st', slowRollNPCTurns. simpl. apply slowRollFrom_log.
  - intros k t Hk. unfold entries, batchEntries.
    by rewrite list_lookup_imap, Hk.
  - unfold entries, batchEntries. apply length_imap.
  - exists (batchEffects onNPCTurn 0 (logIdRef st) batch). split; [|split].
    + unfold st', slowRollNPCTurns. simpl. apply slowRollFrom_log.
    + apply batchEffects_pacing.
    + assert (∀ l : list Effect,
                filter (λ e, isSleep e = true) l
                = filter (λ e, isSleep e = true)
                         (filter (λ e, isPacing e = true) l)) as Hsub.
      { induction l as [|e l IH]; [done|].
        destruct e; rewrite ?filter_cons_True, ?filter_cons_False by done;
          rewrite ?filter_cons_True, ?filter_cons_False by done;
          by rewrite IH. }
      rewrite Hsub, batchEffects_pacing, paced_waits.
      unfold batchEntries. by rewrite length_imap.
Qed.
End npc_batch.

Lemma applyDamage_applyHealing_frame_witness :
  positions (applyDamage "Goblin 1" 4
               (Resolved {| d_current_hp := 6; d_combat_ended := None |}) inCombat)
    = positions inCombat
  ∧ ∃ cs', combatState
             (applyDamage "Goblin 1" 4
                (Resolved {| d_current_hp := 6; d_combat_ended := None |}) inCombat)
           = Some cs'
           ∧ onlyTargetHp "Goblin 1" 6 skirmishState cs'.
Proof.
  destruct (applyDamage_applyHealing_frame "Goblin 1" 4 inCombat skirmishState)
    as (Hdamage & _).
  - vm_compute. reflexivity.
  - destruct (Hdamage {| d_current_hp := 6; d_combat_ended := None |})
      as ((Hpos & _) & _ & _ & Hcs).
    split; [exact Hpos|exact Hcs].
Defined.

(** * Further properties of the hook and its components *)

(** ** The set-up roster *)

Section setup_roster.
Implicit Types (st : State) (c : SetupCombatant).

Lemma filterIndexFrom_later {A : Type} (k j : nat) (l : list A) :
  (k < j)%nat → filterIndexFrom (λ i, negb (i =? k)%nat) j l = l.
Proof.
  revert j. induction l as [|a l IH]; intros j Hj; [done|].
  cbn [filterIndexFrom].
  destruct (Nat.eqb_spec j k) as [->|_]; [lia|].
  cbn [negb]. f_equal. apply IH. lia.
Qed.

Lemma filterIndexFrom_delete {A : Type} (k index : nat) (l : list A) :
  filterIndexFrom (λ i, negb (i =? k + index)%nat) k l = delete index l.
Proof.
  revert k index. induction l as [|a l IH]; intros k index; [done|].
  cbn [filterIndexFrom].
  destruct (Nat.eqb_spec k (k + index)) as [Heq|Hne]; cbn [negb].
  - assert (index = 0)%nat as -> by lia. rewrite Nat.add_0_r.
    apply filterIndexFrom_later. lia.
  - destruct index as [|index]; [lia|]. cbn [delete list_delete]. f_equal.
    replace (k + S index)%nat with (S k + index)%nat by lia. apply IH.
Qed.

Lemma setSetupCombatants_same st :
  setSetupCombatants (λ _, setupCombatants st) st = st.
Proof. by destruct st. Qed.

(** X1. [removeCombatant] takes out exactly the entry at the given index
    and keeps the others in order; an index past the end leaves the state as
    it is; removing the entry [addCombatant] has just added gives the roster
    back. *)
Theorem removeCombatant_drops_index index st :
  setupCombatants (removeCombatant index st)
    = take index (setupCombatants st) ++ drop (S index) (setupCombatants st)
  ∧ ((length (setupCombatants st) ≤ index)%nat → removeCombatant index st = st)
  ∧ ((index < length (setupCombatants st))%nat →
       S (length (setupCombatants (removeCombatant index st)))
       = length (setupCombatants st))
  ∧ (∀ c, setupCombatants
            (removeCombatant (length (setupCombatants st)) (addCombatant c st))
          = setupCombatants st).
Proof.
  assert (∀ s, setupCombatants (removeCombatant index s)
               = delete index (setupCombatants s)) as Hdel.
  { intros s. unfold removeCombatant. simpl.
    apply (filterIndexFrom_delete 0 index). }
  split; [|split; [|split]].
  - rewrite Hdel. apply delete_take_drop.
  - intros Hge. unfold removeCombatant.
    rewrite <- (setSetupCombatants_same st) at 2.
    unfold setSetupCombatants. f_equal.
    rewrite (filterIndexFrom_delete 0 index), delete_take_drop.
    rewrite take_ge, drop_ge, app_nil_r by lia. done.
  - intros Hlt. rewrite Hdel, length_delete by (by apply lookup_lt_is_Some_2).
    lia.
  - intros c. unfold removeCombatant, addCombatant. simpl.
    rewrite (filterIndexFrom_delete 0 (length (setupCombatants st))).
    rewrite delete_middle. apply app_nil_r.
Qed.
End setup_roster.

(** ** The form for monsters and NPCs *)

Section add_form.
Implicit Types (f : AddForm) (st : State).

Lemma append_empty_r (s : string) : s +:+ "" = s.
Proof.
  induction s as [|a s IH]; [done|].
  change (String a s +:+ "") with (String a (s +:+ "")). by rewrite IH.
Qed.

Lemma submittedCombatant_name_inj f i j :
  1 < f_count f →
  s_name (submittedCombatant f i) = s_name (submittedCombatant f j) → i = j.
Proof.
  intros Hcount. unfold submittedCombatant. simpl.
  apply Z.ltb_lt in Hcount. rewrite Hcount.
  intros Heq. apply (inj (String.app _)) in Heq.
  apply (inj (String.app _)) in Heq. apply (inj pretty) in Heq. lia.
Qed.

Lemma foldl_addCombatant st (l : list SetupCombatant) :
  setupCombatants (foldl (λ s c, addCombatant c s) st l) = setupCombatants st ++ l.
Proof.
  revert st. induction l as [|c l IH]; intros st; simpl.
  - by rewrite app_nil_r.
  - rewrite IH. simpl. by rewrite <- app_assoc.
Qed.

(** X2. Submitting the form with a non-empty name adds [count] combatants
    (none for a count below 1) at the end of the roster, in order; their
    names are pairwise distinct: the name itself for a count of 1, the name
    followed by a space and the numbers 1, 2, ... otherwise. *)
Theorem handleSubmit_distinct_names f st :
  f_trimmedName f ≠ "" →
  length (handleSubmit f) = Z.to_nat (f_count f)
  ∧ NoDup (s_name <$> handleSubmit f)
  ∧ (f_count f = 1 → s_name <$> handleSubmit f = [f_trimmedName f])
  ∧ (∀ i c, handleSubmit f !! i = Some c → 1 < f_count f →
       s_name c = f_trimmedName f +:+ " " +:+ pretty (Z.of_nat i + 1))
  ∧ setupCombatants (submitToSetup f st) = setupCombatants st ++ handleSubmit f.
Proof.
  intros Hname. unfold submitToSetup, handleSubmit.
  destruct (String.eqb_spec (f_trimmedName f) "") as [|_]; [done|].
  split; [|split; [|split; [|split]]].
  - by rewrite length_fmap, length_seq.
  - destruct (decide (1 < f_count f)) as [Hmany|Hfew].
    + rewrite <- list_fmap_compose. apply NoDup_fmap_2_strong; [|apply NoDup_seq].
      intros i j _ _ Heq. by apply (submittedCombatant_name_inj f).
    + destruct (Z.to_nat (f_count f)) as [|[|n]] eqn:Hn; [constructor| |lia].
      simpl. apply NoDup_singleton.
  - intros Hone. rewrite Hone. simpl. unfold submittedCombatant. simpl.
    rewrite Hone. simpl. f_equal. apply append_empty_r.
  - intros i c Hi Hmany. rewrite list_lookup_fmap in Hi.
    destruct (seq 0 (Z.to_nat (f_count f)) !! i) as [k|] eqn:Hk; [|done].
    apply lookup_seq in Hk as [-> _]. injection Hi as <-.
    unfold submittedCombatant. simpl. apply Z.ltb_lt in Hmany. by rewrite Hmany.
  - apply foldl_addCombatant.
Qed.

(** An empty name adds nothing. *)
Lemma handleSubmit_empty_name f :
  f_trimmedName f = "" → handleSubmit f = [].
Proof. intros Hname. unfold handleSubmit. by rewrite Hname. Qed.
End add_form.

Section players.
Implicit Types (st : State) (p : Player).

(** X3. [addFromPlayers] appends one entry per player who has an active
    character, in the order of the players, and skips the others; each entry
    is a player entry with armour class 15 whose hit points and maximum are
    never 0, a stored 0 or a missing value being replaced by 10. *)
Theorem addFromPlayers_entries (players : list Player) st :
  ∃ new,
    setupCombatants (addFromPlayers players st) = setupCombatants st ++ new
    ∧ length new = length (filter (λ p, is_Some (active_pc p)) players)
    ∧ s_name <$> new = omap (λ p, pc_name <$> active_pc p) players
    ∧ Forall (λ c, s_is_player c = true ∧ s_is_npc c = false ∧ s_ac c = 15
                   ∧ s_hp c ≠ 0 ∧ s_max_hp c ≠ 0) new
    ∧ (∀ p pc, p ∈ players → active_pc p = Some pc →
         pc_hp pc = Some 0 ∨ pc_hp pc = None →
         ∃ c, c ∈ new ∧ s_name c = pc_name pc ∧ s_hp c = 10).
Proof.
  eexists. split; [reflexivity|]. split; [|split; [|split]].
  - induction players as [|p players IH]; [done|].
    rewrite filter_cons. cbn [omap list_omap].
    destruct (decide (is_Some (active_pc p))) as [[pc Hpc]|Hnone].
    + rewrite Hpc. simpl. by rewrite IH.
    + destruct (active_pc p) as [pc|]; [exfalso; eauto|]. simpl. exact IH.
  - induction players as [|p players IH]; [done|].
    cbn [omap list_omap]. destruct (active_pc p) as [pc|]; simpl.
    + f_equal. exact IH.
    + exact IH.
  - apply Forall_forall. intros c Hc.
    apply list_elem_of_omap in Hc as (p & _ & Hp).
    destruct (active_pc p) as [pc|]; [|done]. injection Hp as <-. simpl.
    repeat split; try done; unfold or_number.
    + destruct (pc_hp pc) as [v|]; [|done].
      destruct (Z.eqb_spec v 0); [done|done].
    + destruct (pc_max_hp pc) as [v|]; [|done].
      destruct (Z.eqb_spec v 0); [done|done].
  - intros p pc Hp Hpc Hzero. exists (playerCombatantOf p pc).
    split; [|split; [done|]].
    + apply list_elem_of_omap. exists p. split; [done|]. by rewrite Hpc.
    + simpl. by destruct Hzero as [-> | ->].
Qed.
End players.

(** ** The combatant on turn *)

Section turn_index.
Implicit Types (l : list Combatant) (n : string).

Lemma turnIndex_found n l i :
  findIndexByName n l = Some i →
  ∃ c, l !! i = Some c ∧ name c = n
       ∧ ∀ j d, (j < i)%nat → l !! j = Some d → name d ≠ n.
Proof.
  unfold findIndexByName. intros Hf.
  destruct (list_find (λ c, name c = n) l) as [[k c]|] eqn:Hfind; [|done].
  injection Hf as ->. apply list_find_Some in Hfind as (Hl & Hn & Hbefore).
  exists c. repeat split; [done..|]. intros j d Hj Hd. eauto.
Qed.

Lemma turnIndex_missing n l :
  findIndexByName n l = None → ∀ c, c ∈ l → name c ≠ n.
Proof.
  unfold findIndexByName. intros Hf.
  destruct (list_find (λ c, name c = n) l) as [[k c]|] eqn:Hfind; [done|].
  apply list_find_None in Hfind. rewrite Forall_forall in Hfind. auto.
Qed.

(** The index points at the first combatant of that name, and is 0 when no
    combatant has it; on a non-empty list it is always in range. *)
Lemma turnIndex_spec n l :
  ((∃ c, l !! turnIndex n l = Some c ∧ name c = n
         ∧ ∀ j d, (j < turnIndex n l)%nat → l !! j = Some d → name d ≠ n)
   ∨ (turnIndex n l = 0%nat ∧ ∀ c, c ∈ l → name c ≠ n))
  ∧ (l ≠ [] → (turnIndex n l < length l)%nat).
Proof.
  unfold turnIndex.
  destruct (findIndexByName n l) as [i|] eqn:Hf; simpl.
  - destruct (turnIndex_found n l i Hf) as (c & Hl & Hn & Hb).
    split; [left; eauto|]. intros _. by eapply lookup_lt_Some.
  - split; [right; split; [done|by apply turnIndex_missing]|].
    intros Hne. destruct l; [done|simpl; lia].
Qed.
End turn_index.

Section turn_pointer.
Implicit Types (st : State) (res : StartResult).

Lemma startCombat_combatState onNPCTurn res st :
  combatState (startCombat onNPCTurn (Resolved res) st)
  = Some {| round := r_round res;
            initiative_order := combatantOfStart <$> r_initiative_order res;
            current_turn_idx :=
              turnIndex (r_current_turn res)
                (combatantOfStart <$> r_initiative_order res);
            active := true; current_turn_type := None;
            current_is_npc := Some (r_current_is_npc res) |}.
Proof.
  unfold startCombat.
  set (sd := emitCombatMessage _ _ _ _ _).
  assert (combatState sd = Some
            {| round := r_round res;
               initiative_order := combatantOfStart <$> r_initiative_order res;
               current_turn_idx :=
                 turnIndex (r_current_turn res)
                   (combatantOfStart <$> r_initiative_order res);
               active := true; current_turn_type := None;
               current_is_npc := Some (r_current_is_npc res) |}) as Hsd
    by (unfold sd; by rewrite emitCombatMessage_combatState).
  destruct (r_npc_turn_results res) as [[|t ts]|]; simpl;
    try (destruct (pendingNPCTurnsRef sd); exact Hsd); exact Hsd.
Qed.

(** X4. After a start the server accepted and after a status refresh, the
    turn pointer is the index of the first listed combatant that bears the
    name the server gave for the current turn; when no listed combatant
    bears it, the pointer is 0.  On a non-empty order the pointer never
    leaves the list. *)
Theorem turn_pointer_first_match_or_zero onNPCTurn res status st :
  (∃ cs, combatState (startCombat onNPCTurn (Resolved res) st) = Some cs
         ∧ name <$> initiative_order cs = w_name <$> r_initiative_order res
         ∧ current_turn_idx cs
           = turnIndex (r_current_turn res) (initiative_order cs)
         ∧ (initiative_order cs ≠ [] →
              (current_turn_idx cs < length (initiative_order cs))%nat))
  ∧ (∃ cs, combatState (refreshStatus (Resolved (StatusOf status)) st) = Some cs
           ∧ name <$> initiative_order cs = w_name <$> cs_initiative_order status
           ∧ current_turn_idx cs
             = turnIndex (cs_current_name status) (initiative_order cs)
           ∧ (initiative_order cs ≠ [] →
                (current_turn_idx cs < length (initiative_order cs))%nat))
  ∧ (∀ n l,
       ((∃ c, l !! turnIndex n l = Some c ∧ name c = n
              ∧ ∀ j d, (j < turnIndex n l)%nat → l !! j = Some d → name d ≠ n)
        ∨ (turnIndex n l = 0%nat ∧ ∀ c, c ∈ l → name c ≠ n))).
Proof.
  split; [|split].
  - eexists. split; [apply startCombat_combatState|]. simpl.
    split; [by rewrite <- list_fmap_compose|]. split; [done|].
    apply turnIndex_spec.
  - eexists. split; [reflexivity|]. simpl.
    split; [by rewrite <- list_fmap_compose|]. split; [done|].
    apply turnIndex_spec.
  - intros n l. apply turnIndex_spec.
Qed.
End turn_pointer.

(** ** The combat log *)

Section log_growth.
Implicit Types (st : State) (new : list CombatLogEntry).

Lemma logGrowsBy_same st st' :
  combatLog st' = combatLog st → logIdRef st' = logIdRef st →
  logGrowsBy [] st st'.
Proof.
  intros Hlog Hid. split; [by rewrite app_nil_r|]. split; [simpl; lia|done].
Qed.

Lemma logGrowsBy_trans new1 new2 st1 st2 st3 :
  logGrowsBy new1 st1 st2 → logGrowsBy new2 st2 st3 →
  logGrowsBy (new1 ++ new2) st1 st3.
Proof.
  intros (Hlog1 & Hid1 & Hk1) (Hlog2 & Hid2 & Hk2). split; [|split].
  - by rewrite Hlog2, Hlog1, app_assoc.
  - rewrite Hid2, Hid1, length_app. lia.
  - intros k e Hk. apply lookup_app_Some in Hk as [Hk|[Hge Hk]]; [auto|].
    rewrite (Hk2 _ _ Hk), Hid1. lia.
Qed.

Lemma logGrowsBy_frame new st st' (f : State → State) :
  (∀ s, combatLog (f s) = combatLog s ∧ logIdRef (f s) = logIdRef s) →
  logGrowsBy new st st' → logGrowsBy new st (f st').
Proof.
  intros Hf (Hlog & Hid & Hk). destruct (Hf st') as [Hl Hi].
  unfold logGrowsBy. by rewrite Hl, Hi.
Qed.

Lemma sorted_app_lt (l1 l2 : list Z) :
  StronglySorted Z.lt l1 → StronglySorted Z.lt l2 →
  (∀ a b, a ∈ l1 → b ∈ l2 → a < b) →
  StronglySorted Z.lt (l1 ++ l2).
Proof.
  intros Hs1 Hs2 Hlt. induction Hs1 as [|a l1 Hs1 IH Ha]; [done|].
  simpl. constructor.
  - apply IH. intros c b Hc Hb. apply Hlt; [by right|done].
  - apply Forall_app. split; [done|].
    apply Forall_forall. intros b Hb. apply Hlt; [by left|done].
Qed.

Lemma numbered_ids_sorted new (base : Z) :
  (∀ k e, new !! k = Some e → id e = base + Z.of_nat k) →
  StronglySorted Z.lt (id <$> new).
Proof.
  revert base. induction new as [|e new IH]; intros base Hk; [constructor|].
  simpl. constructor.
  - apply (IH (base + 1)). intros k e' He'.
    rewrite (Hk (S k) e') by done. lia.
  - apply Forall_fmap, Forall_lookup. intros k e' He'. simpl.
    rewrite (Hk 0%nat e), (Hk (S k) e') by done. lia.
Qed.

Lemma emitCombatMessage_grows onNPCTurn kind content round_no st :
  logGrowsBy [systemEntry (logIdRef st + 1) content] st
    (emitCombatMessage onNPCTurn kind content round_no st).
Proof.
  unfold emitCombatMessage, logGrowsBy.
  destruct onNPCTurn; simpl; (split; [done|split; [lia|]]);
    intros [|k] e; try done; intros [= <-]; simpl; lia.
Qed.

Lemma slowRollNPCTurns_grows onNPCTurn getStatus npcTurns st :
  logGrowsBy (batchEntries (logIdRef st) npcTurns) st
    (slowRollNPCTurns onNPCTurn getStatus npcTurns st).
Proof.
  destruct (slowRollFrom_log onNPCTurn getStatus 0 npcTurns st)
    as (Hlog & Hid & _).
  unfold slowRollNPCTurns, logGrowsBy. simpl.
  split; [done|]. unfold batchEntries at 1. rewrite length_imap.
  split; [done|].
  intros k e Hk. unfold batchEntries in Hk. rewrite list_lookup_imap in Hk.
  destruct (npcTurns !! k); [|done]. by injection Hk as <-.
Qed.

(** Growth of the log keeps the identifiers increasing and below the
    counter. *)
Lemma logGrowsBy_ok new st st' :
  logIdsOk st → logGrowsBy new st st' → logIdsOk st'.
Proof.
  intros [Hsorted Hbound] (Hlog & Hid & Hk).
  assert (Forall (λ e, logIdRef st < id e ≤ logIdRef st') new) as Hnew.
  { apply Forall_lookup. intros k e He. rewrite (Hk _ _ He), Hid.
    apply lookup_lt_Some in He. lia. }
  split.
  - rewrite Hlog, fmap_app. apply sorted_app_lt; [done| |].
    + apply (numbered_ids_sorted new (logIdRef st + 1)).
      intros k e He. rewrite (Hk _ _ He). lia.
    + intros a b Ha Hb.
      apply list_elem_of_fmap in Ha as (ea & -> & Ha).
      apply list_elem_of_fmap in Hb as (eb & -> & Hb).
      rewrite Forall_forall in Hbound, Hnew.
      specialize (Hbound _ Ha). specialize (Hnew _ Hb). lia.
  - rewrite Hlog. apply Forall_app. split.
    + eapply Forall_impl; [exact Hbound|]. simpl. intros e He. lia.
    + eapply Forall_impl; [exact Hnew|]. simpl. intros e He. lia.
Qed.
End log_growth.

Section log_of_handlers.
Implicit Types (st : State).

Lemma displayNPCTurn_grows onNPCTurn t st :
  logGrowsBy [npcLogEntry (logIdRef st + 1) t] st (displayNPCTurn onNPCTurn t st).
Proof.
  destruct (displayNPCTurn_log onNPCTurn t st) as (Hlog & Hid & _).
  split; [done|]. split; [simpl; lia|].
  intros [|k] e; [|done]. intros [= <-]. simpl. lia.
Qed.

Lemma afterTurn_grows onNPCTurn getStatus previousRound res s st :
  logGrowsBy (nextTurnEntries (logIdRef st) previousRound res s) st
    (afterTurn onNPCTurn getStatus previousRound res (StatusOf s) st).
Proof.
  unfold afterTurn, nextTurnEntries.
  set (sa := setCombatState _ st).
  set (turns := default [] (tr_npc_turn_results res)).
  set (sb := match tr_npc_turn_results res with
             | Some (t :: ts) => slowRollNPCTurns onNPCTurn getStatus (t :: ts) sa
             | _ => sa
             end).
  assert (logGrowsBy (batchEntries (logIdRef st) turns) st sb) as Hb.
  { unfold sb, turns. destruct (tr_npc_turn_results res) as [[|t ts]|]; simpl.
    - by apply logGrowsBy_same.
    - apply (slowRollNPCTurns_grows onNPCTurn getStatus (t :: ts) sa).
    - by apply logGrowsBy_same. }
  assert (logIdRef sb = logIdRef st + Z.of_nat (length (batchEntries (logIdRef st) turns)))
    as Hidb by apply Hb.
  set (sc := if or_number (Some previousRound) 1 <? cs_round s then _ else sb).
  set (newRound := if or_number (Some previousRound) 1 <? cs_round s then _ else []).
  assert (logGrowsBy newRound sb sc) as Hc.
  { unfold sc, newRound. destruct (_ <? _).
    - rewrite <- Hidb. apply emitCombatMessage_grows.
    - by apply logGrowsBy_same. }
  assert (logIdRef sc
          = logIdRef st + Z.of_nat (length (batchEntries (logIdRef st) turns))
            + Z.of_nat (length newRound)) as Hidc.
  { destruct Hc as (_ & -> & _). by rewrite Hidb. }
  eapply logGrowsBy_trans; [exact Hb|].
  eapply logGrowsBy_trans; [exact Hc|].
  destruct (negb (tr_combat_active res) && truthy_string (tr_combat_ended_reason res)).
  - rewrite <- Hidc. apply emitCombatMessage_grows.
  - by apply logGrowsBy_same.
Qed.

(** X5. With a combat going on, an accepted turn and an active status,
    [nextTurn] appends to the log, in this order: one entry per AI turn of
    the batch, then "Round n" when the round of the status is greater than
    the round at the call (0 counting as 1), then "Combat ended: ..." when
    the answer reports an inactive combat with a reason.  The entries are
    numbered on from the counter.  In every other case the log stays as it
    is. *)
Theorem nextTurn_log onNPCTurn endTurnReply statusReply getStatus st :
  match combatState st, endTurnReply, statusReply with
  | Some cs, Resolved res, Resolved (StatusOf s) =>
      if cs_active s
      then logGrowsBy (nextTurnEntries (logIdRef st) (round cs) res s) st
             (nextTurn onNPCTurn endTurnReply statusReply getStatus st)
      else logGrowsBy [] st
             (nextTurn onNPCTurn endTurnReply statusReply getStatus st)
  | _, _, _ =>
      logGrowsBy [] st (nextTurn onNPCTurn endTurnReply statusReply getStatus st)
  end.
Proof.
  unfold nextTurn.
  destruct (combatState st) as [cs|]; [|by apply logGrowsBy_same].
  destruct endTurnReply as [res|msg]; [|by apply logGrowsBy_same].
  destruct statusReply as [[msg|s]|msg]; try (by apply logGrowsBy_same).
  simpl. destruct (cs_active s); simpl; [|by apply logGrowsBy_same].
  apply (logGrowsBy_frame _ _ _ (setIsLoading false)); [done|].
  apply (afterTurn_grows onNPCTurn getStatus (round cs) res s
           (setError None (setIsLoading true st))).
Qed.

Lemma nextTurn_grows onNPCTurn endTurnReply statusReply getStatus st :
  ∃ new,
    logGrowsBy new st (nextTurn onNPCTurn endTurnReply statusReply getStatus st).
Proof.
  unfold nextTurn.
  destruct (combatState st) as [cs|]; [|eexists; by apply logGrowsBy_same].
  destruct endTurnReply as [res|msg]; [|eexists; by apply logGrowsBy_same].
  destruct statusReply as [[msg|s]|msg]; try (eexists; by apply logGrowsBy_same).
  simpl. destruct (cs_active s); simpl; [|eexists; by apply logGrowsBy_same].
  eexists. apply (logGrowsBy_frame _ _ _ (setIsLoading false)); [done|].
  apply (afterTurn_grows onNPCTurn getStatus (round cs) res s
           (setError None (setIsLoading true st))).
Qed.

Lemma endCombat_grows onNPCTurn reply st :
  logGrowsBy
    [systemEntry (logIdRef st + 1)
       match reply with
       | Resolved summary => endMessage summary
       | Rejected _ => "Combat ended"
       end] st (endCombat onNPCTurn reply st).
Proof.
  unfold endCombat.
  do 5 (apply (logGrowsBy_frame _ _ _ (λ s, _ s)); [done|]).
  destruct reply;
    apply (emitCombatMessage_grows onNPCTurn combat_end _ None (setIsLoading true st)).
Qed.

Lemma revealPending_grows onNPCTurn getStatus st :
  logGrowsBy
    (match combatState st, pendingNPCTurnsRef st with
     | Some _, Some turns => batchEntries (logIdRef st) turns
     | _, _ => []
     end) st (revealPending onNPCTurn getStatus st).
Proof.
  unfold revealPending.
  destruct (combatState st); [|by apply logGrowsBy_same].
  destruct (pendingNPCTurnsRef st) as [turns|]; [|by apply logGrowsBy_same].
  apply (logGrowsBy_frame _ _ _ (setIsLoading false)); [done|].
  apply (slowRollNPCTurns_grows onNPCTurn getStatus turns
           (emit (Sleep 500) (setPendingNPCTurnsRef None st))).
Qed.

Lemma startCombat_log onNPCTurn reply st :
  combatLog (startCombat onNPCTurn reply st)
  = match reply with
    | Resolved res =>
        [systemEntry (logIdRef st + 1)
           ("Combat begins! Round " +:+ pretty (r_round res))]
    | Rejected _ => []
    end
  ∧ logIdRef (startCombat onNPCTurn reply st)
    = match reply with
      | Resolved _ => logIdRef st + 1
      | Rejected _ => logIdRef st
      end.
Proof.
  unfold startCombat. destruct reply as [res|msg].
  - set (sd := emitCombatMessage _ _ _ _ _).
    assert (combatLog sd
            = [systemEntry (logIdRef st + 1)
                 ("Combat begins! Round " +:+ pretty (r_round res))]
            ∧ logIdRef sd = logIdRef st + 1) as [Hl Hi].
    { unfold sd, emitCombatMessage. by destruct onNPCTurn. }
    destruct (r_npc_turn_results res) as [[|t ts]|]; simpl;
      try (destruct (pendingNPCTurnsRef sd); by split); by split.
  - simpl. by destruct (pendingNPCTurnsRef st).
Qed.

(** X6. The identifiers of the log entries, which the log view uses as keys,
    stay strictly increasing and at most the counter under every handler
    that writes to the log; [startCombat] empties the log and restores this
    even from a state where it does not hold. *)
Theorem log_ids_increasing onNPCTurn st :
  (∀ reply, logIdsOk (startCombat onNPCTurn reply st))
  ∧ (logIdsOk st →
     (∀ kind content round_no,
        logIdsOk (emitCombatMessage onNPCTurn kind content round_no st))
     ∧ (∀ t, logIdsOk (displayNPCTurn onNPCTurn t st))
     ∧ (∀ getStatus npcTurns,
          logIdsOk (slowRollNPCTurns onNPCTurn getStatus npcTurns st))
     ∧ (∀ getStatus, logIdsOk (revealPending onNPCTurn getStatus st))
     ∧ (∀ endTurnReply statusReply getStatus,
          logIdsOk (nextTurn onNPCTurn endTurnReply statusReply getStatus st))
     ∧ (∀ reply, logIdsOk (endCombat onNPCTurn reply st))).
Proof.
  split.
  - intros reply. destruct (startCombat_log onNPCTurn reply st) as [Hl Hi].
    unfold logIdsOk. rewrite Hl, Hi. destruct reply; simpl.
    + split; repeat constructor. simpl. lia.
    + split; constructor.
  - intros Hok.
    split; [|split; [|split; [|split; [|split]]]]; intros.
    + eapply logGrowsBy_ok; [done|apply emitCombatMessage_grows].
    + eapply logGrowsBy_ok; [done|apply displayNPCTurn_grows].
    + eapply logGrowsBy_ok; [done|apply slowRollNPCTurns_grows].
    + eapply logGrowsBy_ok; [done|apply revealPending_grows].
    + destruct (nextTurn_grows onNPCTurn endTurnReply statusReply getStatus st)
        as [new Hnew].
      eapply logGrowsBy_ok; [done|exact Hnew].
    + eapply logGrowsBy_ok; [done|apply endCombat_grows].
Qed.
End log_of_handlers.

(** ** Advancing the turn and ending the combat *)

Section turn_handlers.
Implicit Types (st : State).

Lemma sameOutsideLog_trans st1 st2 st3 :
  sameOutsideLog st1 st2 → sameOutsideLog st2 st3 → sameOutsideLog st1 st3.
Proof.
  unfold sameOutsideLog. intros (?&?&?&?&?&?&?&?) (?&?&?&?&?&?&?&?).
  repeat split; congruence.
Qed.

Lemma emitCombatMessage_outside onNPCTurn kind content round_no st :
  sameOutsideLog st (emitCombatMessage onNPCTurn kind content round_no st)
  ∧ combatState (emitCombatMessage onNPCTurn kind content round_no st)
    = combatState st.
Proof. unfold emitCombatMessage. by destruct onNPCTurn. Qed.

Lemma slowRollFrom_outside onNPCTurn getStatus i npcTurns st :
  sameOutsideLog st (slowRollFrom onNPCTurn getStatus i npcTurns st).
Proof.
  revert i st. induction npcTurns as [|t rest IH]; intros i st; [done|].
  cbn [slowRollFrom]. eapply sameOutsideLog_trans; [|apply IH].
  destruct (getStatus i) as [[msg|status]|msg], onNPCTurn, (0 <? i)%nat; done.
Qed.

Lemma afterTurn_outside onNPCTurn getStatus previousRound res status st :
  sameOutsideLog st (afterTurn onNPCTurn getStatus previousRound res status st).
Proof.
  unfold afterTurn.
  set (sa := match status with StatusOf _ => _ | StatusNone _ => st end).
  assert (sameOutsideLog st sa) as Ha by (unfold sa; by destruct status).
  set (sb := match tr_npc_turn_results res with
             | Some (t :: ts) => _
             | _ => sa
             end).
  assert (sameOutsideLog st sb) as Hb.
  { unfold sb. destruct (tr_npc_turn_results res) as [[|t ts]|]; try done.
    eapply sameOutsideLog_trans; [exact Ha|].
    unfold slowRollNPCTurns.
    eapply sameOutsideLog_trans; [apply slowRollFrom_outside|done]. }
  set (sc := match status with StatusOf _ => _ | StatusNone _ => sb end).
  assert (sameOutsideLog st sc) as Hc.
  { unfold sc. destruct status as [msg|s]; [done|].
    destruct (_ <? _); [|done].
    eapply sameOutsideLog_trans; [exact Hb|apply emitCombatMessage_outside]. }
  destruct (_ && _); [|done].
  eapply sameOutsideLog_trans; [exact Hc|apply emitCombatMessage_outside].
Qed.

(** X7. [nextTurn] does nothing without a combat.  With one, it always ends
    with the loading flag down and never touches the positions, the grid or
    the selection.  A status that reports the combat inactive clears the
    combat state and the set-up roster but leaves the tokens on the map; a
    rejected request keeps the combat state and records the text of the
    rejection. *)
Theorem nextTurn_state onNPCTurn endTurnReply statusReply getStatus st :
  let st' := nextTurn onNPCTurn endTurnReply statusReply getStatus st in
  (combatState st = None → st' = st)
  ∧ (is_Some (combatState st) →
     isLoading st' = false
     ∧ positions st' = positions st ∧ gridSize st' = gridSize st
     ∧ selectedToken st' = selectedToken st
     ∧ match endTurnReply, statusReply with
       | Resolved res, Resolved status =>
           error st' = None
           ∧ if statusInactive status
             then combatState st' = None ∧ setupCombatants st' = []
             else setupCombatants st' = setupCombatants st
       | Resolved _, Rejected msg | Rejected msg, _ =>
           combatState st' = combatState st
           ∧ setupCombatants st' = setupCombatants st
           ∧ error st' = Some (errorText msg "Failed to advance turn")
       end).
Proof.
  intros st'. subst st'. unfold nextTurn. split.
  - by intros ->.
  - intros [cs Hcs]. rewrite Hcs.
    destruct endTurnReply as [res|msg]; [|done].
    destruct statusReply as [status|msg]; [|done].
    destruct (statusInactive status); [done|].
    destruct (afterTurn_outside onNPCTurn getStatus (round cs) res status
                (setError None (setIsLoading true st)))
      as (Hp & Hg & Hs & Hsetup & Herr & _).
    simpl. by rewrite Hp, Hg, Hs, Hsetup, Herr.
Qed.
End turn_handlers.

Section end_combat.
Implicit Types (st : State).

(** X8. [endCombat] resets the hook whatever the server answers, also when
    the request is rejected: no combat state, an empty roster, an empty map,
    no selection, the loading flag down.  It appends one system entry, which
    names the survivors, or "None" when there is none, or reads "Combat
    ended" after a rejection.  With the roster empty, combat cannot be
    started again before combatants are added. *)
Theorem endCombat_resets onNPCTurn reply st :
  let st' := endCombat onNPCTurn reply st in
  combatState st' = None ∧ setupCombatants st' = [] ∧ positions st' = ∅
  ∧ selectedToken st' = None ∧ isLoading st' = false
  ∧ combatLog st'
    = combatLog st
      ++ [systemEntry (logIdRef st + 1)
            match reply with
            | Resolved summary => endMessage summary
            | Rejected _ => "Combat ended"
            end]
  ∧ (∀ rounds, endMessage {| sum_rounds := rounds; sum_survivors := [] |}
               = "Combat ended after " +:+ pretty rounds
                 +:+ " rounds. Survivors: None")
  ∧ (∀ startReply, clickStartCombat onNPCTurn startReply st' = None).
Proof.
  intros st'. subst st'.
  split; [done|]. split; [done|]. split; [done|]. split; [done|]. split; [done|].
  split; [|split].
  - apply endCombat_grows.
  - intros rounds. reflexivity.
  - intros startReply. reflexivity.
Qed.
End end_combat.

(** ** Adding and removing combatants during combat *)

Section mid_combat.
Implicit Types (st : State) (p : GridPosition).

Lemma refreshRoster_board status st :
  positions (refreshRoster status st) = positions st
  ∧ gridSize (refreshRoster status st) = gridSize st
  ∧ error (refreshRoster status st) = error st.
Proof. by destruct status. Qed.

(** X9. With a combat going on, a removal the server accepted deletes the
    name from the map whatever becomes of the status refresh, and changes no
    other entry: the positions stay valid and any other combatant can then
    be moved onto the freed cell.  A removal the server rejected leaves the
    map as it is and records the text of the rejection. *)
Theorem removeCombatantMidCombat_frees_cell nm statusReply st p :
  is_Some (combatState st) →
  positions st !! nm = Some p →
  positionsValid (gridSize st) (positions st) →
  let st' := removeCombatantMidCombat nm (Resolved ()) statusReply st in
  positions st' = delete nm (positions st)
  ∧ gridSize st' = gridSize st
  ∧ positionsValid (gridSize st') (positions st')
  ∧ (∀ other, other ≠ nm →
       ∃ st'' pm,
         moveCombatant other (x p) (y p) st' = (st'', Some pm)
         ∧ positions st'' !! other = Some p)
  ∧ (∀ msg,
       positions (removeCombatantMidCombat nm (Rejected msg) statusReply st)
         = positions st
       ∧ error (removeCombatantMidCombat nm (Rejected msg) statusReply st)
         = Some (errorText msg "Failed to remove combatant")).
Proof.
  intros [cs Hcs] Hp Hvalid st'.
  assert (positions st' = delete nm (positions st) ∧ gridSize st' = gridSize st)
    as [Hpos Hgrid].
  { subst st'. unfold removeCombatantMidCombat. rewrite Hcs.
    destruct statusReply as [status|msg]; [|done].
    destruct (refreshRoster_board status
                (setPositions (λ prev, delete nm prev) st)) as (-> & -> & _).
    done. }
  split; [done|]. split; [done|]. split; [|split].
  - rewrite Hpos, Hgrid. by apply positionsValid_delete.
  - intros other Hne. unfold moveCombatant. rewrite Hgrid, Hpos.
    destruct Hvalid as [Hin Hx]. destruct p as [px py]. simpl.
    assert (outOfBounds (gridSize st) px py = false) as ->
      by (apply outOfBounds_false; eauto).
    assert (occupiedByOther (delete nm (positions st)) other px py = false) as ->.
    { apply occupiedByOther_false. intros n Hl.
      apply lookup_delete_Some in Hl as [Hn Hl].
      destruct Hn. by apply (Hx _ _ _ Hp Hl). }
    do 2 eexists. split; [reflexivity|]. simpl. rewrite Hpos.
    apply lookup_insert_eq.
  - intros msg. unfold removeCombatantMidCombat. by rewrite Hcs.
Qed.

Lemma placeAdded_cases result combatant cx cy (prev : gmap string GridPosition) :
  (∃ rx ry, a_x result = Some rx ∧ a_y result = Some ry
            ∧ placeAdded result combatant cx cy prev
              = <[a_name result := {| x := rx; y := ry |}]> prev)
  ∨ (¬ (is_Some (a_x result) ∧ is_Some (a_y result))
     ∧ ∃ qx qy, cx = Some qx ∧ cy = Some qy
                ∧ placeAdded result combatant cx cy prev
                  = <[s_name combatant := {| x := qx; y := qy |}]> prev)
  ∨ (¬ (is_Some (a_x result) ∧ is_Some (a_y result))
     ∧ ¬ (is_Some cx ∧ is_Some cy)
     ∧ placeAdded result combatant cx cy prev = prev).
Proof.
  unfold placeAdded.
  destruct (a_x result) as [rx|], (a_y result) as [ry|];
    [left; eauto|..];
    (right; destruct cx as [qx|], cy as [qy|];
     [left|right..]; (split; [by intros [[? ?] [? ?]]|]);
     eauto; (split; [by intros [[? ?] [? ?]]|done])).
Qed.

(** X10. With a combat going on and both requests accepted,
    [addCombatantMidCombat] writes at most one entry of the map: under the
    name and at the cell of the server's answer when that has both
    coordinates, else under the added name at the requested cell, else
    nothing.  The cell is not checked: the positions stay valid exactly when
    it lies in the grid and no other name holds it.  When either request is
    rejected, the map and the combat state stay as they are and the text of
    the rejection is recorded. *)
Theorem addCombatantMidCombat_position combatant cx cy result status st :
  is_Some (combatState st) →
  let st' := addCombatantMidCombat combatant cx cy (Resolved result)
               (Resolved status) st in
  positions st' = placeAdded result combatant cx cy (positions st)
  ∧ gridSize st' = gridSize st
  ∧ ((∃ n p, positions st' = <[n := p]> (positions st)
             ∧ (n, p) = match a_x result, a_y result with
                        | Some rx, Some ry => (a_name result, {| x := rx; y := ry |})
                        | _, _ => (s_name combatant,
                                    {| x := default 0 cx; y := default 0 cy |})
                        end
             ∧ (positionsValid (gridSize st) (positions st) →
                (inBounds (gridSize st) p
                 ∧ ∀ other, positions st !! other = Some p → other = n)
                ↔ positionsValid (gridSize st') (positions st')))
     ∨ positions st' = positions st)
  ∧ (∀ msg reply,
       positions (addCombatantMidCombat combatant cx cy (Rejected msg) reply st)
         = positions st
       ∧ combatState (addCombatantMidCombat combatant cx cy (Rejected msg) reply st)
         = combatState st
       ∧ error (addCombatantMidCombat combatant cx cy (Rejected msg) reply st)
         = Some (errorText msg "Failed to add combatant"))
  ∧ (∀ msg,
       positions (addCombatantMidCombat combatant cx cy (Resolved result)
                    (Rejected msg) st) = positions st
       ∧ combatState (addCombatantMidCombat combatant cx cy (Resolved result)
                        (Rejected msg) st) = combatState st
       ∧ error (addCombatantMidCombat combatant cx cy (Resolved result)
                  (Rejected msg) st)
         = Some (errorText msg "Failed to add combatant")).
Proof.
  intros [cs Hcs] st'.
  assert (positions st' = placeAdded result combatant cx cy (positions st)
          ∧ gridSize st' = gridSize st) as [Hpos Hgrid].
  { subst st'. unfold addCombatantMidCombat. rewrite Hcs. simpl.
    by destruct (refreshRoster_board status st) as (-> & -> & _). }
  split; [done|]. split; [done|]. split; [|split].
  - rewrite Hpos, Hgrid.
    assert (∀ n p, positionsValid (gridSize st) (positions st) →
              (inBounds (gridSize st) p
               ∧ ∀ other, positions st !! other = Some p → other = n)
              ↔ positionsValid (gridSize st) (<[n := p]> (positions st)))
      as Hiff.
    { intros n p Hvalid. split.
      - intros [Hin Hfree]. by apply positionsValid_insert.
      - intros [Hin Hx]. split.
        + apply (Hin n). apply lookup_insert_eq.
        + intros other Hl. destruct (decide (other = n)) as [|Hne]; [done|].
          apply (Hx other n p); [by rewrite lookup_insert_ne|].
          apply lookup_insert_eq. }
    destruct (placeAdded_cases result combatant cx cy (positions st))
      as [(rx & ry & Hx & Hy & ->)|[(Hno & qx & qy & -> & -> & ->)|(_ & _ & ->)]].
    + left. do 2 eexists. split; [reflexivity|]. rewrite Hx, Hy.
      split; [reflexivity|]. apply Hiff.
    + left. do 2 eexists. split; [reflexivity|]. split; [|apply Hiff].
      destruct (a_x result), (a_y result); try done. exfalso. eauto.
    + by right.
  - intros msg reply. unfold addCombatantMidCombat. by rewrite Hcs.
  - intros msg. unfold addCombatantMidCombat. by rewrite Hcs.
Qed.
End mid_combat.

(** ** The turns queued at the start *)

Section queued_turns.
Implicit Types (st : State) (res : StartResult).

Lemma startCombat_queue onNPCTurn res st t ts :
  r_npc_turn_results res = Some (t :: ts) →
  pendingNPCTurnsRef (startCombat onNPCTurn (Resolved res) st) = Some (t :: ts)
  ∧ isLoading (startCombat onNPCTurn (Resolved res) st) = true.
Proof.
  intros Hq. unfold startCombat. rewrite Hq.
  set (sd := emitCombatMessage _ _ _ _ _).
  assert (isLoading sd = true) as Hl
    by (unfold sd, emitCombatMessage; by destruct onNPCTurn).
  done.
Qed.

Lemma startCombat_no_queue onNPCTurn res st :
  (r_npc_turn_results res = None ∨ r_npc_turn_results res = Some []) →
  pendingNPCTurnsRef st = None →
  pendingNPCTurnsRef (startCombat onNPCTurn (Resolved res) st) = None
  ∧ isLoading (startCombat onNPCTurn (Resolved res) st) = false.
Proof.
  intros Hq Hnone. unfold startCombat.
  set (sd := emitCombatMessage _ _ _ _ _).
  assert (pendingNPCTurnsRef sd = None) as Hp.
  { unfold sd. by rewrite emitCombatMessage_pendingNPCTurnsRef. }
  destruct Hq as [-> | ->]; by rewrite Hp.
Qed.

(** X11. When the server answers the start with a batch of AI turns,
    [startCombat] queues the batch and keeps the loading flag up; the effect
    then reveals the batch after the opening message of the log, numbered on
    from it, empties the queue and takes the flag down, so that a second run
    of the effect does nothing.  Without a batch (and with an empty queue)
    the flag is down at once and the effect does nothing. *)
Theorem queued_turns_revealed_once onNPCTurn res getStatus st :
  let started := startCombat onNPCTurn (Resolved res) st in
  let revealed := revealPending onNPCTurn getStatus started in
  (∀ t ts, r_npc_turn_results res = Some (t :: ts) →
     isLoading started = true
     ∧ combatLog revealed
       = systemEntry (logIdRef st + 1)
           ("Combat begins! Round " +:+ pretty (r_round res))
         :: batchEntries (logIdRef st + 1) (t :: ts)
     ∧ isLoading revealed = false
     ∧ pendingNPCTurnsRef revealed = None
     ∧ positions revealed = positions started
     ∧ ∀ getStatus', revealPending onNPCTurn getStatus' revealed = revealed)
  ∧ ((r_npc_turn_results res = None ∨ r_npc_turn_results res = Some []) →
     pendingNPCTurnsRef st = None →
     isLoading started = false ∧ revealed = started).
Proof.
  intros started revealed. split.
  - intros t ts Hq.
    destruct (startCombat_queue onNPCTurn res st t ts Hq) as [Hpend Hload].
    destruct (startCombat_log onNPCTurn (Resolved res) st) as [Hlog Hid].
    pose proof (startCombat_combatState onNPCTurn res st) as Hcs.
    fold started in Hpend, Hload, Hlog, Hid, Hcs.
    assert (revealed
            = setIsLoading false
                (slowRollNPCTurns onNPCTurn getStatus (t :: ts)
                   (emit (Sleep 500) (setPendingNPCTurnsRef None started))))
      as Hrev by (unfold revealed, revealPending; by rewrite Hcs, Hpend).
    set (rolled := slowRollNPCTurns onNPCTurn getStatus (t :: ts)
                     (emit (Sleep 500) (setPendingNPCTurnsRef None started)))
      in Hrev.
    assert (sameOutsideLog (emit (Sleep 500) (setPendingNPCTurnsRef None started))
              rolled) as (Hpos & _ & _ & _ & _ & _ & _ & Hpending).
    { unfold rolled, slowRollNPCTurns.
      eapply sameOutsideLog_trans; [apply slowRollFrom_outside|done]. }
    destruct (slowRollNPCTurns_grows onNPCTurn getStatus (t :: ts)
                (emit (Sleep 500) (setPendingNPCTurnsRef None started)))
      as (Hgrow & _).
    fold rolled in Hgrow.
    assert (pendingNPCTurnsRef revealed = None) as Hnone
      by (rewrite Hrev; exact Hpending).
    split; [done|]. split; [|split; [|split; [|split]]].
    + rewrite Hrev. transitivity (combatLog rolled); [reflexivity|].
      rewrite Hgrow.
      change (combatLog started ++ batchEntries (logIdRef started) (t :: ts)
              = systemEntry (logIdRef st + 1)
                  ("Combat begins! Round " +:+ pretty (r_round res))
                :: batchEntries (logIdRef st + 1) (t :: ts)).
      by rewrite Hlog, Hid.
    + by rewrite Hrev.
    + exact Hnone.
    + rewrite Hrev. exact Hpos.
    + intros getStatus'. unfold revealPending at 1. rewrite Hnone.
      by destruct (combatState revealed).
  - intros Hq Hnone.
    destruct (startCombat_no_queue onNPCTurn res st Hq Hnone) as [Hpend Hload].
    fold started in Hpend, Hload. split; [done|].
    unfold revealed, revealPending. rewrite Hpend.
    by destruct (combatState started).
Qed.
End queued_turns.

(** ** Advancing the turn in the stand-alone tracker *)

Section tracker_turns.
Import Tracker.
Implicit Types (order : list Combatant) (st : Legacy.TrackerState).

(** Scanning forward finds the first living combatant at or after the
    starting index. *)
Lemma skipDead_finds order i j r fuel :
  (i ≤ j)%nat → aliveAt order j →
  (∀ k, (i ≤ k < j)%nat → downAt order k) →
  (j - i < fuel)%nat →
  skipDead fuel order i r = Finished (j, r).
Proof.
  intros Hij (c & Hc & Halive).
  remember (j - i)%nat as d eqn:Hd. revert i fuel Hij Hd.
  induction d as [|d IH]; intros i fuel Hij Hd Hdown Hfuel.
  - assert (i = j) as -> by lia. destruct fuel as [|fuel]; [lia|].
    simpl. rewrite Hc.
    by replace (hp c <=? 0) with false by (symmetry; apply Z.leb_gt; lia).
  - destruct fuel as [|fuel]; [lia|].
    destruct (Hdown i ltac:(lia)) as (b & Hb & Hdead).
    simpl. rewrite Hb.
    replace (hp b <=? 0) with true by (symmetry; apply Z.leb_le; lia).
    apply lookup_lt_Some in Hc.
    replace (length order <=? S i)%nat with false
      by (symmetry; apply Nat.leb_gt; lia).
    apply IH; [lia..| |lia]. intros k Hk. apply Hdown. lia.
Qed.

(** Scanning a tail of dead combatants wraps to index 0 and counts one more
    round. *)
Lemma skipDead_wraps order i r fuel :
  (i < length order)%nat →
  (∀ k, (i ≤ k < length order)%nat → downAt order k) →
  skipDead (length order - i + fuel) order i r = skipDead fuel order 0 (r + 1).
Proof.
  intros Hi.
  remember (length order - i)%nat as d eqn:Hd. revert i Hi Hd.
  induction d as [|d IH]; intros i Hi Hd Hdown; [lia|].
  destruct (Hdown i ltac:(lia)) as (b & Hb & Hdead).
  simpl. rewrite Hb.
  replace (hp b <=? 0) with true by (symmetry; apply Z.leb_le; lia).
  destruct (Nat.leb_spec (length order) (S i)) as [Hlast|Hmore].
  - by assert (d = 0)%nat as -> by lia.
  - apply IH; [lia..|]. intros k Hk. apply Hdown. lia.
Qed.

(** When nobody is alive the loop does not end. *)
Lemma skipDead_all_down order i r fuel :
  (i < length order)%nat →
  (∀ k, (k < length order)%nat → downAt order k) →
  skipDead fuel order i r = OutOfFuel.
Proof.
  revert i r. induction fuel as [|fuel IH]; intros i r Hi Hdown; [done|].
  destruct (Hdown i Hi) as (b & Hb & Hdead).
  simpl. rewrite Hb.
  replace (hp b <=? 0) with true by (symmetry; apply Z.leb_le; lia).
  destruct (Nat.leb_spec (length order) (S i)); apply IH; auto; lia.
Qed.

Lemma alive_or_down order k :
  (k < length order)%nat → aliveAt order k ∨ downAt order k.
Proof.
  intros Hk. apply lookup_lt_is_Some_2 in Hk as [c Hc].
  destruct (Z.lt_ge_cases 0 (hp c)); [left|right]; exists c; split; auto; lia.
Qed.

(** The first living combatant at or after [i], when there is one. *)
Lemma first_alive order i :
  (∃ j, (i ≤ j)%nat ∧ aliveAt order j) →
  ∃ j, (i ≤ j)%nat ∧ aliveAt order j ∧ ∀ k, (i ≤ k < j)%nat → downAt order k.
Proof.
  intros (j & Hij & Hj).
  remember (j - i)%nat as d eqn:Hd. revert i Hij Hd.
  induction d as [|d IH]; intros i Hij Hd.
  - exists j. split; [done|]. split; [done|]. intros k Hk. lia.
  - destruct (alive_or_down order i) as [Ha|Hdn].
    { destruct Hj as (c & Hc & _). apply lookup_lt_Some in Hc. lia. }
    + exists i. split; [done|]. split; [done|]. intros k Hk. lia.
    + destruct (IH (S i)) as (j' & Hle & Hal & Hbefore); [lia..|].
      exists j'. split; [lia|]. split; [done|].
      intros k Hk. destruct (decide (k = i)) as [->|]; [done|].
      apply Hbefore. lia.
Qed.
End tracker_turns.

Section tracker_next_turn.
Import Tracker.
Implicit Types (order : list Combatant) (st : Legacy.TrackerState).

Lemma alive_later_or_all_down order i :
  (∃ j, (i ≤ j)%nat ∧ aliveAt order j)
  ∨ (∀ k, (i ≤ k < length order)%nat → downAt order k).
Proof.
  remember (length order - i)%nat as d eqn:Hd. revert i Hd.
  induction d as [|d IH]; intros i Hd.
  - right. intros k Hk. lia.
  - destruct (alive_or_down order i ltac:(lia)) as [Ha|Hdn]; [left; eauto|].
    destruct (IH (S i) ltac:(lia)) as [(j & Hj & Ha)|Hall].
    + left. exists j. split; [lia|done].
    + right. intros k Hk. destruct (decide (k = i)) as [->|]; [done|].
      apply Hall. lia.
Qed.

Lemma aliveAt_not_down order k : aliveAt order k → downAt order k → False.
Proof. intros (c & Hc & Ha) (d & Hd & Hdn). simplify_eq. lia. Qed.

(** X12. When somebody is alive, [nextTurn] ends (after at most as many
    tests of the loop as there are combatants) on the next living combatant
    after the current one in cyclic order: everyone it passes over is down,
    the round stays when it need not wrap and grows by exactly one when it
    wraps past the end of the order. *)
Theorem nextTurn_selects_next_alive st cs fuel :
  Legacy.t_combatState st = Some cs →
  (current_turn_idx cs < length (initiative_order cs))%nat →
  (∃ j, aliveAt (initiative_order cs) j) →
  (length (initiative_order cs) ≤ fuel)%nat →
  ∃ idx r,
    nextTurn fuel st
      = Finished (Legacy.set_combatState (Some (set_turn idx r cs)) st)
    ∧ aliveAt (initiative_order cs) idx
    ∧ ((current_turn_idx cs < idx)%nat ∧ r = round cs
       ∧ (∀ k, (current_turn_idx cs < k < idx)%nat →
            downAt (initiative_order cs) k)
       ∨ (idx ≤ current_turn_idx cs)%nat ∧ r = round cs + 1
         ∧ (∀ k, (current_turn_idx cs < k < length (initiative_order cs))%nat →
              downAt (initiative_order cs) k)
         ∧ (∀ k, (k < idx)%nat → downAt (initiative_order cs) k)).
Proof.
  intros Hcs Hcur (j0 & Hj0) Hfuel. unfold nextTurn. rewrite Hcs.
  set (order := initiative_order cs) in *. set (cur := current_turn_idx cs) in *.
  destruct (first_alive order 0) as (j & _ & Hj & Hbefore).
  { exists j0. split; [lia|done]. }
  assert (j < length order)%nat as Hjlen.
  { destruct Hj as (c & Hc & _). by eapply lookup_lt_Some. }
  cbv zeta.
  destruct (Nat.leb_spec (length order) (S cur)) as [Hlast|Hmore].
  - rewrite (skipDead_finds order 0 j (round cs + 1) fuel); [|lia|done| |lia].
    + exists j, (round cs + 1). split; [done|]. split; [done|]. right.
      split; [lia|]. split; [done|]. split; [intros k Hk; lia|].
      intros k Hk. apply Hbefore. lia.
    + intros k Hk. apply Hbefore. lia.
  - destruct (alive_later_or_all_down order (S cur)) as [Hlater|Hdown].
    + destruct (first_alive order (S cur) Hlater) as (i & Hi & Hal & Hbef).
      assert (i < length order)%nat.
      { destruct Hal as (c & Hc & _). by eapply lookup_lt_Some. }
      rewrite (skipDead_finds order (S cur) i (round cs) fuel);
        [|lia|done|done|lia].
      exists i, (round cs). split; [done|]. split; [done|]. left.
      split; [lia|]. split; [done|]. intros k Hk. apply Hbef. lia.
    + assert (j ≤ cur)%nat as Hjcur.
      { destruct (decide (j ≤ cur)%nat); [done|]. exfalso.
        apply (aliveAt_not_down order j Hj). apply Hdown. lia. }
      replace fuel
        with (length order - S cur + (fuel - (length order - S cur)))%nat by lia.
      rewrite skipDead_wraps by (done || lia).
      rewrite (skipDead_finds order 0 j (round cs + 1)); [|lia|done| |lia].
      * exists j, (round cs + 1). split; [done|]. split; [done|]. right.
        split; [done|]. split; [done|]. split.
        -- intros k Hk. apply Hdown. lia.
        -- intros k Hk. apply Hbefore. lia.
      * intros k Hk. apply Hbefore. lia.
Qed.

(** X13. When every combatant of a non-empty order is down, the loop of
    [nextTurn] never ends, whatever number of tests it is given. *)
Theorem nextTurn_never_ends_when_all_down st cs fuel :
  Legacy.t_combatState st = Some cs →
  initiative_order cs ≠ [] →
  (∀ k, (k < length (initiative_order cs))%nat → downAt (initiative_order cs) k) →
  nextTurn fuel st = OutOfFuel.
Proof.
  intros Hcs Hne Hdown. unfold nextTurn. rewrite Hcs. cbv zeta.
  assert (0 < length (initiative_order cs))%nat
    by (destruct (initiative_order cs); [done|simpl; lia]).
  rewrite skipDead_all_down; [done| |done].
  destruct (Nat.leb_spec (length (initiative_order cs))
              (S (current_turn_idx cs))); lia.
Qed.
End tracker_next_turn.

(** ** Token colours and sides *)

Section factions.
Implicit Types (c : Combatant) (roster : list Combatant).

(** X14. A token is drawn dead exactly when its hit points are 0 or less.
    Among the living, with pairwise distinct names, the automatic placement
    puts every token drawn as player or as friendly in column 3 and every
    token drawn as hostile in column [width - 4]; a token drawn as monster
    stands with the players when it is marked friendly and with the enemies
    otherwise. *)
Theorem faction_and_side roster grid c :
  NoDup (name <$> roster) → c ∈ roster →
  (getCombatantFaction c = faction_dead ↔ hp c ≤ 0)
  ∧ ∃ p, autoPlaceCombatants roster grid !! name c = Some p
         ∧ match getCombatantFaction c with
           | faction_player | faction_friendly => x p = 3
           | faction_hostile => x p = width grid - 4
           | faction_monster =>
               x p = if truthy (is_friendly c) then 3 else width grid - 4
           | faction_dead => True
           end.
Proof.
  intros Hnd Hc. split.
  - unfold getCombatantFaction. destruct (Z.leb_spec (hp c) 0) as [Hle|Hgt].
    + done.
    + split; [|lia]. by repeat case_match.
  - destruct (autoPlace_cell roster grid c Hnd Hc) as (k & _ & Hl).
    eexists. split; [exact Hl|]. simpl.
    unfold getCombatantFaction, columnOf, playerSideOf, playerCol, enemyCol.
    destruct (hp c <=? 0); [done|].
    destruct (is_player c), (truthy (is_npc c)), (truthy (is_friendly c)); done.
Qed.
End factions.

(** ** The keys of the cells *)

Section cell_keys.

Lemma pretty_N_char_no_comma (n : N) :
  Ascii.eqb (pretty_N_char n) comma = false.
Proof. unfold pretty_N_char. by repeat case_match. Qed.

Lemma pretty_N_go_commaFree (n : N) (s : string) :
  commaFree s = true → commaFree (pretty_N_go n s) = true.
Proof.
  revert s. induction (N.lt_wf_0 n) as [n _ IH]; intros s Hs.
  assert (n = 0 ∨ 0 < n)%N as [->|Hpos] by lia.
  - by rewrite pretty_N_go_0.
  - rewrite pretty_N_go_step by done. apply IH; [by apply N.div_lt|].
    simpl. by rewrite pretty_N_char_no_comma.
Qed.

Lemma pretty_N_commaFree (n : N) : commaFree (pretty n) = true.
Proof.
  unfold pretty, pretty_N. case_decide; [done|].
  by apply pretty_N_go_commaFree.
Qed.

Lemma pretty_Z_commaFree (z : Z) : commaFree (pretty z) = true.
Proof.
  destruct z as [|p|p]; [done| |].
  - apply (pretty_N_commaFree (N.pos p)).
  - assert (∀ s : string, commaFree ("-" +:+ s) = commaFree s) as Hdash by done.
    unfold pretty, pretty_Z. rewrite Hdash.
    apply (pretty_N_commaFree (N.pos p)).
Qed.

(** Two strings without comma followed by a comma and anything: equal wholes
    have equal parts. *)
Lemma comma_split (a a' b b' : string) :
  commaFree a = true → commaFree a' = true →
  a +:+ "," +:+ b = a' +:+ "," +:+ b' → a = a' ∧ b = b'.
Proof.
  assert (∀ s : string, "" +:+ s = s) as Hnil by done.
  assert (∀ c (s t : string), String c s +:+ t = String c (s +:+ t)) as Hcons
    by done.
  revert a'. induction a as [|c a IH]; intros [|c' a'] Ha Ha' Heq;
    rewrite ?Hnil, ?Hcons in Heq.
  - by injection Heq.
  - injection Heq as <- _. simpl in Ha'. done.
  - injection Heq as -> _. simpl in Ha. done.
  - injection Heq as -> Heq. simpl in Ha, Ha'.
    apply andb_true_iff in Ha as [_ Ha]. apply andb_true_iff in Ha' as [_ Ha'].
    destruct (IH a' Ha Ha' Heq) as [-> ->]. done.
Qed.

(** The key of a cell determines the cell: two cells have the same key
    only if they have the same column and the same row. *)
Lemma cellKey_inj (cx cy cx' cy' : Z) :
  cellKey cx cy = cellKey cx' cy' ↔ cx = cx' ∧ cy = cy'.
Proof.
  split; [|by intros [-> ->]].
  unfold cellKey. intros Heq.
  apply comma_split in Heq as [Hx Hy]; [|apply pretty_Z_commaFree..].
  by apply (inj pretty) in Hx, Hy.
Qed.
End cell_keys.

(** ** Clicks on the battle map *)

Section battle_map.
Implicit Types (c : Combatant) (combatants : list Combatant)
  (m : gmap string GridPosition) (st : State).

Lemma positionMap_snoc combatants c m :
  positionMap (combatants ++ [c]) m
  = match m !! name c with
    | Some pos => <[cellKey (x pos) (y pos) := c]> (positionMap combatants m)
    | None => positionMap combatants m
    end.
Proof. unfold positionMap. by rewrite foldl_snoc. Qed.

(** Whoever the lookup finds on a cell is in the list and stands there. *)
Lemma positionMap_lookup_Some combatants m cx cy c :
  positionMap combatants m !! cellKey cx cy = Some c →
  c ∈ combatants ∧ m !! name c = Some {| x := cx; y := cy |}.
Proof.
  induction combatants as [|d l IH] using rev_ind.
  - unfold positionMap. simpl. by rewrite lookup_empty.
  - rewrite positionMap_snoc. rewrite elem_of_app, list_elem_of_singleton.
    destruct (m !! name d) as [[px py]|] eqn:Hd;
      [|intros Hl; destruct (IH Hl); auto].
    simpl. rewrite lookup_insert.
    case_decide as Hk; [|intros Hl; destruct (IH Hl); auto].
    apply cellKey_inj in Hk as [-> ->]. intros [= <-]. auto.
Qed.

(** A cell on which a combatant of the list stands is found occupied. *)
Lemma positionMap_lookup_is_Some combatants m cx cy c :
  c ∈ combatants → m !! name c = Some {| x := cx; y := cy |} →
  is_Some (positionMap combatants m !! cellKey cx cy).
Proof.
  induction combatants as [|d l IH] using rev_ind;
    [by intros ?%elem_of_nil|].
  rewrite positionMap_snoc, elem_of_app, list_elem_of_singleton.
  intros [Hc| ->] Hpos.
  - destruct (m !! name d) as [[px py]|]; [|auto].
    simpl. rewrite lookup_insert. case_decide; [done|auto].
  - rewrite Hpos. simpl. rewrite lookup_insert_eq. done.
Qed.

(** X15. With pairwise distinct names in the list and at most one name per
    cell, the lookup of the battle map finds on a cell exactly the combatant
    of the list whose position is that cell; a cell on which no combatant
    of the list stands is found empty. *)
Theorem positionMap_finds_occupant combatants m cx cy c :
  NoDup (name <$> combatants) → cellsExclusive m →
  positionMap combatants m !! cellKey cx cy = Some c
  ↔ c ∈ combatants ∧ m !! name c = Some {| x := cx; y := cy |}.
Proof.
  intros Hnd Hx. split; [apply positionMap_lookup_Some|].
  intros [Hc Hpos].
  destruct (positionMap_lookup_is_Some combatants m cx cy c Hc Hpos) as [d Hd].
  rewrite Hd. f_equal.
  apply positionMap_lookup_Some in Hd as [Hdin Hdpos].
  apply (NoDup_names_inj combatants d c Hnd Hdin Hc).
  by apply (Hx _ _ _ Hdpos Hpos).
Qed.

(** X16. A click on the battle map, the positions being inside the grid
    with at most one name per cell.  On a cell where a combatant of the list
    stands the click only changes the selection: it selects that combatant,
    or clears the selection when it was selected already, and no request is
    sent.  A move request is sent only for the selected token, to a cell
    inside the grid on which no combatant of the list and no other name
    stands; the token is moved there at once and the selection cleared.  A
    click that sends no request leaves the positions as they are.  In all
    cases the positions stay inside the grid with at most one name per
    cell. *)
Theorem handleCellClick_selects_or_moves combatants cx cy st :
  positionsValid (gridSize st) (positions st) →
  let st' := (handleCellClick combatants cx cy st).1 in
  let r := (handleCellClick combatants cx cy st).2 in
  (∀ c, c ∈ combatants → positions st !! name c = Some {| x := cx; y := cy |} →
     r = None
     ∧ selectedToken st'
       = if bool_decide (selectedToken st = Some (name c)) then None
         else Some (name c))
  ∧ (∀ pm, r = Some pm →
       selectedToken st = Some (pm_name pm) ∧ pm_name pm ≠ ""
       ∧ inBounds (gridSize st) {| x := cx; y := cy |}
       ∧ (∀ c, c ∈ combatants → positions st !! name c ≠ Some {| x := cx; y := cy |})
       ∧ (∀ other, positions st !! other = Some {| x := cx; y := cy |} →
            other = pm_name pm)
       ∧ prevPos pm = positions st !! pm_name pm
       ∧ positions st' = <[pm_name pm := {| x := cx; y := cy |}]> (positions st)
       ∧ selectedToken st' = None)
  ∧ (r = None → positions st' = positions st)
  ∧ gridSize st' = gridSize st
  ∧ positionsValid (gridSize st') (positions st').
Proof.
  intros Hv st' r. subst st' r. unfold handleCellClick.
  destruct (positionMap combatants (positions st) !! cellKey cx cy)
    as [occupant|] eqn:Hocc.
  - apply positionMap_lookup_Some in Hocc as [Hin Hpos].
    assert (∀ c, positions st !! name c = Some {| x := cx; y := cy |} →
                 name c = name occupant) as Hsame
      by (intros c Hc; by apply (proj2 Hv _ _ _ Hc Hpos)).
    case_bool_decide as Hsel; simpl.
    + split; [|done]. intros c _ Hc. rewrite (Hsame c Hc).
      by rewrite bool_decide_eq_true_2.
    + split; [|done]. intros c _ Hc. rewrite (Hsame c Hc).
      by rewrite bool_decide_eq_false_2.
  - assert (∀ c, c ∈ combatants →
                 positions st !! name c ≠ Some {| x := cx; y := cy |}) as Hfree.
    { intros c Hc Hpos.
      destruct (positionMap_lookup_is_Some _ _ _ _ _ Hc Hpos) as [d Hd].
      congruence. }
    destruct (selectedToken st) as [tok|] eqn:Hsel; simpl;
      [|split; [intros c Hc Hpos; by destruct (Hfree c Hc)|done]].
    destruct (String.eqb_spec tok "") as [->|Hne]; simpl;
      [split; [intros c Hc Hpos; by destruct (Hfree c Hc)|done]|].
    unfold moveCombatant.
    destruct (outOfBounds (gridSize st) cx cy) eqn:Hb; simpl;
      [split; [intros c Hc Hpos; by destruct (Hfree c Hc)|done]|].
    destruct (occupiedByOther (positions st) tok cx cy) eqn:Ho; simpl;
      [split; [intros c Hc Hpos; by destruct (Hfree c Hc)|done]|].
    apply outOfBounds_false in Hb.
    pose proof (proj1 (occupiedByOther_false _ _ _ _) Ho) as Hothers.
    split; [intros c Hc Hpos; by destruct (Hfree c Hc)|].
    split; [|split; [done|split; [done|]]].
    + intros pm [= <-]. simpl. done.
    + by apply positionsValid_insert.
Qed.
End battle_map.

(** ** What the start request carries *)

Section start_request.
Implicit Types (f : AddForm) (st : State) (l : list SetupCombatant).

Lemma filter_all {A : Type} (P : A → Prop) `{∀ a, Decision (P a)} (l : list A) :
  Forall P l → filter P l = l.
Proof.
  induction 1 as [|a l Ha _ IH]; [done|].
  rewrite filter_cons. case_decide; [|done]. by rewrite IH.
Qed.

Lemma filter_none {A : Type} (P : A → Prop) `{∀ a, Decision (P a)} (l : list A) :
  Forall (λ a, ¬ P a) l → filter P l = [].
Proof.
  induction 1 as [|a l Ha _ IH]; [done|].
  rewrite filter_cons. case_decide; [done|]. exact IH.
Qed.

Lemma app_filter_none {A : Type} (P : A → Prop) `{∀ a, Decision (P a)}
    (old new : list A) :
  Forall (λ a, ¬ P a) new → old ++ filter P new = old.
Proof. intros Hnew. by rewrite filter_none, app_nil_r. Qed.

Lemma handleSubmit_fields f c :
  c ∈ handleSubmit f →
  s_is_player c = false
  ∧ s_is_npc c = bool_decide (is_Some (f_selectedNPC f))
  ∧ s_npc_id c = f_selectedNPC f.
Proof.
  unfold handleSubmit. destruct (String.eqb _ _); [by intros ?%elem_of_nil|].
  intros (i & -> & _)%list_elem_of_fmap. done.
Qed.

(** X17. Where the entries added during set-up go in the start request.
    The characters added from the players are appended to the list of
    players and to no other list.  The combatants of a submitted form are
    appended to the list of monsters when no NPC was selected and to the
    list of NPCs when the selected NPC has a non-empty id; with an NPC whose
    id is empty they are in the roster but in none of the three lists. *)
Theorem setup_entries_in_start_request (players : list Player) f st :
  let old := startRequestOf (setupCombatants st) in
  let withPlayers := startRequestOf (setupCombatants (addFromPlayers players st)) in
  let withForm := startRequestOf (setupCombatants (submitToSetup f st)) in
  (req_players withPlayers
     = req_players old ++ omap (λ p, playerCombatantOf p <$> active_pc p) players
   ∧ req_npcs withPlayers = req_npcs old
   ∧ req_monsters withPlayers = req_monsters old)
  ∧ req_players withForm = req_players old
  ∧ req_npcs withForm
    = req_npcs old ++ match f_selectedNPC f with
                      | Some npcId =>
                          if String.eqb npcId "" then [] else handleSubmit f
                      | None => []
                      end
  ∧ req_monsters withForm
    = req_monsters old ++ match f_selectedNPC f with
                          | Some _ => []
                          | None => handleSubmit f
                          end.
Proof.
  intros old withPlayers withForm. subst old withPlayers withForm.
  unfold submitToSetup. rewrite foldl_addCombatant.
  unfold startRequestOf, addFromPlayers. simpl. rewrite !filter_app.
  split; [split; [|split]|split; [|split]].
  - f_equal. apply filter_all, Forall_forall.
    intros c (p & _ & Hp)%list_elem_of_omap.
    destruct (active_pc p); [|done]. by injection Hp as <-.
  - apply app_filter_none, Forall_forall.
    intros c (p & _ & Hp)%list_elem_of_omap.
    destruct (active_pc p); [|done]. by injection Hp as <-.
  - apply app_filter_none, Forall_forall.
    intros c (p & _ & Hp)%list_elem_of_omap.
    destruct (active_pc p); [|done]. by injection Hp as <-.
  - apply app_filter_none, Forall_forall.
    intros c (Hp & _)%handleSubmit_fields. by rewrite Hp.
  - f_equal. destruct (f_selectedNPC f) as [npcId|] eqn:Hsel.
    + destruct (String.eqb npcId "") eqn:Hid.
      * apply filter_none, Forall_forall.
        intros c (_ & _ & Hn)%handleSubmit_fields. rewrite Hn, Hsel. simpl.
        rewrite Hid. by rewrite andb_false_r.
      * apply filter_all, Forall_forall.
        intros c (_ & Hnpc & Hn)%handleSubmit_fields.
        rewrite Hnpc, Hn, Hsel. simpl. by rewrite Hid.
    + apply filter_none, Forall_forall.
      intros c (_ & Hnpc & _)%handleSubmit_fields. rewrite Hnpc, Hsel. done.
  - f_equal. destruct (f_selectedNPC f) as [npcId|] eqn:Hsel.
    + apply filter_none, Forall_forall.
      intros c (_ & Hnpc & _)%handleSubmit_fields. rewrite Hnpc, Hsel.
      by rewrite andb_false_r.
    + apply filter_all, Forall_forall.
      intros c (Hp & Hnpc & _)%handleSubmit_fields. rewrite Hp, Hnpc, Hsel. done.
Qed.
End start_request.

(** ** Positions listed by the server *)

Section backend_positions.
Implicit Types (c : WireCombatant) (l : list WireCombatant)
  (m : gmap string GridPosition) (st : State).

Lemma backendPositionsFrom_snoc l c m :
  backendPositionsFrom (l ++ [c]) m
  = match w_x c, w_y c with
    | Some cx, Some cy =>
        <[w_name c := {| x := cx; y := cy |}]> (backendPositionsFrom l m)
    | _, _ => backendPositionsFrom l m
    end.
Proof.
  revert m. induction l as [|d l IH]; intros m; simpl.
  - by destruct (w_x c), (w_y c).
  - destruct (w_x d), (w_y d); apply IH.
Qed.

Lemma backendPositionsFrom_lookup l n p :
  NoDup (w_name <$> l) →
  backendPositionsFrom l ∅ !! n = Some p
  ↔ ∃ c, c ∈ l ∧ w_name c = n ∧ w_x c = Some (x p) ∧ w_y c = Some (y p).
Proof.
  induction l as [|d l IH] using rev_ind; intros Hnd.
  - simpl. rewrite lookup_empty. split; [done|].
    by intros (c & ?%elem_of_nil & _).
  - rewrite fmap_app in Hnd. apply NoDup_app in Hnd as (Hl & Hd & _).
    specialize (IH Hl). rewrite backendPositionsFrom_snoc.
    assert (∀ c, c ∈ l → w_name c ≠ w_name d) as Hfresh.
    { intros c Hc Heq. apply (Hd (w_name c)).
      - by apply list_elem_of_fmap_2.
      - rewrite Heq. simpl. apply list_elem_of_singleton. done. }
    destruct (w_x d) as [cx|] eqn:Hx; [destruct (w_y d) as [cy|] eqn:Hy|].
    + rewrite lookup_insert. case_decide as Hn.
      * subst n. split.
        -- intros [= <-]. exists d. simpl.
           rewrite elem_of_app, list_elem_of_singleton. auto.
        -- intros (c & [Hc|Hc]%elem_of_app & Hname & Hcx & Hcy).
           ++ by destruct (Hfresh c Hc).
           ++ apply list_elem_of_singleton in Hc. subst c.
              destruct p as [px py]. simpl in *. congruence.
      * rewrite IH. split.
        -- intros (c & Hc & Hrest). exists c. rewrite elem_of_app. auto.
        -- intros (c & [Hc|Hc]%elem_of_app & Hname & Hrest); [eauto|].
           apply list_elem_of_singleton in Hc. subst c. done.
    + rewrite IH. split.
      * intros (c & Hc & Hrest). exists c. rewrite elem_of_app. auto.
      * intros (c & [Hc|Hc]%elem_of_app & Hname & Hcx & Hcy); [eauto|].
        apply list_elem_of_singleton in Hc. subst c. congruence.
    + rewrite IH. split.
      * intros (c & Hc & Hrest). exists c. rewrite elem_of_app. auto.
      * intros (c & [Hc|Hc]%elem_of_app & Hname & Hcx & Hcy); [eauto|].
        apply list_elem_of_singleton in Hc. subst c. congruence.
Qed.

Lemma startCombat_gridSize onNPCTurn reply st :
  gridSize (startCombat onNPCTurn reply st) = gridSize st.
Proof.
  unfold startCombat, emitCombatMessage.
  destruct reply as [res|msg]; simpl.
  - destruct (r_npc_turn_results res) as [[|t ts]|], onNPCTurn; simpl;
      try done; by destruct (pendingNPCTurnsRef st).
  - by destruct (pendingNPCTurnsRef st).
Qed.

(** X18. When the server lists coordinates for at least one combatant,
    [startCombat] places exactly the combatants listed with both
    coordinates, each on the listed cell, the names being pairwise distinct;
    a combatant listed without coordinates gets no token, and nothing is
    placed automatically.  The listed cells are taken as they are: the
    positions are inside the grid with at most one name per cell exactly
    when the listed coordinates are. *)
Theorem startCombat_backend_positions onNPCTurn res st :
  let order := r_initiative_order res in
  let st' := startCombat onNPCTurn (Resolved res) st in
  hasBackendPositions order = true →
  NoDup (w_name <$> order) →
  (∀ n p, positions st' !! n = Some p
          ↔ ∃ c, c ∈ order ∧ w_name c = n
                 ∧ w_x c = Some (x p) ∧ w_y c = Some (y p))
  ∧ (positionsValid (gridSize st') (positions st')
     ↔ (∀ c cx cy, c ∈ order → w_x c = Some cx → w_y c = Some cy →
          inBounds (gridSize st) {| x := cx; y := cy |})
       ∧ (∀ c d cx cy, c ∈ order → d ∈ order →
            w_x c = Some cx → w_y c = Some cy →
            w_x d = Some cx → w_y d = Some cy → w_name c = w_name d)).
Proof.
  intros order st' Hlisted Hnd. subst st'.
  rewrite startCombat_gridSize, startCombat_positions. fold order.
  rewrite Hlisted.
  pose proof (λ n p, backendPositionsFrom_lookup order n p Hnd) as Hlookup.
  split; [exact Hlookup|].
  unfold positionsValid, cellsExclusive. split.
  - intros [Hb Hx]. split.
    + intros c cx cy Hc Hcx Hcy. apply (Hb (w_name c)).
      apply Hlookup. exists c. done.
    + intros c d cx cy Hc Hd Hcx Hcy Hdx Hdy.
      apply (Hx _ _ {| x := cx; y := cy |}); apply Hlookup; eauto.
  - intros [Hb Hx]. split.
    + intros n [px py] (c & Hc & _ & Hcx & Hcy)%Hlookup. by apply (Hb c).
    + intros n1 n2 [px py] (c & Hc & <- & Hcx & Hcy)%Hlookup
        (d & Hd & <- & Hdx & Hdy)%Hlookup.
      by apply (Hx c d px py).
Qed.
End backend_positions.

(** ** A running combat in the stand-alone tracker *)

Section tracker_session.
Import Legacy Tracker.
Implicit Types (st : TrackerState) (order : list Combatant) (k : TrackerClick).

(** From an index inside the order the loop never reads outside it. *)
Lemma skipDead_stays_inside fuel order i r :
  (i < length order)%nat →
  match skipDead fuel order i r with
  | Finished (idx, r') => (idx < length order)%nat ∧ r ≤ r'
  | Threw => False
  | OutOfFuel => True
  end.
Proof.
  revert i r. induction fuel as [|fuel IH]; intros i r Hi; [done|].
  simpl. destruct (lookup_lt_is_Some_2 order i Hi) as [c ->].
  destruct (hp c <=? 0); [|split; [done|lia]].
  destruct (Nat.leb_spec (length order) (S i)) as [Hlast|Hmore].
  - specialize (IH 0%nat (r + 1) ltac:(lia)).
    destruct (skipDead fuel order 0 (r + 1)) as [[idx r']| |]; [|done..].
    split; [tauto|lia].
  - by apply IH.
Qed.

Lemma updateHpAt_trackerInv names maxes f index st :
  trackerInv names maxes st → (index < length names)%nat →
  (∀ c, hpInRange c → 0 ≤ f c ≤ max_hp c) →
  ∃ st', updateHpAt f index st = Some st' ∧ trackerInv names maxes st'.
Proof.
  intros (cs & Hcs & Hn & Hm & Hhp & Hptr & Hr) Hidx Hf.
  unfold updateHpAt. rewrite Hcs.
  assert (index < length (initiative_order cs))%nat as Hlen
    by (by rewrite <- Hn, length_fmap in Hidx).
  destruct (lookup_lt_is_Some_2 _ _ Hlen) as [c Hc]. rewrite Hc.
  eexists. split; [reflexivity|].
  eexists. split; [reflexivity|]. simpl.
  split; [|split; [|split; [|split]]].
  - rewrite list_fmap_insert. simpl. rewrite <- Hn. apply list_insert_id.
    by rewrite list_lookup_fmap, Hc.
  - rewrite list_fmap_insert. simpl. rewrite <- Hm. apply list_insert_id.
    by rewrite list_lookup_fmap, Hc.
  - apply Forall_insert; [done|]. unfold hpInRange. simpl. apply Hf.
    rewrite Forall_lookup in Hhp. by apply (Hhp index).
  - by rewrite length_insert.
  - done.
Qed.

Lemma trackerClick_trackerInv names maxes fuel k st :
  trackerInv names maxes st → clickInRange (length names) k →
  match trackerClick fuel k st with
  | Finished st' => trackerInv names maxes st'
  | Threw => False
  | OutOfFuel => k = ClickNext
  end.
Proof.
  intros Hinv Hk. destruct k as [index dmg|index heal|]; simpl.
  - unfold handleDamage. destruct (Z.ltb_spec 0 dmg) as [Hpos|_]; [|done].
    destruct (updateHpAt_trackerInv names maxes (damagedHp dmg) index st)
      as (st' & Heq & Hinv'); [done..| |].
    + intros c Hc. unfold damagedHp, hpInRange in *. lia.
    + unfold applyDamage. by rewrite Heq.
  - unfold handleHeal. destruct (Z.ltb_spec 0 heal) as [Hpos|_]; [|done].
    destruct (updateHpAt_trackerInv names maxes (healedHp heal) index st)
      as (st' & Heq & Hinv'); [done..| |].
    + intros c Hc. unfold healedHp, hpInRange in *. lia.
    + unfold applyHealing. by rewrite Heq.
  - destruct Hinv as (cs & Hcs & Hn & Hm & Hhp & Hptr & Hr).
    unfold nextTurn. rewrite Hcs. cbv zeta.
    set (wrapped := (length (initiative_order cs) <=? S (current_turn_idx cs))%nat).
    pose proof (skipDead_stays_inside fuel (initiative_order cs)
                  (if wrapped then 0%nat else S (current_turn_idx cs))
                  (if wrapped then round cs + 1 else round cs)) as Hskip.
    destruct (skipDead _ _ _ _) as [[idx r']| |]; [| |done].
    + destruct Hskip as [Hidx Hr'].
      { unfold wrapped.
        destruct (Nat.leb_spec (length (initiative_order cs))
                    (S (current_turn_idx cs))); lia. }
      exists (set_turn idx r' cs). simpl.
      repeat split; try done. destruct wrapped; lia.
    + apply Hskip. unfold wrapped.
      destruct (Nat.leb_spec (length (initiative_order cs))
                  (S (current_turn_idx cs))); lia.
Qed.

Lemma trackerClicks_trackerInv names maxes fuel ks st :
  trackerInv names maxes st → Forall (clickInRange (length names)) ks →
  match trackerClicks fuel ks st with
  | Finished st' => trackerInv names maxes st'
  | Threw => False
  | OutOfFuel => ClickNext ∈ ks
  end.
Proof.
  intros Hinv Hks. revert st Hinv.
  induction Hks as [|k ks Hk _ IH]; intros st Hinv; [done|].
  simpl. pose proof (trackerClick_trackerInv names maxes fuel k st Hinv Hk) as Hstep.
  destruct (trackerClick fuel k st) as [st'| |]; [|done|].
  - specialize (IH st' Hstep).
    destruct (trackerClicks fuel ks st') as [st''| |]; [done..|].
    by apply list_elem_of_further.
  - subst k. apply list_elem_of_here.
Qed.

Lemma rollInitiative_trackerInv (random20 : nat → Z) st :
  (2 ≤ length (t_combatants st))%nat →
  Forall hpInRange (t_combatants st) →
  trackerInv (name <$> orderOf (rollInitiative random20 st))
             (max_hp <$> orderOf (rollInitiative random20 st))
             (rollInitiative random20 st)
  ∧ length (orderOf (rollInitiative random20 st)) = length (t_combatants st)
  ∧ name <$> orderOf (rollInitiative random20 st) ≡ₚ name <$> t_combatants st.
Proof.
  intros Hlen Hhp. unfold orderOf, rollInitiative. simpl.
  set (rolled := withInitiative random20 (t_combatants st)).
  pose proof (sort_Permutation byInitiativeDesc rolled) as Hperm.
  assert (length rolled = length (t_combatants st)) as Hrolled
    by (unfold rolled, withInitiative; apply length_imap).
  assert (length (sort byInitiativeDesc rolled) = length (t_combatants st))
    as Hsorted by (by rewrite Hperm).
  split; [|split; [done|]].
  - eexists. split; [reflexivity|]. simpl.
    split; [done|]. split; [done|]. split; [|split; [lia|done]].
    rewrite Hperm. apply Forall_lookup. intros i c Hi.
    unfold rolled, withInitiative in Hi. rewrite list_lookup_imap in Hi.
    destruct (t_combatants st !! i) as [b|] eqn:Hb; [|done].
    injection Hi as <-. rewrite Forall_lookup in Hhp.
    apply (Hhp i b Hb).
  - rewrite Hperm. unfold rolled, withInitiative.
    assert (name <$> imap
              (λ i c, set_initiative (random20 i + 1 + or_zero (initiative_bonus c)) c)
              (t_combatants st) = name <$> t_combatants st) as ->; [|done].
    apply list_eq. intros i. rewrite !list_lookup_fmap, list_lookup_imap.
    by destruct (t_combatants st !! i).
Qed.

End tracker_session.

(** ** The map during the combat phase *)

Section dashboard_map.
Implicit Types (st : State) (e : DashboardEvent).

(** What a click on a cell does to the map: nothing, or it writes the
    clicked cell, inside the grid and free of other names, for one name. *)
Lemma handleCellClick_board combatants cx cy st :
  gridSize (handleCellClick combatants cx cy st).1 = gridSize st
  ∧ match (handleCellClick combatants cx cy st).2 with
    | None => positions (handleCellClick combatants cx cy st).1 = positions st
    | Some pm =>
        positions (handleCellClick combatants cx cy st).1
        = <[pm_name pm := {| x := cx; y := cy |}]> (positions st)
        ∧ prevPos pm = positions st !! pm_name pm
        ∧ inBounds (gridSize st) {| x := cx; y := cy |}
        ∧ ∀ other, positions st !! other = Some {| x := cx; y := cy |} →
                   other = pm_name pm
    end.
Proof.
  unfold handleCellClick.
  destruct (positionMap combatants (positions st) !! cellKey cx cy)
    as [occupant|]; [by case_bool_decide|].
  destruct (selectedToken st) as [tok|]; [|done].
  destruct (String.eqb tok ""); [done|].
  unfold moveCombatant.
  destruct (outOfBounds (gridSize st) cx cy) eqn:Hb; [done|].
  destruct (occupiedByOther (positions st) tok cx cy) eqn:Ho; [done|].
  simpl. split; [done|]. split; [done|]. split; [done|].
  split; [by apply outOfBounds_false|by apply occupiedByOther_false].
Qed.

Lemma boardClick_valid cx cy reply st :
  positionsValid (gridSize st) (positions st) →
  gridSize (boardClick cx cy reply st) = gridSize st
  ∧ positionsValid (gridSize st) (positions (boardClick cx cy reply st)).
Proof.
  intros Hv. unfold boardClick. destruct (combatState st) as [cs|]; [|done].
  pose proof (handleCellClick_board (initiative_order cs) cx cy st) as [Hg Hp].
  destruct (handleCellClick (initiative_order cs) cx cy st) as [st' [pm|]];
    simpl in Hg, Hp.
  - destruct Hp as (Hpos & Hprev & Hin & Hfree).
    destruct reply; simpl.
    + split; [done|]. rewrite Hpos. by apply positionsValid_insert.
    + split; [done|]. rewrite Hpos, Hprev.
      by rewrite revert_after_insert.
  - split; [done|]. by rewrite Hp.
Qed.

Lemma nextTurn_board onNPCTurn endTurnReply statusReply getStatus st :
  positions (nextTurn onNPCTurn endTurnReply statusReply getStatus st)
  = positions st
  ∧ gridSize (nextTurn onNPCTurn endTurnReply statusReply getStatus st)
    = gridSize st.
Proof.
  unfold nextTurn. destruct (combatState st) as [cs|]; [|done].
  destruct endTurnReply as [res|msg]; [|done].
  destruct statusReply as [status|msg]; [|done].
  destruct (statusInactive status); [done|].
  destruct (afterTurn_outside onNPCTurn getStatus (round cs) res status
              (setError None (setIsLoading true st))) as (Hp & Hg & _).
  simpl. by rewrite Hp, Hg.
Qed.

Lemma revealPending_board onNPCTurn getStatus st :
  positions (revealPending onNPCTurn getStatus st) = positions st
  ∧ gridSize (revealPending onNPCTurn getStatus st) = gridSize st.
Proof.
  unfold revealPending.
  destruct (combatState st) as [cs|]; [|done].
  destruct (pendingNPCTurnsRef st) as [turns|]; [|done].
  unfold slowRollNPCTurns.
  destruct (slowRollFrom_outside onNPCTurn getStatus 0 turns
              (emit (Sleep 500) (setPendingNPCTurnsRef None st)))
    as (Hp & Hg & _).
  simpl. by rewrite Hp, Hg.
Qed.

Lemma dashboardEvent_valid onNPCTurn e st :
  positionsValid (gridSize st) (positions st) →
  gridSize (dashboardEvent onNPCTurn e st) = gridSize st
  ∧ positionsValid (gridSize st) (positions (dashboardEvent onNPCTurn e st)).
Proof.
  intros Hv.
  destruct e as [cx cy reply| |endTurnReply statusReply getStatus|getStatus
                |targetName amount reply|targetName amount reply
                |nm removeReply statusReply|reply]; simpl.
  - by apply boardClick_valid.
  - done.
  - destruct (nextTurn_board onNPCTurn endTurnReply statusReply getStatus st)
      as [-> ->]. done.
  - destruct (revealPending_board onNPCTurn getStatus st) as [-> ->]. done.
  - unfold applyDamage. destruct (combatState st); [|done].
    destruct reply as [res|msg]; [|done].
    by destruct (truthy (d_combat_ended res)).
  - unfold applyHealing. destruct (combatState st); [|done].
    by destruct reply.
  - unfold removeCombatantMidCombat. destruct (combatState st); [|done].
    destruct removeReply as [[]|msg]; [|done].
    destruct statusReply as [status|msg].
    + destruct (refreshRoster_board status
                  (setPositions (λ prev, delete nm prev) st)) as (-> & -> & _).
      simpl. split; [done|]. by apply positionsValid_delete.
    + simpl. split; [done|]. by apply positionsValid_delete.
  - unfold endCombat, emitCombatMessage.
    destruct reply, onNPCTurn; simpl; (split; [done|apply positionsValid_empty]).
Qed.

End dashboard_map.

(** ** Instances *)

Lemma handleSubmit_distinct_names_witness :
  s_name <$> handleSubmit threeGoblins = ["Goblin 1"; "Goblin 2"; "Goblin 3"]
  ∧ NoDup (s_name <$> handleSubmit threeGoblins).
Proof.
  destruct (handleSubmit_distinct_names threeGoblins initialState)
    as (_ & Hnd & _).
  - vm_compute. discriminate.
  - split; [vm_compute; reflexivity|exact Hnd].
Defined.

Lemma removeCombatantMidCombat_frees_cell_witness :
  positions (removeCombatantMidCombat "Goblin" (Resolved ()) (Rejected None)
               duelState) !! "Goblin" = None
  ∧ positionsValid
      (gridSize (removeCombatantMidCombat "Goblin" (Resolved ()) (Rejected None)
                   duelState))
      (positions (removeCombatantMidCombat "Goblin" (Resolved ()) (Rejected None)
                    duelState)).
Proof.
  destruct (removeCombatantMidCombat_frees_cell "Goblin" (Rejected None)
              duelState {| x := 16; y := 7 |}) as (Hpos & _ & Hvalid & _).
  - eexists. reflexivity.
  - vm_compute. reflexivity.
  - exact twoTokens_valid.
  - split; [|exact Hvalid]. rewrite Hpos. apply lookup_delete_eq.
Defined.

Lemma addCombatantMidCombat_position_witness :
  positions
    (addCombatantMidCombat (submittedCombatant threeGoblins 0) (Some 5) (Some 5)
       (Resolved {| a_name := "Goblin 1"; a_x := None; a_y := None |})
       (Resolved (StatusNone "")) duelState) !! "Goblin 1"
  = Some {| x := 5; y := 5 |}.
Proof.
  destruct (addCombatantMidCombat_position (submittedCombatant threeGoblins 0)
              (Some 5) (Some 5)
              {| a_name := "Goblin 1"; a_x := None; a_y := None |}
              (StatusNone "") duelState) as (Hpos & _).
  - eexists. reflexivity.
  - rewrite Hpos. vm_compute. reflexivity.
Defined.

Lemma nextTurn_selects_next_alive_witness :
  ∃ idx r,
    Tracker.nextTurn 3 trackerFight
    = Tracker.Finished
        (Legacy.set_combatState (Some (Tracker.set_turn idx r fightState))
           trackerFight)
    ∧ aliveAt (initiative_order fightState) idx.
Proof.
  destruct (nextTurn_selects_next_alive trackerFight fightState 3)
    as (idx & r & Heq & Halive & _).
  - reflexivity.
  - simpl. lia.
  - exists 0%nat. eexists. split; [reflexivity|]. vm_compute. reflexivity.
  - simpl. lia.
  - exists idx, r. split; [exact Heq|exact Halive].
Defined.

Lemma nextTurn_never_ends_when_all_down_witness :
  Tracker.nextTurn 1000 trackerFallen = Tracker.OutOfFuel.
Proof.
  apply (nextTurn_never_ends_when_all_down trackerFallen fallenState 1000).
  - reflexivity.
  - vm_compute. discriminate.
  - intros [|[|[|k]]] Hk; [| | |simpl in Hk; lia];
      (eexists; split; [reflexivity|]; vm_compute; discriminate).
Defined.

Lemma faction_and_side_witness :
  ∃ p, autoPlaceCombatants skirmish DEFAULT_GRID !! "Bran" = Some p ∧ x p = 3.
Proof.
  destruct (faction_and_side skirmish DEFAULT_GRID
              (sampleCombatant "Bran" false (Some true)))
    as (_ & p & Hp & Hcol).
  - apply (bool_decide_unpack (NoDup (name <$> skirmish))). vm_compute. reflexivity.
  - apply list_elem_of_further, list_elem_of_further, list_elem_of_here.
  - exists p. split; [exact Hp|exact Hcol].
Defined.

Lemma positionMap_finds_occupant_witness :
  positionMap duel (positions twoTokens) !! cellKey 16 7
  = Some (sampleCombatant "Goblin" false None).
Proof.
  apply (positionMap_finds_occupant duel (positions twoTokens) 16 7
           (sampleCombatant "Goblin" false None)).
  - apply (bool_decide_unpack (NoDup (name <$> duel))). vm_compute. reflexivity.
  - exact (proj2 twoTokens_valid).
  - split.
    + apply list_elem_of_further, list_elem_of_here.
    + vm_compute. reflexivity.
Defined.

Lemma handleCellClick_selects_or_moves_witness :
  selectedToken (handleCellClick duel 16 7 duelState).1 = Some "Goblin"
  ∧ (handleCellClick duel 16 7 duelState).2 = None.
Proof.
  destruct (handleCellClick_selects_or_moves duel 16 7 duelState) as (Hsel & _).
  - exact twoTokens_valid.
  - destruct (Hsel (sampleCombatant "Goblin" false None)) as [Hnone Hnew].
    + apply list_elem_of_further, list_elem_of_here.
    + vm_compute. reflexivity.
    + split; [|exact Hnone]. rewrite Hnew. vm_compute. reflexivity.
Defined.

Lemma startCombat_backend_positions_witness :
  positions (startCombat true (Resolved placedStart) initialState) !! "Goblin"
    = Some {| x := 10; y := 4 |}
  ∧ positions (startCombat true (Resolved placedStart) initialState) !! "Wolf"
    = None.
Proof.
  destruct (startCombat_backend_positions true placedStart initialState)
    as (Hlookup & _).
  - vm_compute. reflexivity.
  - apply (bool_decide_unpack (NoDup (w_name <$> r_initiative_order placedStart))).
    vm_compute. reflexivity.
  - split.
    + apply Hlookup. eexists. split.
      * apply list_elem_of_further, list_elem_of_here.
      * simpl. done.
    + destruct (positions (startCombat true (Resolved placedStart) initialState)
                !! "Wolf") as [p|] eqn:Hw; [|reflexivity].
      apply Hlookup in Hw as (c & Hc & Hname & Hx & _). exfalso.
      repeat (apply elem_of_cons in Hc as [->|Hc]); try discriminate.
      by apply elem_of_nil in Hc.
Defined.


